(** * BoilerLiving data pipeline: a shallow embedding and its properties

    The development follows the Python sources of the rental-listing
    pipeline:

    - [normalize.py]        text normalizers (price, beds, baths, address);
    - [parsers.py]          price scanner, record assembler, the Granite,
                            default, AppFolio and floor-plan strategies, the
                            entry point over several pages;
    - [link_discovery.py]   site rules, link filter, crawl frontier;
    - [scraper_selenium.py] chunked sleep, slugs, synthetic unit urls, upsert,
                            site crawl.

    Conventions of the embedding.

    - A Python [str] is a [string]; its characters are the code points
      U+0000 to U+00FF (so ["160"%char] is the non-breaking space).  The
      character classes below are Python's classes restricted to that range.
    - A Python [int] is a [Z].  A Python [float] is the rational number it
      denotes ([Q]); conversions from decimal literals and the arithmetic on
      them are exact here, which is what double arithmetic does on the
      integers up to 2^53 and on their halves.
    - [None] is [None]; a value that may be of several Python types is an
      inductive type with one constructor per type.
    - Library code outside the repository (the regex engine on arbitrary
      patterns, [urllib], the HTML tree, the clock, [float.__str__]) enters
      as a [Variable] of a [Section].
    - A call that may raise has an [outcome], the value returned or the
      exception raised: the fetch of a page, [urljoin] and [urlparse] (a
      [ValueError] on a url they cannot split), the parsers, and the store
      (an [OverflowError] on an int outside 64 bits).  The regex engine is
      called on patterns that compile, as those of [SITE_RULES] do. *)

From Stdlib Require Import Ascii String ZArith QArith Qround Lia Lqa.
From stdpp Require Import base option list gmap strings pretty fin_maps.

Local Open Scope string_scope.
Local Open Scope Z_scope.

(** [simpl] may unfold an append whose first argument starts with a
    character. *)
#[local] Arguments String.append !s1 s2 : simpl nomatch.

(** ** Characters *)

Definition is_digit (c : ascii) : bool :=
  let n := N_of_ascii c in ((48 <=? n) && (n <=? 57))%N.

(** [str.isspace] and the regex class [\s], on code points below 256. *)
Definition is_space (c : ascii) : bool :=
  let n := N_of_ascii c in
  (((9 <=? n) && (n <=? 13)) || ((28 <=? n) && (n <=? 32))
   || (n =? 133) || (n =? 160))%N.

(** [str.lower] on one code point below 256: A-Z, and the Latin-1 capitals
    U+00C0..U+00DE except the multiplication sign U+00D7. *)
Definition lower_char (c : ascii) : ascii :=
  let n := N_of_ascii c in
  if (((65 <=? n) && (n <=? 90))
      || ((192 <=? n) && (n <=? 222) && negb (n =? 215)))%N
  then ascii_of_N (n + 32) else c.

Definition nbsp : ascii := "160"%char.
Definition space : ascii := " "%char.
Definition hyphen : ascii := "-"%char.
Definition comma : ascii := ","%char.
Definition dot : ascii := "."%char.
Definition dollar : ascii := "$"%char.

(** ** Strings *)

Definition is_empty (s : string) : bool :=
  match s with EmptyString => true | String _ _ => false end.

Fixpoint smap (f : ascii -> ascii) (s : string) : string :=
  match s with
  | EmptyString => EmptyString
  | String c r => String (f c) (smap f r)
  end.

Fixpoint sfilter (p : ascii -> bool) (s : string) : string :=
  match s with
  | EmptyString => EmptyString
  | String c r => if p c then String c (sfilter p r) else sfilter p r
  end.

Fixpoint sforall (p : ascii -> bool) (s : string) : bool :=
  match s with
  | EmptyString => true
  | String c r => p c && sforall p r
  end.

Fixpoint sexists (p : ascii -> bool) (s : string) : bool :=
  match s with
  | EmptyString => false
  | String c r => p c || sexists p r
  end.

(** [s.lower()] *)
Definition lower (s : string) : string := smap lower_char s.

(** [s.replace(a, b)] for one-character [a] and [b]. *)
Definition replace_char (a b : ascii) (s : string) : string :=
  smap (fun c => if Ascii.eqb c a then b else c) s.

(** [s.replace(a, "")] for a one-character [a]. *)
Definition remove_char (a : ascii) (s : string) : string :=
  sfilter (fun c => negb (Ascii.eqb c a)) s.

(** [s[:n]] *)
Fixpoint take_str (n : nat) (s : string) : string :=
  match n, s with
  | S m, String c r => String c (take_str m r)
  | _, _ => EmptyString
  end.

(** Leading characters of a class, and what follows them. *)
Fixpoint span_while (p : ascii -> bool) (s : string) : string * string :=
  match s with
  | String c r =>
      if p c then let '(a, b) := span_while p r in (String c a, b)
      else (EmptyString, s)
  | EmptyString => (EmptyString, EmptyString)
  end.

Definition drop_while (p : ascii -> bool) (s : string) : string :=
  snd (span_while p s).

(** [s.lstrip()], [s.rstrip()], [s.strip()] over a class of characters. *)
Definition lstrip_of (p : ascii -> bool) (s : string) : string :=
  drop_while p s.

Fixpoint rstrip_of (p : ascii -> bool) (s : string) : string :=
  match s with
  | EmptyString => EmptyString
  | String c r =>
      let r' := rstrip_of p r in
      if p c && is_empty r' then EmptyString else String c r'
  end.

Definition strip_of (p : ascii -> bool) (s : string) : string :=
  rstrip_of p (lstrip_of p s).

Definition strip (s : string) : string := strip_of is_space s.

(** [re.sub(cls+, rep, s)] for a character class [cls] and a one-character
    replacement: every maximal run of [cls] becomes one [rep].  [in_run]
    tells that the previous character was in the class. *)
Fixpoint sub_runs (cls : ascii -> bool) (rep : ascii) (in_run : bool)
    (s : string) : string :=
  match s with
  | EmptyString => EmptyString
  | String c r =>
      if cls c
      then (if in_run then sub_runs cls rep true r
            else String rep (sub_runs cls rep true r))
      else String c (sub_runs cls rep false r)
  end.

(** [prefix in s]: the string starts with the given prefix. *)
Fixpoint startswith (s pre : string) : bool :=
  match pre, s with
  | EmptyString, _ => true
  | String a p', String b s' => Ascii.eqb a b && startswith s' p'
  | String _ _, EmptyString => false
  end.

(** [needle in s] *)
Fixpoint contains (s needle : string) : bool :=
  startswith s needle ||
  match s with
  | EmptyString => false
  | String _ r => contains r needle
  end.

Definition endswith (s suf : string) : bool :=
  startswith (String.rev s) (String.rev suf).

(** ** normalize.py *)

(** *** normalize_address *)

(** [normalize_address(addr_str)]: the argument is [None] or a string. *)
Definition normalize_address (addr_str : option string) : string :=
  match addr_str with
  | None => ""
  | Some a =>
      if is_empty a then ""
      else
        let s := replace_char nbsp space a in
        let s := sub_runs is_space space false s in
        strip s
  end.

(** *** Numbers in text *)

(** [int(s)] on a string of decimal digits ([acc] holds the digits read). *)
Fixpoint digits_to_Z_from (acc : Z) (s : string) : Z :=
  match s with
  | EmptyString => acc
  | String c r => digits_to_Z_from (10 * acc + (Z.of_N (N_of_ascii c) - 48)) r
  end.

Definition digits_to_Z (s : string) : Z := digits_to_Z_from 0 s.

(** [float(s)] on a match of [\d+(?:\.\d+)?]: the rational the literal
    denotes. *)
Definition float_of_literal (s : string) : Q :=
  let '(i, r) := span_while is_digit s in
  match r with
  | String _ f =>
      inject_Z (digits_to_Z (i ++ f)) / inject_Z (10 ^ Z.of_nat (String.length f))
  | EmptyString => inject_Z (digits_to_Z i)
  end.

(** [round(x)] on a float: to the nearest integer, ties to the even one. *)
Definition py_round (x : Q) : Z :=
  let f := Qfloor x in
  match (x - inject_Z f ?= 1 # 2)%Q with
  | Lt => f
  | Gt => f + 1
  | Eq => if Z.even f then f else f + 1
  end.

(** [sum(vals)] *)
Definition qsum (vals : list Q) : Q := foldr Qplus (0 # 1)%Q vals.

(** *** Regular-expression scans

    A pattern is given by its matcher at a position: [match_at s] is the
    text matched when the pattern matches at the start of [s].
    [finditer_from] walks the string as [re.finditer] does: at each position
    not covered by the previous match it tries the pattern, and a match of
    [k] characters covers the next [k - 1] positions. *)
Fixpoint finditer_from (match_at : string -> option string) (skip : nat)
    (s : string) : list string :=
  match s with
  | EmptyString => []
  | String _ r =>
      match skip with
      | S k => finditer_from match_at k r
      | O =>
          match match_at s with
          | Some m => m :: finditer_from match_at (String.length m - 1) r
          | None => finditer_from match_at O r
          end
      end
  end.

Definition finditer (match_at : string -> option string) (s : string)
  : list string := finditer_from match_at O s.

(** [re.search]: the first position where the pattern matches, with what the
    matcher returns there. *)
Fixpoint search {A} (match_at : string -> option A) (s : string) : option A :=
  match match_at s with
  | Some m => Some m
  | None =>
      match s with
      | EmptyString => None
      | String _ r => search match_at r
      end
  end.

(** [\d+(?:\.\d+)?] at the start of [s]. *)
Definition number_at (s : string) : option string :=
  let '(i, r) := span_while is_digit s in
  if is_empty i then None
  else
    match r with
    | String c r' =>
        let '(f, _) := span_while is_digit r' in
        if Ascii.eqb c dot && negb (is_empty f)
        then Some (i ++ String dot f) else Some i
    | EmptyString => Some i
    end.

(** [\d+] at the start of [s]. *)
Definition digits_at (s : string) : option string :=
  let '(i, _) := span_while is_digit s in
  if is_empty i then None else Some i.

(** *** normalize_price *)

(** [normalize_price(text)]: [None] for a falsy text or one without a number,
    else the rounded mean of the numbers. *)
Definition normalize_price (text : option string) : option Z :=
  match text with
  | None => None
  | Some t =>
      if is_empty t then None
      else
        let nums := finditer number_at (remove_char comma t) in
        match nums with
        | [] => None
        | _ :: _ =>
            let vals := map float_of_literal nums in
            let avg := (qsum vals / inject_Z (Z.of_nat (length vals)))%Q in
            Some (py_round avg)
        end
  end.

(** ** Values of several Python types

    The arguments of the assembler are strings, ints or floats. *)
Inductive pyarg : Type :=
| PStr (s : string)
| PInt (z : Z)
| PFloat (q : Q).

Section Normalizers.

(** [float.__str__], Python's shortest-repr printing of a double. *)
Variable float_str : Q -> string.

(** [str(v)] *)
Definition py_str (v : pyarg) : string :=
  match v with
  | PStr s => s
  | PInt z => pretty z
  | PFloat q => float_str q
  end.

(** [normalize_beds(text)] *)
Definition normalize_beds (text : option pyarg) : option Z :=
  match text with
  | None => None
  | Some v =>
      let t := lower (strip (py_str v)) in
      if contains t "studio" then Some 0
      else
        match search digits_at t with
        | Some m => Some (digits_to_Z m)
        | None => None
        end
  end.

(** [normalize_baths(text)] *)
Definition normalize_baths (text : option pyarg) : option Q :=
  match text with
  | None => None
  | Some v =>
      let t := lower (strip (py_str v)) in
      match search number_at t with
      | Some m => Some (float_of_literal m)
      | None => None
      end
  end.

End Normalizers.

(** ** Exceptions

    A call returns a value or raises.  [except Exception] catches the
    instances of [Exception], [ValueError] and [OverflowError] among them;
    [KeyboardInterrupt] and [SystemExit] are not instances of it. *)
Inductive exn : Type :=
| ValueError
| TypeError
| OverflowError
| RequestException
| HTTPError
| KeyboardInterrupt
| SystemExit.

Definition is_Exception (e : exn) : bool :=
  match e with
  | KeyboardInterrupt | SystemExit => false
  | _ => true
  end.

Inductive outcome (A : Type) : Type :=
| Returned (a : A)
| Raised (e : exn).

Arguments Returned {A} a.
Arguments Raised {A} e.

#[global] Instance outcome_ret : MRet outcome := fun A a => Returned a.

#[global] Instance outcome_bind : MBind outcome := fun A B k m =>
  match m with
  | Returned a => k a
  | Raised e => Raised e
  end.

(** ** parsers.py *)

Definition _is_plausible_rent (v : Z) : bool := (300 <=? v) && (v <=? 6000).

Definition is_amount_char (c : ascii) : bool :=
  is_digit c || Ascii.eqb c comma.

(** [\d[\d,]*] at the start of [s]: the match (empty when there is none)
    and the rest. *)
Definition amount_at (s : string) : string * string :=
  match s with
  | String c r =>
      if is_digit c
      then let '(a, b) := span_while is_amount_char r in (String c a, b)
      else (EmptyString, s)
  | EmptyString => (EmptyString, EmptyString)
  end.

(** [_PRICE_RX] at the start of [s]: a dollar sign, blanks, a digit, digits
    and commas; then, optionally, blanks, a hyphen, blanks and such an amount
    again.  No step of it gains from backtracking: what follows a starred
    class never starts with a character of that class. *)
Definition _PRICE_RX (s : string) : option string :=
  match s with
  | String c r =>
      if Ascii.eqb c dollar then
        let '(w1, r1) := span_while is_space r in
        let '(x, r2) := amount_at r1 in
        if is_empty x then None
        else
          let low := String dollar (w1 ++ x) in
          let '(w2, r3) := span_while is_space r2 in
          match r3 with
          | String d r4 =>
              if Ascii.eqb d hyphen then
                let '(w3, r5) := span_while is_space r4 in
                match r5 with
                | String e r6 =>
                    if Ascii.eqb e dollar then
                      let '(w4, r7) := span_while is_space r6 in
                      let '(y, _) := amount_at r7 in
                      if is_empty y then Some low
                      else Some (low ++ w2 ++ String hyphen
                                   (w3 ++ String dollar (w4 ++ y)))
                    else Some low
                | EmptyString => Some low
                end
              else Some low
          | EmptyString => Some low
          end
      else None
  | EmptyString => None
  end.

(** [raw.split("-")[0]] *)
Definition before_hyphen (raw : string) : string :=
  fst (span_while (fun c => negb (Ascii.eqb c hyphen)) raw).

(** The body of the loop of [_prices_from_text] on one match. *)
Definition price_of_match (raw : string) : list Z :=
  let part := before_hyphen raw in
  let digits := sfilter is_digit part in
  if is_empty digits then []
  else
    let v := digits_to_Z digits in
    if _is_plausible_rent v then [v] else [].

(** [_prices_from_text(text)] *)
Definition _prices_from_text (text : option string) : list Z :=
  let t := match text with Some t => t | None => "" end in
  flat_map price_of_match (finditer _PRICE_RX t).

(** The listing record, the dict [_mk_record] returns. *)
Record listing : Type := Listing {
  url : string;
  company : string;
  title : string;
  price : Z;
  beds : option Z;
  baths : option Q;
  address : string;
  last_scraped_at : string
}.

(** [s[n:]] *)
Fixpoint drop_str (n : nat) (s : string) : string :=
  match n, s with
  | S m, String _ r => drop_str m r
  | _, _ => s
  end.

(** A lower-case literal matched without regard to case ([re.I]). *)
Definition startswith_ci (s lit : string) : bool := startswith (lower s) lit.

Definition half_glyph : ascii := "189"%char.
Definition quarter_glyph : ascii := "188"%char.
Definition three_quarters_glyph : ascii := "190"%char.

(** The three [replace] calls of [_parse_baths]. *)
Fixpoint expand_fractions (s : string) : string :=
  match s with
  | EmptyString => EmptyString
  | String c r =>
      if Ascii.eqb c half_glyph then ".5" ++ expand_fractions r
      else if Ascii.eqb c quarter_glyph then ".25" ++ expand_fractions r
      else if Ascii.eqb c three_quarters_glyph then ".75" ++ expand_fractions r
      else String c (expand_fractions r)
  end.

(** [(\d+(?:\.\d+)?)\s*(?:Bath|BA|bathroom)] with [re.I], at the start of
    [s]; the result is group 1. *)
Definition baths_at (s : string) : option string :=
  match number_at s with
  | Some m =>
      let r := drop_while is_space (drop_str (String.length m) s) in
      if startswith_ci r "bath" || startswith_ci r "ba"
         || startswith_ci r "bathroom"
      then Some m else None
  | None => None
  end.

(** [_parse_baths(text)] *)
Definition _parse_baths (text : string) : Q :=
  match search baths_at (expand_fractions text) with
  | Some m => float_of_literal m
  | None => 0
  end.

Definition is_sep (c : ascii) : bool := Ascii.eqb c comma || is_space c.

(** [(\d+)\s*Beds?(?:[,\s]|$)] with [re.I] at the start of [s]; the result
    is group 1. *)
Definition beds_tail_at (s : string) : option string :=
  let '(d, r) := span_while is_digit s in
  if is_empty d then None
  else
    let r1 := drop_while is_space r in
    if startswith_ci r1 "bed" then
      let r2 := drop_str 3 r1 in
      let r3 :=
        match r2 with
        | String c r' => if Ascii.eqb (lower_char c) "s" then r' else r2
        | EmptyString => r2
        end in
      match r3 with
      | EmptyString => Some d
      | String c _ => if is_sep c then Some d else None
      end
    else None.

(** [re.search(r'(?:^|[,\s])(\d+)\s*Beds?(?:[,\s]|$)', txt, re.I)]: the
    alternative [^] at the first position, then every position that holds a
    separator. *)
Definition granite_beds (txt : string) : option string :=
  match beds_tail_at txt with
  | Some d => Some d
  | None =>
      search (fun s =>
                match s with
                | String c r => if is_sep c then beds_tail_at r else None
                | EmptyString => None
                end) txt
  end.

(** [\$\s*([\d,]+)\s*/\s*month] at the start of [s]; the result is group 1. *)
Definition granite_price_at (s : string) : option string :=
  match s with
  | String c r =>
      if Ascii.eqb c dollar then
        let '(g, r2) := span_while is_amount_char (drop_while is_space r) in
        if is_empty g then None
        else
          match drop_while is_space r2 with
          | String d r4 =>
              if Ascii.eqb d "/" && startswith (drop_while is_space r4) "month"
              then Some g else None
          | EmptyString => None
          end
      else None
  | EmptyString => None
  end.

Definition newline : ascii := "010"%char.

(** [re.match(r'^([^\n]+)', txt)]: the first line, when it is not empty. *)
Definition first_line (txt : string) : option string :=
  let l := fst (span_while (fun c => negb (Ascii.eqb c newline)) txt) in
  if is_empty l then None else Some l.

(** The skip test of [parse_granite] on a container's visible text. *)
Definition granite_skips (txt : string) : bool :=
  contains (lower txt) "not available" && contains (lower txt) "early inquiry".

Section Assembler.

Variable float_str : Q -> string.

(** [_now()]: the date the clock gives when the record is assembled. *)
Variable now : string.

(** The value [p] of [_mk_record]: an [int] price as it is, any other
    through [normalize_price(str(price))]. *)
Definition price_value (pr : pyarg) : option Z :=
  match pr with
  | PInt z => Some z
  | _ => normalize_price (Some (py_str float_str pr))
  end.

(** [_mk_record(url, company, title, price, beds, baths, address)] *)
Definition _mk_record (url company title : string) (price : option pyarg)
    (beds baths : option pyarg) (address : option string) : option listing :=
  match price with
  | None => None
  | Some pr =>
      let p := price_value pr in
      match p with
      | None => None
      | Some v =>
          if (v =? 0) || negb (_is_plausible_rent v) then None
          else Some {|
            url := url;
            company := company;
            title := take_str 200 (if is_empty title then company else title);
            price := v;
            beds :=
              match beds with
              | None | Some (PStr EmptyString) => Some 0
              | Some b => normalize_beds float_str (Some b)
              end;
            baths :=
              match baths with
              | None | Some (PStr EmptyString) => Some (0 # 1)%Q
              | Some b => normalize_baths float_str (Some b)
              end;
            address :=
              match address with
              | None => ""
              | Some a => if is_empty a then "" else normalize_address (Some a)
              end;
            last_scraped_at := now
          |}
      end
  end.

(** The shape every site parser has: records are the results of
    [_mk_record] that are not [None], appended in order.  [raw] holds the
    argument tuples the parser's tiers extract from the page. *)
Definition raw_fields : Type :=
  (string * string * string * option pyarg * option pyarg * option pyarg
   * option string)%type.

Definition assemble (r : raw_fields) : option listing :=
  let '(u, c, t, p, b, ba, a) := r in _mk_record u c t p b ba a.

Definition collect_records (raw : list raw_fields) : list listing :=
  omap assemble raw.

(** The body of the loop of [parse_granite] on the visible text of one
    [a.listings-list__item] container: [None] when the container is skipped
    or the assembler rejects it. *)
Definition parse_granite_item (url address txt : string)
  : outcome (option listing) :=
  if granite_skips txt then Returned None
  else
    let title :=
      match first_line txt with Some l => l | None => "Granite Property" end in
    let beds :=
      match granite_beds txt with Some d => digits_to_Z d | None => 0 end in
    let beds := if contains (lower txt) "studio" then 0 else beds in
    let baths := _parse_baths txt in
    match search granite_price_at txt with
    | None => Returned None
    | Some g =>
        let ds := remove_char comma g in
        if is_empty ds then Raised ValueError
        else
          Returned (_mk_record url "Granite Student Living" title
                      (Some (PInt (digits_to_Z ds))) (Some (PInt beds))
                      (Some (PFloat baths)) (Some address))
    end.

(** [parse_granite(url, soup)]: [address] is what [_extract_address] finds,
    [items] the visible texts of the listing containers in document order. *)
Fixpoint parse_granite (url address : string) (items : list string)
  : outcome (list listing) :=
  match items with
  | [] => Returned []
  | txt :: rest =>
      rec ← parse_granite_item url address txt;
      results ← parse_granite url address rest;
      mret (option_list rec ++ results)%list
  end.

(** [parse_default(url, soup)]: [page_title] is [_title_or(soup, "Listing")]
    and [text] the page's visible text. *)
Definition parse_default (url address page_title text : string)
  : list listing :=
  omap (fun p => _mk_record url "Unknown" page_title (Some (PInt p))
                   (Some (PInt 0)) (Some (PFloat 0)) (Some address))
       (_prices_from_text (Some text)).

End Assembler.

(** Printing of the short decimals that bath counts are: the integer part, a
    dot, and one or two digits after it (["1.5"], ["2.0"], ["0.25"]).  On
    the non-negative values with at most two decimals it is [float.__str__],
    and it stands for it where an example needs to run. *)
Definition short_decimal_str (q : Q) : string :=
  let i := Qfloor q in
  let r := (q - inject_Z i)%Q in
  let d1 := Qfloor (r * 10) in
  let r1 := (r * 10 - inject_Z d1)%Q in
  let d2 := Qfloor (r1 * 10) in
  pretty i ++ "." ++ pretty d1 ++ (if d2 =? 0 then "" else pretty d2).

(** ** parsers.py: the AppFolio strategies *)

(** What the strategies read from one [.listing-item] element: the text of
    its [h3.rent] and of its [h2.address, .address] element (both with
    [get_text(strip=True)]), and the text of its [.feature.beds] and
    [.feature.baths] elements; [None] where the item has no such element. *)
Record listing_item : Type := ListingItem {
  rent_text : option string;
  address_text : option string;
  beds_text : option string;
  baths_text : option string
}.

(** [(\d+\.?\d?)] at the start of [s]: digits, then a dot when there is one,
    then one digit when there is one. *)
Definition short_number_at (s : string) : option string :=
  let '(i, r) := span_while is_digit s in
  if is_empty i then None
  else
    match r with
    | String c r' =>
        if Ascii.eqb c dot then
          match r' with
          | String d _ =>
              if is_digit d then Some (i ++ String dot (String d ""))
              else Some (i ++ ".")
          | EmptyString => Some (i ++ ".")
          end
        else Some i
    | EmptyString => Some i
    end.

(** [prices[0]] after the test [if not prices: continue]. *)
Definition first_price (it : listing_item) : option Z :=
  match rent_text it with
  | None => None
  | Some price_text => head (_prices_from_text (Some price_text))
  end.

(** [re.search(r"(\d+)", beds_el.get_text()) if beds_el else None], and the
    same for the baths: group 1 of the match. *)
Definition beds_group (it : listing_item) : option string :=
  match beds_text it with
  | Some t => search digits_at t
  | None => None
  end.

Definition baths_group (it : listing_item) : option string :=
  match baths_text it with
  | Some t => search short_number_at t
  | None => None
  end.

(** The bed count both strategies store for an item. *)
Definition item_beds (it : listing_item) : Z :=
  match beds_group it with Some g => digits_to_Z g | None => 0 end.

Section AppFolio.

Variable float_str : Q -> string.
Variable now : string.

(** The body of the loop of [parse_weida] on one item. *)
Definition weida_item (url : string) (it : listing_item) : option listing :=
  match first_price it with
  | None => None
  | Some p =>
      let title := default "Weida Unit" (address_text it) in
      let beds := beds_group it in
      let baths := baths_group it in
      let address :=
        default "Weida Apartments, West Lafayette, IN" (address_text it) in
      _mk_record float_str now url "Weida Apartments" title (Some (PInt p))
        (Some (match beds with Some g => PStr g | None => PInt 0 end))
        (Some (match baths with Some g => PStr g | None => PInt 0 end))
        (Some address)
  end.

(** [parse_weida(url, soup)] on the items [soup.select(".listing-item")]
    gives. *)
Definition parse_weida (url : string) (items : list listing_item)
  : list listing :=
  omap (weida_item url) items.

(** The body of the first loop of [parse_bk] on one item: the groups go
    through [int] and [float]. *)
Definition bk_item (url : string) (it : listing_item) : option listing :=
  match first_price it with
  | None => None
  | Some p =>
      let title := default "BK Listing" (address_text it) in
      let beds :=
        match beds_group it with Some g => digits_to_Z g | None => 0 end in
      let baths :=
        match baths_group it with
        | Some g => float_of_literal g
        | None => 0%Q
        end in
      let address :=
        default "BK Management, West Lafayette, IN" (address_text it) in
      _mk_record float_str now url "BK Management" title (Some (PInt p))
        (Some (PInt beds)) (Some (PFloat baths)) (Some address)
  end.

(** [parse_bk(url, soup)]: [page_title] is [_title_or(soup, "BK Listing")]
    and [text] the page's visible text, read when the items gave nothing. *)
Definition parse_bk (url : string) (items : list listing_item)
    (page_title text : string) : list listing :=
  let results := omap (bk_item url) items in
  match results with
  | [] =>
      omap (fun p => _mk_record float_str now url "BK Management" page_title
                       (Some (PInt p)) (Some (PInt 0)) (Some (PFloat 0))
                       (Some ""))
           (_prices_from_text (Some text))
  | _ :: _ => results
  end.

End AppFolio.

Section AppFolioMore.

Variable float_str : Q -> string.
Variable now : string.

(** The body of the first loop of [parse_muinzer] on one item. *)
Definition muinzer_item (url : string) (it : listing_item) : option listing :=
  match first_price it with
  | None => None
  | Some p =>
      let title := default "Muinzer Unit" (address_text it) in
      let beds :=
        match beds_group it with Some g => digits_to_Z g | None => 0 end in
      let baths :=
        match baths_group it with
        | Some g => float_of_literal g
        | None => 0%Q
        end in
      let address :=
        default "Muinzer Apartments, West Lafayette, IN" (address_text it) in
      _mk_record float_str now url "Muinzer" title (Some (PInt p))
        (Some (PInt beds)) (Some (PFloat baths)) (Some address)
  end.

(** [parse_muinzer(url, soup)]: [json_text] is [json.dumps(data)] when
    [_json_in_script] finds data that is not empty, and [page_title] is
    [_title_or(soup, "Muinzer Unit")]; both are read when the items gave
    nothing. *)
Definition parse_muinzer (url : string) (items : list listing_item)
    (json_text : option string) (page_title : string) : list listing :=
  let results := omap (muinzer_item url) items in
  match results with
  | [] =>
      match json_text with
      | Some text =>
          omap (fun p => _mk_record float_str now url "Muinzer" page_title
                           (Some (PInt p)) (Some (PInt 0)) (Some (PFloat 0))
                           (Some ""))
               (_prices_from_text (Some text))
      | None => []
      end
  | _ :: _ => results
  end.

(** The body of the first loop of [parse_fairway] on one item. *)
Definition fairway_item (url : string) (it : listing_item) : option listing :=
  match first_price it with
  | None => None
  | Some p =>
      let title := default "Fairway Unit" (address_text it) in
      let beds := beds_group it in
      let baths := baths_group it in
      let address :=
        default "Fairway Apartments, West Lafayette, IN" (address_text it) in
      _mk_record float_str now url "Fairway Apartments" title (Some (PInt p))
        (Some (match beds with Some g => PStr g | None => PInt 0 end))
        (Some (match baths with Some g => PStr g | None => PInt 0 end))
        (Some address)
  end.

(** [parse_fairway(url, soup)]: [address] is what [_extract_address] finds
    on the page, [page_title] is [_title_or(soup, "Fairway Unit")] and [text]
    the page's visible text; the three are read when the items gave
    nothing. *)
Definition parse_fairway (url : string) (items : list listing_item)
    (address page_title text : string) : list listing :=
  let results := omap (fairway_item url) items in
  match results with
  | [] =>
      omap (fun p => _mk_record float_str now url "Fairway Apartments"
                       page_title (Some (PInt p)) (Some (PInt 0))
                       (Some (PFloat 0)) (Some address))
           (_prices_from_text (Some text))
  | _ :: _ => results
  end.

End AppFolioMore.

(** ** parsers.py: the floor-plan strategy of Alight *)

(** What [parse_alight] reads from one [.floorplan] element: its visible
    text, and the text of its first [h2, h3, .title, .name] element when it
    has one. *)
Record floorplan : Type := Floorplan {
  plan_text : string;
  plan_title : option string
}.

(** [(\d+)\s*(?:Bed|BR|bedroom)] with [re.I] at the start of [s]; the result
    is group 1. *)
Definition bed_count_at (s : string) : option string :=
  let '(d, r) := span_while is_digit s in
  if is_empty d then None
  else
    let r1 := drop_while is_space r in
    if startswith_ci r1 "bed" || startswith_ci r1 "br"
       || startswith_ci r1 "bedroom"
    then Some d else None.

(** The test [if 'studio' in txt.lower() or 'studio' in title_text.lower()]
    of a floor plan. *)
Definition is_studio_plan (plan : floorplan) : bool :=
  contains (lower (plan_text plan)) "studio"
  || contains (lower (default "Alight Unit" (plan_title plan))) "studio".

(** The values of [beds] and [baths] after the studio test. *)
Definition alight_beds (plan : floorplan) : Z :=
  if is_studio_plan plan then 0
  else
    match search bed_count_at (plan_text plan) with
    | Some d => digits_to_Z d
    | None => 0
    end.

Definition alight_baths (plan : floorplan) : Q :=
  let baths := _parse_baths (plan_text plan) in
  if is_studio_plan plan then (if Qeq_bool baths 0 then 1%Q else baths)
  else baths.

Section Alight.

Variable float_str : Q -> string.
Variable now : string.

(** The body of the loop of [parse_alight] on one floor plan: the records
    it appends. *)
Definition alight_plan (url address : string) (plan : floorplan)
  : list listing :=
  let prices := _prices_from_text (Some (plan_text plan)) in
  let title_text := default "Alight Unit" (plan_title plan) in
  omap (fun p => _mk_record float_str now url "Alight West Lafayette"
                   title_text (Some (PInt p)) (Some (PInt (alight_beds plan)))
                   (Some (PFloat (alight_baths plan))) (Some address))
       prices.

(** [parse_alight(url, soup)]: [address] is what [_extract_address] finds,
    [plans] the [.floorplan] elements in document order, [page_title] is
    [_title_or(soup, "Alight Unit")] and [text] the page's visible text, read
    when the floor plans gave nothing. *)
Definition parse_alight (url address : string) (plans : list floorplan)
    (page_title text : string) : list listing :=
  let results := flat_map (alight_plan url address) plans in
  match results with
  | [] =>
      omap (fun p => _mk_record float_str now url "Alight West Lafayette"
                       page_title (Some (PInt p)) (Some (PInt 0))
                       (Some (PFloat 0)) (Some address))
           (_prices_from_text (Some text))
  | _ :: _ => results
  end.

End Alight.

(** ** parsers.py: the strategy of RISE *)

(** The regex class [\w] on code points below 256: letters, digits, the
    underscore, and the Latin-1 letters and numerals. *)
Definition is_word_char (c : ascii) : bool :=
  let n := N_of_ascii c in
  (((48 <=? n) && (n <=? 57)) || ((65 <=? n) && (n <=? 90)) || (n =? 95)
   || ((97 <=? n) && (n <=? 122)) || (n =? 170) || (n =? 178) || (n =? 179)
   || (n =? 181) || (n =? 185) || (n =? 186)
   || ((188 <=? n) && (n <=? 190)) || ((192 <=? n) && (n <=? 214))
   || ((216 <=? n) && (n <=? 246)) || ((248 <=? n) && (n <=? 255)))%N.

(** [\b] after a word character: the end of the text, or a character that is
    not a word character. *)
Definition word_end (s : string) : bool :=
  match s with
  | EmptyString => true
  | String c _ => negb (is_word_char c)
  end.

(** A lower-case word matched without regard to case and followed by [\b]. *)
Definition word_ci (s w : string) : bool :=
  startswith_ci s w && word_end (drop_str (String.length w) s).

(** [_BEDS_RX], that is [(\d+)\s*(?:bed|beds|br|bd)\b] with [re.I], at the
    start of [s]; the result is group 1. *)
Definition _BEDS_RX (s : string) : option string :=
  let '(d, r) := span_while is_digit s in
  if is_empty d then None
  else
    let r1 := drop_while is_space r in
    if word_ci r1 "bed" || word_ci r1 "beds" || word_ci r1 "br"
       || word_ci r1 "bd"
    then Some d else None.

(** [_BATHS_RX], that is [(\d+(?:\.\d+)?)\s*(?:bath|baths|ba)\b] with
    [re.I], at the start of [s]; the result is group 1. *)
Definition _BATHS_RX (s : string) : option string :=
  match number_at s with
  | Some m =>
      let r1 := drop_while is_space (drop_str (String.length m) s) in
      if word_ci r1 "bath" || word_ci r1 "baths" || word_ci r1 "ba"
      then Some m else None
  | None => None
  end.

(** What [parse_rise] reads from one element of its selection: its visible
    text, the text of its first [h2, h3, .title, .name] element when it has
    one, and what [_extract_address] finds in it. *)
Record rise_card : Type := RiseCard {
  card_text : string;
  card_title : option string;
  card_address : string
}.

Section Rise.

Variable float_str : Q -> string.
Variable now : string.

(** The body of the first loop of [parse_rise] on one element. *)
Definition rise_item (url : string) (it : rise_card) : option listing :=
  match _prices_from_text (Some (card_text it)) with
  | [] => None
  | p :: _ =>
      let beds :=
        match search _BEDS_RX (card_text it) with
        | Some g => PStr g
        | None => PInt 0
        end in
      let baths :=
        match search _BATHS_RX (card_text it) with
        | Some g => PStr g
        | None => PInt 0
        end in
      let title := default "RISE Unit" (card_title it) in
      _mk_record float_str now url "RISE on Chauncey" title (Some (PInt p))
        (Some beds) (Some baths) (Some (card_address it))
  end.

(** [parse_rise(url, soup)]: [address] is what [_extract_address] finds on
    the page, [page_title] is [_title_or(soup, "RISE Listing")] and [text]
    the page's visible text; the three are read when the elements gave
    nothing. *)
Definition parse_rise (url : string) (items : list rise_card)
    (address page_title text : string) : list listing :=
  let results := omap (rise_item url) items in
  match results with
  | [] =>
      omap (fun p => _mk_record float_str now url "RISE on Chauncey"
                       page_title (Some (PInt p)) (Some (PInt 0))
                       (Some (PFloat 0)) (Some address))
           (_prices_from_text (Some text))
  | _ :: _ => results
  end.

End Rise.

(** The bed count [parse_rise] stores for a text. *)
Definition rise_beds (txt : string) : Z :=
  match search _BEDS_RX txt with
  | Some g => digits_to_Z g
  | None => 0
  end.

(** ** parsers.py: the entry points *)

(** The positional arguments of [parse_html_many]: a url and its html, one
    dict from urls to html (its items in insertion order), or anything
    else. *)
Inductive entry_args : Type :=
| ArgsUrlHtml (url html : string)
| ArgsDict (pages : list (string * string))
| ArgsOther.

(** [[r for r in recs if r.get("price")]] *)
Definition keep_priced (recs : list listing) : list listing :=
  List.filter (fun r => negb (price r =? 0)) recs.

Section Entry.

(** [parse_html(url, html)]: the records of the page, or the exception the
    site parser raised. *)
Variable parse_html : string -> string -> outcome (list listing).

(** The loop of [parse_html_many] over [items], from the results gathered so
    far. *)
Fixpoint parse_pages (items : list (string * string))
    (all_results : list listing) : outcome (list listing) :=
  match items with
  | [] => Returned all_results
  | (url, html) :: rest =>
      match parse_html url html with
      | Returned recs => parse_pages rest (all_results ++ keep_priced recs)%list
      | Raised e =>
          if is_Exception e then parse_pages rest all_results else Raised e
      end
  end.

(** [parse_html_many] on its positional arguments. *)
Definition parse_html_many (args : entry_args) : outcome (list listing) :=
  match args with
  | ArgsUrlHtml url html => parse_pages [(url, html)] []
  | ArgsDict pages => parse_pages pages []
  | ArgsOther => Raised TypeError
  end.

(** What one page adds to the results. *)
Definition page_records (page : string * string) : list listing :=
  match parse_html page.1 page.2 with
  | Returned recs => keep_priced recs
  | Raised _ => []
  end.

End Entry.

(** A stand-in for [parse_html] on pages that are given by their visible
    text: the Granite strategy on one container for a Granite url, the
    default strategy for any other. *)
Definition parse_text_page (url text : string) : outcome (list listing) :=
  if contains url "granitestudentliving.com"
  then parse_granite short_decimal_str "11-03-2026" url "West Lafayette, IN"
         [text]
  else Returned (parse_default short_decimal_str "11-03-2026" url
                   "West Lafayette, IN" "Listing" text).

(** ** link_discovery.py *)

(** Per-site allow and deny patterns: [(site, allow, deny)]. *)
Definition SITE_RULES : list (string * list string * list string) :=
  [ ("granitestudentliving.com",
     ["/listings"; "/property"; "/purdue"; "location=purdue"],
     ["/about"; "/blog"; "/contact"; "/payment"; "/maintenance";
      "/banana-blog"; "/careers"; "/resident"; "/guarantor"]);
    ("weidaapartments.com",
     ["/availability"; "/apartments"; "/available"; "/west-lafayette"],
     ["/about"; "/blog"; "/contact"; "/resources"; "/residents";
      "/maintenance"; "/documents"; "/pet-policy"]);
    ("muinzerclosetocampus.com",
     ["/availability"; "/properties"; "/purdue"; "/west-lafayette"],
     ["/residents"; "/parents"; "/sitemap"; "/contact"]);
    ("americancampus.com",
     ["/chauncey-square/.*floor-plans"; "/campus-edge-on-pierce/.*floor-plans";
      "/detail/"],
     ["#"; "/gallery"; "/amenities"; "/contact"; "/parents"; "/faq"; "/jobs";
      "/about-us"; "^/$"]);
    ("redpoint-westlafayette.com",
     ["/rates-floorplans"],
     ["/features"; "/photo-tour"; "/management"; "/sitemap"; "/contact"]);
    ("smartdigs.com",
     ["/availability"; "/property-listing"],
     ["/rental-application"; "/property-management"; "/useful-information"]);
    ("yugo.com",
     ["/west-lafayette-in/yugo-west-lafayette-river-market/rooms";
      "/west-lafayette-in/yugo-west-lafayette-river-market$"],
     ["/global/"; "/united-kingdom"; "/germany"; "/italy"; "/spain";
      "/australia"; "/united-states-of-america/(?!west-lafayette-in)"]);
    ("alight-westlafayette.com",
     ["/rates-floorplans"],
     ["/photo-tour"; "/features"; "/management"; "/site-map"]);
    ("offcampushousing.purdue.edu",
     ["/housing"; "/listing"],
     ["/account"; "/resources"; "/help"]);
    ("riseonchauncey.com",
     ["/availability"],
     ["/amenities"; "/gallery"; "/neighborhood"; "/virtual-tour"; "/contact"]);
    ("everwestlafayette.com",
     ["/floor-plans"; "floorplan="],
     ["/contact"; "/gallery"; "/amenities"; "/neighborhood"; "/blog"]);
    ("bk-management.com",
     ["/vacancies"; "/purdue"; "/west-lafayette"],
     ["/about"; "/residents"; "/owner"; "/management"; "/blog"]);
    ("wabashlanding.com",
     ["/floor-plans"],
     ["/amenities"; "/location"; "/gallery"; "/about"; "/resident"]);
    ("lodgetrailpurdue.com",
     ["/all-floor-plans"; "/pricing"],
     ["/photos"; "/contact"; "/home"]);
    ("fairway-apartments.com",
     ["/availability"; "/floor-plans"],
     ["/the-amenities"; "/the-gallery"; "/accessibility"; "/photos"]) ].

(** The fields of [urlparse]'s result that the frontier reads. *)
Record ParseResult : Type := {
  netloc : string;
  path : string;
  query : string;
  fragment : string
}.

(** What [requests.get] followed by [raise_for_status] and the HTML parser
    give for the seed page: the [href] values of the anchors that have one,
    in document order, or the exception raised. *)
Inductive fetch_result : Type :=
| Fetched (hrefs : list string)
| FetchRaised (e : exn).

(** Truth value of an optional list: [None] and [[]] are falsy. *)
Definition truthy {A} (o : option (list A)) : bool :=
  match o with
  | Some (_ :: _) => true
  | _ => false
  end.

(** [list(dict.fromkeys(out))]: the keys in the order of their first
    insertion; [seen] holds the keys already in the dict. *)
Fixpoint fromkeys_from (seen : list string) (l : list string) : list string :=
  match l with
  | [] => []
  | x :: r =>
      if bool_decide (x ∈ seen) then fromkeys_from seen r
      else x :: fromkeys_from (x :: seen) r
  end.

Definition dict_fromkeys (l : list string) : list string := fromkeys_from [] l.

Definition asset_exts : list string :=
  [".pdf"; ".jpg"; ".jpeg"; ".png"; ".gif"; ".svg"].

(** [re.search(r"(unit_|floorplan|detail)", fragment, re.I)] *)
Definition unit_anchor (frag : string) : bool :=
  let f := lower frag in
  contains f "unit_" || contains f "floorplan" || contains f "detail".

Section Discovery.

(** [re.search(pattern, s) is not None], for a pattern that compiles *)
Variable re_search : string -> string -> bool.
(** [urllib.parse.urljoin] and [urllib.parse.urlparse]: each returns, or
    raises [ValueError] on a url it cannot split. *)
Variable urljoin : string -> string -> outcome string.
Variable urlparse : string -> outcome ParseResult.

(** [_match_any(patterns, path)] *)
Definition _match_any (patterns : option (list string)) (path : string)
  : bool :=
  if negb (truthy patterns) then true
  else existsb (fun p => re_search p path) (default [] patterns).

(** The two filter tests of the loop of [discover_links]: the deny test
    comes first and ends the iteration when it holds. *)
Definition passes_filters (allow_patterns deny_patterns : option (list string))
    (path_q : string) : bool :=
  if truthy deny_patterns && _match_any deny_patterns path_q then false
  else if truthy allow_patterns && negb (_match_any allow_patterns path_q)
  then false
  else true.

(** The site-rule presets that fill the filters the caller left [None]. *)
Definition resolve_rules (host : string)
    (allow_patterns deny_patterns : option (list string))
  : option (list string) * option (list string) :=
  if bool_decide (allow_patterns = None) || bool_decide (deny_patterns = None)
  then
    match find (fun '(site, _, _) => contains host site) SITE_RULES with
    | Some (_, allow, deny) =>
        (match allow_patterns with None => Some allow | a => a end,
         match deny_patterns with None => Some deny | d => d end)
    | None => (allow_patterns, deny_patterns)
    end
  else (allow_patterns, deny_patterns).

(** The tests of the loop body on a url that was joined and split: the url
    is appended to [out], or the iteration ends with [continue]. *)
Definition link_passes (host : string) (same_domain : bool)
    (allow_patterns deny_patterns : option (list string)) (url : string)
    (u : ParseResult) : bool :=
  if same_domain && negb (String.eqb (netloc u) host) then false
  else if existsb (fun ext => endswith (lower url) ext) asset_exts then false
  else if negb (is_empty (fragment u)) && negb (unit_anchor (fragment u))
  then false
  else
    let path_q :=
      path u ++ (if is_empty (query u) then "" else "?" ++ query u) in
    passes_filters allow_patterns deny_patterns path_q.

(** The body of the loop over the anchors: the url appended to [out], or
    [None] when the iteration ends with [continue]; [urljoin] and [urlparse]
    are called outside any [try], so what they raise leaves the loop. *)
Definition keep_link (start_url host : string) (same_domain : bool)
    (allow_patterns deny_patterns : option (list string)) (raw_href : string)
  : outcome (option string) :=
  let href := strip raw_href in
  if is_empty href || startswith href "mailto:" || startswith href "tel:"
  then mret None
  else
    url ← urljoin start_url href;
    u ← urlparse url;
    mret (if link_passes host same_domain allow_patterns deny_patterns url u
          then Some url else None).

(** The loop over the anchors, in document order: the urls appended to
    [out], or the first exception raised. *)
Fixpoint collect_links (keep : string -> outcome (option string))
    (hrefs : list string) : outcome (list string) :=
  match hrefs with
  | [] => mret []
  | raw :: rest =>
      kept ← keep raw;
      out ← collect_links keep rest;
      mret (match kept with
            | Some url => url :: out
            | None => out
            end)
  end.

(** [discover_links] from [parsed = urlparse(start_url)] to the end of the
    loop: the links that reach [out.append(url)], in document order. *)
Definition surviving_links (start_url : string) (same_domain : bool)
    (allow_patterns deny_patterns : option (list string))
    (hrefs : list string) : outcome (list string) :=
  parsed ← urlparse start_url;
  let host := netloc parsed in
  let '(allow, deny) := resolve_rules host allow_patterns deny_patterns in
  collect_links (keep_link start_url host same_domain allow deny) hrefs.

(** [discover_links(start_url, *, max_pages, same_domain, allow_patterns,
    deny_patterns)].  Only the fetch stands in a [try].  [max_pages] is a
    parameter of the signature and is not read by the body; the cap of the
    result is the literal 200. *)
Definition discover_links (start_url : string) (max_pages : Z)
    (same_domain : bool) (allow_patterns deny_patterns : option (list string))
    (resp : fetch_result) : outcome (list string) :=
  match resp with
  | FetchRaised e => if is_Exception e then Returned [] else Raised e
  | Fetched hrefs =>
      out ← surviving_links start_url same_domain allow_patterns deny_patterns
              hrefs;
      mret (take 200 (dict_fromkeys out))
  end.

(** No call of [urljoin] or [urlparse] that [discover_links] makes on the
    seed url and on the links of the page raises. *)
Definition links_resolve (start_url : string) (hrefs : list string) : Prop :=
  (exists parsed, urlparse start_url = Returned parsed)
  /\ forall raw, raw ∈ hrefs ->
       let href := strip raw in
       is_empty href || startswith href "mailto:" || startswith href "tel:"
       = true
       \/ exists url u,
            urljoin start_url href = Returned url /\ urlparse url = Returned u.

(** ** scraper_selenium.py: the crawl of one site *)

Definition MAX_LINKS_PER_SITE : nat := 120.

(** The pages the loop of [scrape_site] visits, given what discovery
    returned. *)
Definition scrape_site_candidates (start_url : string)
    (discovered : list string) : list string :=
  let discovered :=
    match discovered with
    | [] => [start_url]
    | _ :: _ => discovered
    end in
  take MAX_LINKS_PER_SITE discovered.

(** [scrape_site] up to its loop: discovery with [max_pages=1] and
    [same_domain=True], then the choice of the candidates. *)
Definition scrape_site_frontier (start_url : string)
    (allow_patterns deny_patterns : option (list string))
    (resp : fetch_result) : outcome (list string) :=
  discovered ← discover_links start_url 1 true allow_patterns deny_patterns
                 resp;
  mret (scrape_site_candidates start_url discovered).

End Discovery.

(** *** Library functions on the inputs of the examples *)

(** [re.search] for a pattern without metacharacters: the pattern occurs in
    the string. *)
Definition literal_search (pattern s : string) : bool := contains s pattern.

(** The test of [urlsplit] on the brackets of a network location: one
    bracket without the other is an invalid IPv6 url. *)
Definition bad_netloc (host : string) : bool :=
  xorb (contains host "[") (contains host "]").

(** [urlparse] on urls of the shape [scheme://netloc/path?query#fragment]. *)
Definition urlparse_simple (u : string) : outcome ParseResult :=
  let '(before_frag, frag) :=
    span_while (fun c => negb (Ascii.eqb c "#")) u in
  let '(before_query, q) :=
    span_while (fun c => negb (Ascii.eqb c "?")) before_frag in
  let '(scheme, rest) :=
    span_while (fun c => negb (Ascii.eqb c ":")) before_query in
  let '(host, p) :=
    span_while (fun c => negb (Ascii.eqb c "/")) (drop_str 3 rest) in
  if bad_netloc host then Raised ValueError
  else Returned {| netloc := host; path := p; query := drop_str 1 q;
                   fragment := drop_str 1 frag |}.

(** [urljoin] when the reference is an absolute url with a network location:
    the base and the reference are split, and the reference is returned. *)
Definition urljoin_absolute (base href : string) : outcome string :=
  _ ← urlparse_simple base;
  _ ← urlparse_simple href;
  mret href.

(** ** scraper_selenium.py: safe_sleep *)

(** [int(x)] on a float: truncation toward zero. *)
Definition int_of_float (x : Q) : Z :=
  if Qle_bool 0 x then Qfloor x else Qceiling x.

(** [x % m] on floats, for a positive [m]: the result has the sign of [m].
    On a non-negative [x] the float operation is exact, as is [x / 0.5]. *)
Definition float_mod (x m : Q) : Q := (x - m * inject_Z (Qfloor (x / m)))%Q.

(** The [for _ in range(chunks)] loop of [safe_sleep]: the durations of the
    calls to [time.sleep] it makes, and whether it ended with [return].
    [interrupted k] tells that the call number [k] raises
    [KeyboardInterrupt]. *)
Fixpoint sleep_chunks (interrupted : nat -> bool) (k chunks : nat)
  : list Q * bool :=
  match chunks with
  | O => ([], false)
  | S n =>
      if interrupted k then ([1 # 2]%Q, true)
      else
        let '(calls, returned) := sleep_chunks interrupted (S k) n in
        ((1 # 2)%Q :: calls, returned)
  end.

(** [safe_sleep(seconds)]: the durations of the calls to [time.sleep], in
    order. *)
Definition safe_sleep (seconds : Q) (interrupted : nat -> bool) : list Q :=
  let chunks := Z.to_nat (int_of_float (seconds / (1 # 2))) in
  let remainder := float_mod seconds (1 # 2) in
  let '(calls, returned) := sleep_chunks interrupted O chunks in
  if returned then calls
  else if Qle_bool remainder 0 then calls
  else (calls ++ [remainder])%list.

(** ** scraper_selenium.py: the idempotent store *)

(** The complement of the class [a-z0-9]. *)
Definition not_slug_char (c : ascii) : bool :=
  let n := N_of_ascii c in
  negb (((97 <=? n) && (n <=? 122)) || ((48 <=? n) && (n <=? 57)))%N.

(** [_slug(s)] *)
Definition _slug (s : option string) : string :=
  let s := default "" s in
  let s := lower s in
  let s := strip_of (Ascii.eqb hyphen) (sub_runs not_slug_char hyphen false s) in
  let s := take_str 60 s in
  if is_empty s then "unit" else s.

(** The slug as the specification words it: lowercase, every run of
    non-alphanumeric characters replaced by one hyphen, truncated to 60
    characters. *)
Definition slug_as_specified (s : string) : string :=
  take_str 60 (sub_runs not_slug_char hyphen false (lower s)).

(** *** Listings as shared mutable objects

    The listing dicts live in a heap; a list of listings is a list of
    references (indices) into it.  [_stabilize_unit_urls] writes the [url]
    key of the dicts it is given and returns the same list. *)
Definition heap : Type := list listing.

Definition set_url (u : string) (r : listing) : listing :=
  {| url := u; company := company r; title := title r; price := price r;
     beds := beds r; baths := baths r; address := address r;
     last_scraped_at := last_scraped_at r |}.

(** [by_url[k].append(l)] on an insertion-ordered [defaultdict(list)]. *)
Fixpoint by_url_append (k : string) (l : nat) (d : list (string * list nat))
  : list (string * list nat) :=
  match d with
  | [] => [(k, [l])]
  | (k', rows) :: d' =>
      if String.eqb k k' then (k', (rows ++ [l])%list) :: d'
      else (k', rows) :: by_url_append k l d'
  end.

(** The first loop of [_stabilize_unit_urls]. *)
Definition group_by_url (h : heap) (listings : list nat)
  : list (string * list nat) :=
  foldl (fun d l =>
           match h !! l with
           | Some r => by_url_append (url r) l d
           | None => d
           end) [] listings.

(** The [while unique_url in seen] loop: [cand] is the current value of
    [unique_url] and [i] of the counter.  The loop ends within
    [size seen + 1] tests, which is the fuel [unique_url] gives it. *)
Fixpoint probe (seen : gset string) (synth : string) (fuel : nat) (i : Z)
    (cand : string) : string :=
  match fuel with
  | O => cand
  | S f =>
      if bool_decide (cand ∈ seen)
      then probe seen synth f (i + 1) (synth ++ "-" ++ pretty (i + 1))
      else cand
  end.

Definition unique_url (seen : gset string) (synth : string) : string :=
  probe seen synth (S (size seen)) 1 synth.

(** [f"#unit-{_slug(title)}-{price}"] for a listing. *)
Definition unit_fragment (r : listing) : string :=
  "#unit-" ++ _slug (Some (strip (title r))) ++ "-" ++ pretty (price r).

(** The body of the loop over the rows of one group. *)
Definition stabilize_row (url : string) (st : gset string * heap) (l : nat)
  : gset string * heap :=
  let '(seen, h) := st in
  match h !! l with
  | None => st
  | Some r =>
      let synth := url ++ unit_fragment r in
      let unique := unique_url seen synth in
      ({[unique]} ∪ seen, <[l := set_url unique r]> h)
  end.

(** The body of the loop over [by_url.items()]. *)
Definition stabilize_group (h : heap) (g : string * list nat) : heap :=
  let '(url, rows) := g in
  if (length rows =? 1)%nat then h
  else snd (foldl (stabilize_row url) (∅, h) rows).

(** [_stabilize_unit_urls(listings)]: the heap after the call (the list
    returned is [listings] itself). *)
Definition _stabilize_unit_urls (h : heap) (listings : list nat) : heap :=
  foldl stabilize_group h (group_by_url h listings).

(** *** The listings table

    The table is a map from [url], its [UNIQUE] column, to the other columns
    the pipeline writes.  The surrogate key [id] is assigned by the store and
    is not read by the pipeline. *)
Record row : Type := Row {
  row_company : string;
  row_title : string;
  row_price : Z;
  row_beds : Z;
  row_baths : Q;
  row_address : string;
  row_last_scraped_at : string
}.

(** The tuple [insert_listings] builds for a listing, without its url. *)
Definition row_of (l : listing) : row :=
  {| row_company := company l;
     row_title := title l;
     row_price := price l;
     row_beds := default 0 (beds l);
     row_baths :=
       match baths l with
       | Some q => if Qeq_bool q 0 then 0%Q else q
       | None => 0%Q
       end;
     row_address := address l;
     row_last_scraped_at := last_scraped_at l |}.

(** [INSERT ... ON CONFLICT(url) DO UPDATE SET ...] for one tuple. *)
Definition upsert (t : gmap string row) (l : listing) : gmap string row :=
  let new := row_of l in
  match t !! url l with
  | None => <[url l := new]> t
  | Some old =>
      <[url l := {| row_company := row_company new;
                    row_title := row_title new;
                    row_price := row_price new;
                    row_beds := row_beds new;
                    row_baths := row_baths new;
                    row_address := row_address new;
                    row_last_scraped_at := row_last_scraped_at new |}]> t
  end.

(** The test [l.get("price") not in (None, 0)] on a reference. *)
Definition priced (h : heap) (l : nat) : bool :=
  match h !! l with
  | Some r => negb (price r =? 0)
  | None => false
  end.

(** An int that [sqlite3] can bind: a signed 64-bit integer.  For any
    other int the binding raises [OverflowError]. *)
Definition fits_int64 (v : Z) : bool := (- 2 ^ 63 <=? v) && (v <? 2 ^ 63).

(** The tuple of a listing binds: [int(l["price"])] and
    [int(l.get("beds") or 0)] are its two int parameters. *)
Definition binds (l : listing) : bool :=
  fits_int64 (price l) && fits_int64 (default 0 (beds l)).

(** [insert_listings(listings)]: the heap and the table after the call, and
    the count returned or the exception raised.  [executemany] runs in one
    transaction inside the [with] block of the connection: when a tuple
    does not bind, the exception leaves the block, the transaction is rolled
    back and the table is as before the call; the urls are rewritten by
    then. *)
Definition insert_listings (h : heap) (t : gmap string row)
    (listings : list nat) : heap * gmap string row * outcome nat :=
  let valid := filter (fun l => priced h l) listings in
  match valid with
  | [] => (h, t, Returned O)
  | _ :: _ =>
      let h' := _stabilize_unit_urls h valid in
      let tuples := omap (fun l => h' !! l) valid in
      if forallb binds tuples
      then (h', foldl upsert t tuples, Returned (length valid))
      else (h', t, Raised OverflowError)
  end.

(** ** Predicates of the statements *)

(** Every character of the class is [rep], and no two of them are adjacent;
    [prev] tells that the character before the string is in the class. *)
Fixpoint collapsed (cls : ascii -> bool) (rep : ascii) (prev : bool)
    (s : string) : bool :=
  match s with
  | EmptyString => true
  | String c r =>
      if cls c then Ascii.eqb c rep && negb prev && collapsed cls rep true r
      else collapsed cls rep false r
  end.

(** No repeated whitespace, and no whitespace other than the plain space. *)
Definition single_spaced (s : string) : bool := collapsed is_space space false s.

Definition no_nbsp (s : string) : bool :=
  negb (sexists (fun c => Ascii.eqb c nbsp) s).

Definition first_char (s : string) : option ascii :=
  match s with
  | EmptyString => None
  | String c _ => Some c
  end.

Fixpoint last_char (s : string) : option ascii :=
  match s with
  | EmptyString => None
  | String c r => if is_empty r then Some c else last_char r
  end.

Definition not_in_class (p : ascii -> bool) (o : option ascii) : bool :=
  match o with
  | Some c => negb (p c)
  | None => true
  end.

(** Neither the first nor the last character is in the class. *)
Definition trimmed_of (p : ascii -> bool) (s : string) : bool :=
  not_in_class p (first_char s) && not_in_class p (last_char s).

Definition trimmed (s : string) : bool := trimmed_of is_space s.

(** A whole amount as listing pages write it: digits and thousands
    separators, with a digit among them; and the integer it denotes. *)
Definition is_int_amount (X : string) : bool :=
  sforall is_amount_char X && sexists is_digit X.

Definition amount_value (X : string) : Z := digits_to_Z (sfilter is_digit X).

(** A match of [\d[\d,]*]: a digit, then digits and commas. *)
Definition is_amount (X : string) : bool :=
  match X with
  | String d r => is_digit d && sforall is_amount_char r
  | EmptyString => false
  end.

(** The references of a list whose listing has a given url: the group of
    that url. *)
Definition has_url (h : heap) (u : string) (l : nat) : Prop :=
  url <$> h !! l = Some u.

#[global] Instance has_url_dec h u l : Decision (has_url h u l).
Proof. unfold has_url. apply _. Defined.

Definition rows_of (h : heap) (listings : list nat) (u : string) : list nat :=
  filter (has_url h u) listings.

(** What the collision loop appends to a synthesized url: nothing, or a
    hyphen and a counter from 2 on. *)
Definition unit_suffix (sfx : string) : Prop :=
  sfx = "" \/ exists i : Z, 2 <= i /\ sfx = "-" ++ pretty i.

(** The rows of a group found by key in the grouping. *)
Fixpoint assoc_rows (k : string) (d : list (string * list nat))
  : option (list nat) :=
  match d with
  | [] => None
  | (k', rows) :: d' => if String.eqb k k' then Some rows else assoc_rows k d'
  end.

(** The url the collision loop tries at the counter [i]: the synthesized
    url itself at 1, and the url followed by a hyphen and [i] from 2 on. *)
Definition candidate (synth : string) (i : Z) : string :=
  if i =? 1 then synth else synth ++ "-" ++ pretty i.

(** [x] is, after the call, the url of a listing that stands before
    position [k] in its group. *)
Definition taken_before (h' : heap) (rows : list nat) (k : nat) (x : string)
  : Prop :=
  exists j l r,
    (j < k)%nat /\ rows !! j = Some l /\ h' !! l = Some r /\ url r = x.

(** What the loop over one group establishes between the heap before it and
    a later heap. *)
Definition group_post (g : string * list nat) (h h' : heap) : Prop :=
  let '(u, rows) := g in
  if (length rows =? 1)%nat
  then forall l, l ∈ rows -> h' !! l = h !! l
  else
    (forall l r, l ∈ rows -> h !! l = Some r ->
       exists sfx, unit_suffix sfx
         /\ h' !! l = Some (set_url (u ++ unit_fragment r ++ sfx) r))
    /\ (forall l1 l2 r1 r2, l1 ∈ rows -> l2 ∈ rows -> l1 <> l2 ->
          h' !! l1 = Some r1 -> h' !! l2 = Some r2 -> url r1 <> url r2)
    /\ (forall k l r, rows !! k = Some l -> h !! l = Some r ->
          exists i : Z, 1 <= i
            /\ h' !! l = Some (set_url (candidate (u ++ unit_fragment r) i) r)
            /\ (forall j : Z, 1 <= j < i ->
                  taken_before h' rows k (candidate (u ++ unit_fragment r) j))
            /\ ~ taken_before h' rows k (candidate (u ++ unit_fragment r) i)).

(** No reference belongs to two groups. *)
Fixpoint disjoint_rows (d : list (string * list nat)) : Prop :=
  match d with
  | [] => True
  | g :: d' =>
      (forall g' l, g' ∈ d' -> l ∈ g.2 -> l ∉ g'.2) /\ disjoint_rows d'
  end.

(** A batch handed to [insert_listings]: distinct dicts, all allocated, and
    no two priced listings of it on one url (so that no url is rewritten). *)
Definition distinct_urls (h : heap) (listings : list nat) : Prop :=
  forall l1 l2 r1 r2,
    l1 ∈ listings -> l2 ∈ listings ->
    h !! l1 = Some r1 -> h !! l2 = Some r2 ->
    price r1 <> 0 -> price r2 <> 0 ->
    url r1 = url r2 -> l1 = l2.

Definition batch_ok (h : heap) (listings : list nat) : Prop :=
  NoDup listings
  /\ (forall l, l ∈ listings -> is_Some (h !! l))
  /\ distinct_urls h listings.

(** Two heaps hold the same listings up to their urls. *)
Definition only_urls (h h' : heap) : Prop :=
  length h' = length h
  /\ forall l, set_url "" <$> h' !! l = set_url "" <$> h !! l.

(** The priced listings of a batch, in the order of the batch, as a heap
    holds them. *)
Definition submitted (h : heap) (listings : list nat) : list listing :=
  omap (fun l => h !! l) (filter (fun l => priced h l) listings).

(** A row of the table holds the fields of a listing: every column other
    than the key has the listing's value, a missing count being stored
    as 0. *)
Definition row_holds (rw : row) (r : listing) : Prop :=
  row_company rw = company r
  /\ row_title rw = title r
  /\ row_price rw = price r
  /\ row_beds rw = default 0 (beds r)
  /\ (row_baths rw == default 0%Q (baths r))%Q
  /\ row_address rw = address r
  /\ row_last_scraped_at rw = last_scraped_at r.

(** The candidates the collision loop tries for [synth]: [synth] itself
    when the counter is 1, then [synth-2], [synth-3], ... *)
Definition is_candidate (synth : string) (i : Z) (cand : string) : Prop :=
  (i = 1 /\ cand = synth) \/ (2 <= i /\ cand = synth ++ "-" ++ pretty i).

(** A group as the grouping holds it: absent when it has no row. *)
Definition nonempty_rows (rows : list nat) : option (list nat) :=
  match rows with
  | [] => None
  | _ :: _ => Some rows
  end.

(** The characters of [str(n)] for an int [n]: digits and the minus sign. *)
Definition is_sign_or_digit (c : ascii) : bool :=
  is_digit c || Ascii.eqb c hyphen.

(** A match of [\d+(?:\.\d+)?]: digits, or digits, a dot and digits. *)
Definition is_number (m : string) : Prop :=
  exists i f : string,
    sforall is_digit i = true /\ is_empty i = false
    /\ sforall is_digit f = true
    /\ (m = i \/ (is_empty f = false /\ m = i ++ String dot f)).

(** Occurrences of a character. *)
Fixpoint count_char (c : ascii) (s : string) : nat :=
  match s with
  | EmptyString => O
  | String b r => ((if Ascii.eqb b c then 1 else 0) + count_char c r)%nat
  end.

(** The characters of a slug: [a-z0-9] and the hyphen. *)
Definition is_slug_char (c : ascii) : bool :=
  negb (not_slug_char c) || Ascii.eqb c hyphen.

(** ** Inputs of the examples *)

(** Two units found on one page. *)
Definition plans_heap : heap :=
  [ Listing "https://x.com/plans" "Test Co" "A1" 1200 (Some 1) (Some 1%Q)
      "1 Main St" "11-03-2026";
    Listing "https://x.com/plans" "Test Co" "B2" 1300 (Some 2) (Some 1%Q)
      "1 Main St" "11-03-2026" ].

(** One unit handed over twice, as two equal dicts. *)
Definition twice_heap : heap :=
  [ Listing "https://x.com/plans" "Test Co" "A1" 1200 (Some 1) (Some 1%Q)
      "1 Main St" "11-03-2026";
    Listing "https://x.com/plans" "Test Co" "A1" 1200 (Some 1) (Some 1%Q)
      "1 Main St" "11-03-2026" ].

(** A unit stored earlier under its unit url, then the page scraped again:
    the unit "A1" comes back with other values, next to a second unit. *)
Definition rescrape_heap : heap :=
  [ Listing "https://x.com/plans#unit-a1-1200" "Test Co" "A1 (old)" 1100
      (Some 1) (Some 1%Q) "1 Main St" "11-02-2026";
    Listing "https://x.com/plans" "Test Co LLC" "A1" 1200 (Some 2)
      (Some (3 # 2)%Q) "1 Main Street" "11-03-2026";
    Listing "https://x.com/plans" "Test Co LLC" "B2" 1300 None None
      "1 Main Street" "11-03-2026" ].

(** A listing whose bed count is too large for the store. *)
Definition overflow_heap : heap :=
  [ Listing "https://x.com/plans" "Test Co" "A1" 1200
      (Some 9223372036854775808) (Some 1%Q) "1 Main St" "11-03-2026" ].

(** Two units whose titles end with a parenthesis. *)
Definition furnished_heap : heap :=
  [ Listing "https://x.com/plans" "Test Co" "Studio (Furnished)" 950 (Some 0)
      (Some 1%Q) "1 Main St" "11-03-2026";
    Listing "https://x.com/plans" "Test Co" "1 Bed (Furnished)" 1200 (Some 1)
      (Some 1%Q) "1 Main St" "11-03-2026" ].

(** * Properties *)

(** ** Strings *)

Lemma append_empty_r (s : string) : s ++ "" = s.
Proof. induction s as [|c s IH]; simpl; [done | by rewrite IH]. Qed.

Lemma append_assoc (a b c : string) : (a ++ b) ++ c = a ++ (b ++ c).
Proof. induction a as [|x a IH]; simpl; [done | by rewrite IH]. Qed.

Lemma length_append (a b : string) :
  String.length (a ++ b) = (String.length a + String.length b)%nat.
Proof. induction a as [|x a IH]; simpl; [done | by rewrite IH]. Qed.

Lemma is_empty_true (s : string) : is_empty s = true -> s = "".
Proof. by destruct s. Qed.

Lemma span_while_app (p : ascii -> bool) (a b : string) :
  sforall p a = true ->
  not_in_class (fun c => p c) (first_char b) = true ->
  span_while p (a ++ b) = (a, b).
Proof.
  intros Ha Hb. induction a as [|c a IH]; simpl in *.
  - destruct b as [|d b]; simpl in *; [done|].
    by destruct (p d).
  - apply andb_true_iff in Ha as [Hc Ha]. rewrite Hc, (IH Ha). done.
Qed.

Lemma sforall_impl (p q : ascii -> bool) (s : string) :
  (forall c, p c = true -> q c = true) ->
  sforall p s = true -> sforall q s = true.
Proof.
  intros Hpq. induction s as [|c s IH]; simpl; [done |].
  intros [Hc Hs]%andb_true_iff. by rewrite (Hpq c Hc), IH.
Qed.

Lemma span_while_spec (p : ascii -> bool) (s : string) :
  sforall p (span_while p s).1 = true
  /\ s = (span_while p s).1 ++ (span_while p s).2
  /\ not_in_class p (first_char (span_while p s).2) = true.
Proof.
  induction s as [|c s IH]; simpl; [done |].
  destruct (p c) eqn:Hc; [| simpl; by rewrite Hc].
  destruct (span_while p s) as [a b]. simpl in *.
  destruct IH as (H1 & H2 & H3). rewrite Hc, H1. by rewrite <- H2.
Qed.

Lemma span_while_all (p : ascii -> bool) (a : string) :
  sforall p a = true -> span_while p a = (a, "").
Proof.
  intros Ha. rewrite <- (append_empty_r a) at 1.
  by apply span_while_app.
Qed.

Lemma span_while_none (p : ascii -> bool) (s : string) :
  not_in_class p (first_char s) = true -> span_while p s = ("", s).
Proof. intros H. by apply (span_while_app p "" s). Qed.

(** ** normalize_address *)

Section Collapsed.

Variables (cls : ascii -> bool) (rep : ascii).
Hypothesis cls_rep : cls rep = true.

Lemma collapsed_weaken (b : bool) (s : string) :
  collapsed cls rep b s = true -> collapsed cls rep false s = true.
Proof.
  destruct s as [|c s]; simpl; [done|].
  destruct (cls c); [|done].
  destruct b; simpl; [|done].
  rewrite andb_false_r. done.
Qed.

Lemma sub_runs_collapsed (b : bool) (s : string) :
  collapsed cls rep b (sub_runs cls rep b s) = true.
Proof.
  revert b. induction s as [|c s IH]; intros b; simpl; [done|].
  destruct (cls c) eqn:Hc.
  - destruct b; [apply IH|].
    simpl. rewrite cls_rep, Ascii.eqb_refl. simpl. apply IH.
  - simpl. rewrite Hc. apply IH.
Qed.

Lemma collapsed_sub_runs_id (b : bool) (s : string) :
  collapsed cls rep b s = true -> sub_runs cls rep b s = s.
Proof.
  revert b. induction s as [|c s IH]; intros b; simpl; [done|].
  destruct (cls c) eqn:Hc.
  - intros H. apply andb_true_iff in H as [H Hs].
    apply andb_true_iff in H as [Heq Hb].
    apply Ascii.eqb_eq in Heq as ->.
    destruct b; [done|]. by rewrite (IH _ Hs).
  - intros Hs. by rewrite (IH _ Hs).
Qed.

Lemma collapsed_drop_while (b : bool) (s : string) :
  collapsed cls rep b s = true ->
  collapsed cls rep false (drop_while cls s) = true.
Proof.
  revert b. induction s as [|c s IH]; intros b; [done|].
  unfold drop_while. simpl. destruct (cls c) eqn:Hc.
  - intros H. apply andb_true_iff in H as [_ Hs].
    destruct (span_while cls s) as [a r] eqn:Hsp. simpl.
    specialize (IH _ Hs). unfold drop_while in IH. by rewrite Hsp in IH.
  - intros Hs. simpl. by rewrite Hc.
Qed.

Lemma collapsed_rstrip (b : bool) (s : string) :
  collapsed cls rep b s = true ->
  collapsed cls rep b (rstrip_of cls s) = true.
Proof.
  revert b. induction s as [|c s IH]; intros b; simpl; [done|].
  destruct (cls c) eqn:Hc; simpl.
  - intros H. apply andb_true_iff in H as [H Hs].
    destruct (is_empty (rstrip_of cls s)) eqn:He; [done|].
    simpl. rewrite Hc, H. simpl. by apply IH.
  - intros Hs. rewrite Hc. by apply IH.
Qed.

End Collapsed.

Section Strip.

Variable p : ascii -> bool.

Lemma rstrip_idem (s : string) :
  rstrip_of p (rstrip_of p s) = rstrip_of p s.
Proof.
  induction s as [|c s IH]; simpl; [done|].
  destruct (p c && is_empty (rstrip_of p s)) eqn:E; [done|].
  simpl. by rewrite IH, E.
Qed.

Lemma first_char_drop_while (s : string) :
  not_in_class p (first_char (drop_while p s)) = true.
Proof.
  unfold drop_while. induction s as [|c s IH]; simpl; [done|].
  destruct (p c) eqn:Hc.
  - by destruct (span_while p s).
  - simpl. by rewrite Hc.
Qed.

Lemma first_char_rstrip (s : string) :
  not_in_class p (first_char s) = true ->
  not_in_class p (first_char (rstrip_of p s)) = true.
Proof.
  destruct s as [|c s]; simpl; [done|].
  intros Hc. apply negb_true_iff in Hc. by rewrite Hc; simpl; rewrite Hc.
Qed.

Lemma last_char_rstrip (s : string) :
  not_in_class p (last_char (rstrip_of p s)) = true.
Proof.
  induction s as [|c s IH]; simpl; [done|].
  destruct (p c && is_empty (rstrip_of p s)) eqn:E; [done|].
  simpl. destruct (is_empty (rstrip_of p s)) eqn:He; [|done].
  rewrite andb_true_r in E. simpl. by rewrite E.
Qed.

Lemma lstrip_fixed (s : string) :
  not_in_class p (first_char s) = true -> lstrip_of p s = s.
Proof.
  intros H. unfold lstrip_of, drop_while. by rewrite span_while_none.
Qed.

Lemma strip_of_trimmed (s : string) : trimmed_of p (strip_of p s) = true.
Proof.
  unfold trimmed_of, strip_of. apply andb_true_iff. split.
  - apply first_char_rstrip, first_char_drop_while.
  - apply last_char_rstrip.
Qed.

Lemma strip_of_idem (s : string) :
  strip_of p (strip_of p s) = strip_of p s.
Proof.
  unfold strip_of at 1. rewrite lstrip_fixed.
  - apply rstrip_idem.
  - apply first_char_rstrip, first_char_drop_while.
Qed.

End Strip.

Lemma single_spaced_no_nbsp (b : bool) (s : string) :
  collapsed is_space space b s = true -> replace_char nbsp space s = s.
Proof.
  unfold replace_char.
  revert b. induction s as [|c s IH]; intros b; simpl; [done|].
  destruct (is_space c) eqn:Hc.
  - intros H. apply andb_true_iff in H as [H Hs].
    apply andb_true_iff in H as [Heq _].
    apply Ascii.eqb_eq in Heq as ->.
    rewrite (IH _ Hs). done.
  - intros Hs. destruct (Ascii.eqb c nbsp) eqn:E.
    + apply Ascii.eqb_eq in E as ->. done.
    + by rewrite (IH _ Hs).
Qed.

Lemma no_nbsp_of_fixed (s : string) :
  replace_char nbsp space s = s -> no_nbsp s = true.
Proof.
  unfold no_nbsp, replace_char.
  induction s as [|c s IH]; [done|].
  change (String (if Ascii.eqb c nbsp then space else c)
            (smap (fun c => if Ascii.eqb c nbsp then space else c) s)
          = String c s ->
          negb (Ascii.eqb c nbsp
                || sexists (fun c => Ascii.eqb c nbsp) s) = true).
  intros H. injection H as Hc Hs.
  destruct (Ascii.eqb c nbsp) eqn:E.
  - subst c. discriminate.
  - by apply IH.
Qed.

(** What [normalize_address] computes on a non-empty string, before
    stripping, is single-spaced. *)
Lemma normalize_address_shape (o : option string) :
  single_spaced (normalize_address o) = true
  /\ trimmed (normalize_address o) = true.
Proof.
  destruct o as [a|]; [|done]. simpl.
  destruct (is_empty a); [done|].
  split.
  - unfold single_spaced, strip, strip_of.
    apply (collapsed_rstrip is_space space false).
    apply (collapsed_drop_while is_space space false).
    by apply sub_runs_collapsed.
  - apply strip_of_trimmed.
Qed.

Lemma normalize_address_fixed (s : string) :
  single_spaced s = true -> strip s = s -> normalize_address (Some s) = s.
Proof.
  intros Hs Ht. simpl. destruct (is_empty s) eqn:He.
  - by apply is_empty_true in He as ->.
  - rewrite (single_spaced_no_nbsp false s Hs).
    rewrite (collapsed_sub_runs_id is_space space false s Hs). done.
Qed.

(** C10. [normalize_address] is idempotent, and each of its outputs is a
    fixed point: it holds no non-breaking space, no repeated whitespace and
    no whitespace other than single plain spaces, it neither starts nor ends
    with whitespace, and it is the empty string for [None] and for the empty
    string. *)
Theorem normalize_address_idempotent (o : option string) :
  normalize_address (Some (normalize_address o)) = normalize_address o
  /\ no_nbsp (normalize_address o) = true
  /\ single_spaced (normalize_address o) = true
  /\ trimmed (normalize_address o) = true
  /\ normalize_address None = ""
  /\ normalize_address (Some "") = "".
Proof.
  destruct (normalize_address_shape o) as [Hs Ht].
  assert (Hfix : normalize_address (Some (normalize_address o))
                 = normalize_address o).
  { apply normalize_address_fixed; [done|].
    destruct o as [a|]; [|done]. simpl.
    destruct (is_empty a); [done|]. apply strip_of_idem. }
  repeat split; try done.
  apply no_nbsp_of_fixed. by apply (single_spaced_no_nbsp false).
Qed.

(** ** normalize_price *)

Lemma py_round_comp (x y : Q) : (x == y)%Q -> py_round x = py_round y.
Proof.
  intros H. unfold py_round.
  rewrite (Qfloor_comp x y H).
  assert (Hc : ((x - inject_Z (Qfloor y))%Q ?= 1 # 2)%Q
               = ((y - inject_Z (Qfloor y))%Q ?= 1 # 2)%Q).
  { apply Qcompare_comp; [|reflexivity]. by rewrite H. }
  by rewrite Hc.
Qed.

Lemma py_round_half (s : Z) :
  py_round (inject_Z s / 2)%Q
  = if Z.even s then s / 2 else if Z.even (s / 2) then s / 2 else s / 2 + 1.
Proof.
  rewrite (py_round_comp _ (s # 2)).
  2:{ unfold Qeq, Qdiv, Qmult, Qinv, inject_Z. simpl. lia. }
  unfold py_round. 
  change (Qfloor (s # 2)) with (s / 2).
  unfold Qcompare, Qminus, Qplus, Qopp, inject_Z. simpl.
  pose proof (Z.div_mod s 2 ltac:(lia)) as Hdm.
  pose proof (Z.mod_pos_bound s 2 ltac:(lia)) as Hb.
  rewrite Zeven_mod, Zeven_mod.
  match goal with |- context [ (?a ?= ?b) ] =>
    destruct (Z.compare_spec a b) as [Hc|Hc|Hc] end;
  destruct (Z.eqb_spec (s mod 2) 0) as [E|E]; try lia; done.
Qed.

(** ** Scans *)

Lemma sfilter_app (p : ascii -> bool) (a b : string) :
  sfilter p (a ++ b) = sfilter p a ++ sfilter p b.
Proof.
  induction a as [|c a IH]; simpl; [done|].
  destruct (p c); simpl; by rewrite IH.
Qed.

Section Finditer.

Variable match_at : string -> option string.

Lemma finditer_from_skip (a b : string) :
  finditer_from match_at (String.length a) (a ++ b)
  = finditer_from match_at O b.
Proof. induction a as [|c a IH]; simpl; [done | apply IH]. Qed.

Lemma finditer_match (x r : string) :
  match_at (x ++ r) = Some x -> is_empty x = false ->
  finditer match_at (x ++ r) = x :: finditer match_at r.
Proof.
  intros Hm Hx. destruct x as [|c x]; [done|].
  unfold finditer. simpl in *. rewrite Hm. simpl.
  by rewrite Nat.sub_0_r, finditer_from_skip.
Qed.

Lemma finditer_no_match (c : ascii) (r : string) :
  match_at (String c r) = None ->
  finditer match_at (String c r) = finditer match_at r.
Proof. intros Hm. unfold finditer. simpl. by rewrite Hm. Qed.

End Finditer.

Lemma number_at_not_digit (c : ascii) (r : string) :
  is_digit c = false -> number_at (String c r) = None.
Proof. intros Hc. unfold number_at. simpl. by rewrite Hc. Qed.

Lemma number_at_digits (d r : string) :
  sforall is_digit d = true -> is_empty d = false ->
  not_in_class (fun c => is_digit c || Ascii.eqb c dot) (first_char r) = true ->
  number_at (d ++ r) = Some d.
Proof.
  intros Hd Hne Hr. unfold number_at.
  rewrite (span_while_app is_digit d r Hd).
  2:{ destruct r as [|c r]; [done|]. simpl in *.
      apply negb_true_iff, orb_false_iff in Hr as [-> _]. done. }
  rewrite Hne. destruct r as [|c r]; [done|]. simpl in Hr.
  apply negb_true_iff, orb_false_iff in Hr as [_ ->].
  by destruct (span_while is_digit r).
Qed.

Lemma finditer_number_no_digit (s : string) (k : nat) :
  sexists is_digit s = false -> finditer_from number_at k s = [].
Proof.
  revert k. induction s as [|c s IH]; intros k; simpl; [done|].
  intros H. apply orb_false_iff in H as [Hc Hs].
  destruct k; [|by apply IH].
  rewrite (number_at_not_digit c s Hc). by apply IH.
Qed.

Lemma sexists_sfilter (p q : ascii -> bool) (s : string) :
  sexists p s = false -> sexists p (sfilter q s) = false.
Proof.
  induction s as [|c s IH]; simpl; [done|].
  intros H. apply orb_false_iff in H as [Hc Hs].
  destruct (q c); simpl; [rewrite Hc|]; by apply IH.
Qed.

Lemma digit_not_comma (c : ascii) :
  is_digit c = true -> Ascii.eqb c comma = false.
Proof.
  intros H. destruct (Ascii.eqb_spec c comma) as [->|]; [|done].
  by vm_compute in H.
Qed.

Lemma amount_digits (X : string) :
  sforall is_amount_char X = true ->
  remove_char comma X = sfilter is_digit X
  /\ sforall is_digit (sfilter is_digit X) = true.
Proof.
  unfold remove_char. induction X as [|c X IH]; simpl; [done|].
  intros H. apply andb_true_iff in H as [Hc HX].
  destruct (IH HX) as [IH1 IH2].
  unfold is_amount_char in Hc.
  destruct (is_digit c) eqn:Hd.
  - rewrite (digit_not_comma c Hd). simpl. rewrite Hd, IH1. done.
  - simpl in Hc. rewrite Hc. simpl. done.
Qed.

Lemma amount_has_digit (X : string) :
  sexists is_digit X = true -> is_empty (sfilter is_digit X) = false.
Proof.
  induction X as [|c X IH]; simpl; [done|].
  destruct (is_digit c); [done|]. simpl. apply IH.
Qed.

Lemma float_of_literal_digits (d : string) :
  sforall is_digit d = true ->
  float_of_literal d = inject_Z (digits_to_Z d).
Proof. intros Hd. unfold float_of_literal. by rewrite span_while_all. Qed.

(** The numbers [normalize_price] finds in a range of two whole amounts. *)
Lemma finditer_number_range (x y : string) :
  sforall is_digit x = true -> is_empty x = false ->
  sforall is_digit y = true -> is_empty y = false ->
  finditer number_at ("$" ++ x ++ " - $" ++ y) = [x; y].
Proof.
  intros Hx Hxe Hy Hye.
  change ("$" ++ x ++ " - $" ++ y) with (String dollar (x ++ " - $" ++ y)).
  rewrite finditer_no_match by (by apply number_at_not_digit).
  rewrite finditer_match; [|by apply number_at_digits|done].
  f_equal.
  change (" - $" ++ y)
    with (String space (String hyphen (String space (String dollar y)))).
  do 4 (rewrite finditer_no_match by (by apply number_at_not_digit)).
  rewrite <- (append_empty_r y) at 1.
  rewrite finditer_match; [done| |done].
  by apply number_at_digits.
Qed.

Lemma normalize_price_range (X Y : string) :
  is_int_amount X = true -> is_int_amount Y = true ->
  normalize_price (Some ("$" ++ X ++ " - $" ++ Y))
  = Some (py_round (inject_Z (amount_value X + amount_value Y) / 2)).
Proof.
  intros HX HY.
  apply andb_true_iff in HX as [HX1 HX2].
  apply andb_true_iff in HY as [HY1 HY2].
  destruct (amount_digits X HX1) as [EX DX].
  destruct (amount_digits Y HY1) as [EY DY].
  unfold normalize_price.
  change (is_empty ("$" ++ X ++ " - $" ++ Y)) with false. cbv iota.
  assert (Hrm : remove_char comma ("$" ++ X ++ " - $" ++ Y)
                = "$" ++ sfilter is_digit X ++ " - $" ++ sfilter is_digit Y).
  { unfold remove_char in *. rewrite !sfilter_app, EX, EY. done. }
  rewrite Hrm.
  rewrite finditer_number_range by auto using amount_has_digit.
  cbv zeta. f_equal. apply py_round_comp.
  simpl map. rewrite !float_of_literal_digits by done.
  unfold amount_value, qsum. simpl.
  unfold Qeq, Qdiv, Qmult, Qinv, Qplus, inject_Z. simpl. lia.
Qed.

Lemma rounded_mean_between (x y : Z) :
  let r := py_round (inject_Z (x + y) / 2) in
  Z.min x y <= r <= Z.max x y /\ Z.abs (2 * r - (x + y)) <= 1.
Proof.
  cbv zeta. rewrite py_round_half.
  pose proof (Z.div_mod (x + y) 2 ltac:(lia)) as Hdm.
  pose proof (Z.mod_pos_bound (x + y) 2 ltac:(lia)) as Hb.
  rewrite Zeven_mod.
  destruct (Z.eqb_spec ((x + y) mod 2) 0) as [E|E];
    [|destruct (Z.even ((x + y) / 2))]; lia.
Qed.

Lemma normalize_price_no_digit (t : string) :
  sexists is_digit t = false -> normalize_price (Some t) = None.
Proof.
  intros H. unfold normalize_price.
  destruct (is_empty t); [done|].
  unfold finditer, remove_char.
  by rewrite finditer_number_no_digit by (by apply sexists_sfilter).
Qed.

(** C4 (as amended). [normalize_price] returns [None] for [None], for the
    empty string and for every text without a digit.  For every text
    ["$X - $Y"] where [X] and [Y] are whole amounts (digits and thousands
    separators) whose sum is at most 2^53, it returns the mean of [X] and
    [Y] rounded to the nearest integer (ties to the even one), which lies
    between [X] and [Y] inclusive. *)
Theorem normalize_price_contract :
  normalize_price None = None
  /\ normalize_price (Some "") = None
  /\ (forall t : string,
        sexists is_digit t = false -> normalize_price (Some t) = None)
  /\ (forall X Y : string,
        is_int_amount X = true -> is_int_amount Y = true ->
        amount_value X + amount_value Y <= 2 ^ 53 ->
        exists r : Z,
          normalize_price (Some ("$" ++ X ++ " - $" ++ Y)) = Some r
          /\ r = py_round (inject_Z (amount_value X + amount_value Y) / 2)
          /\ Z.min (amount_value X) (amount_value Y) <= r
             <= Z.max (amount_value X) (amount_value Y)
          /\ Z.abs (2 * r - (amount_value X + amount_value Y)) <= 1).
Proof.
  split; [done|]. split; [done|].
  split; [apply normalize_price_no_digit|].
  intros X Y HX HY _. eexists. split; [by apply normalize_price_range|].
  split; [done|]. apply rounded_mean_between.
Qed.

Lemma normalize_price_contract_witness :
  is_int_amount "1,499" = true
  /\ is_int_amount "1,549" = true
  /\ amount_value "1,499" + amount_value "1,549" <= 2 ^ 53
  /\ exists r : Z,
       normalize_price (Some "$1,499 - $1,549") = Some r
       /\ 1499 <= r <= 1549.
Proof.
  assert (H1 : is_int_amount "1,499" = true) by reflexivity.
  assert (H2 : is_int_amount "1,549" = true) by reflexivity.
  assert (H3 : amount_value "1,499" + amount_value "1,549" <= 2 ^ 53)
    by (vm_compute; discriminate).
  split; [exact H1|]. split; [exact H2|]. split; [exact H3|].
  destruct (proj2 (proj2 (proj2 normalize_price_contract))
              "1,499" "1,549" H1 H2 H3) as (r & Hr & _ & Hb & _).
  exists r. split; [exact Hr|exact Hb].
Defined.

(** The claim as stated fails on amounts with decimals, which the number
    pattern of [normalize_price] accepts: the range from 1.5 to 1.5 gives 2. *)
Lemma normalize_price_decimal_range :
  normalize_price (Some "$1.5 - $1.5") = Some 2
  /\ (float_of_literal "1.5" == 3 # 2)%Q
  /\ ~ (inject_Z 2 <= float_of_literal "1.5")%Q.
Proof. split; [by vm_compute|]. split; by vm_compute. Qed.

Example normalize_price_range_1524 :
  normalize_price (Some "$1,499 - $1,549") = Some 1524.
Proof. by vm_compute. Qed.

Lemma finditer_from_elem (f : string -> option string) (k : nat)
    (s m : string) :
  m ∈ finditer_from f k s -> exists s', f s' = Some m.
Proof.
  revert k. induction s as [|c s IH]; intros k; simpl.
  - by intros ?%elem_of_nil.
  - destruct k as [|k]; [| apply IH].
    destruct (f (String c s)) as [x|] eqn:Hx; [| apply IH].
    intros [-> | Hm]%elem_of_cons; [eauto | by eapply IH].
Qed.

(** ** The price scanner *)

Lemma digit_not_space (c : ascii) : is_digit c = true -> is_space c = false.
Proof.
  unfold is_digit, is_space. intros H.
  apply andb_true_iff in H as [H1 H2].
  apply N.leb_le in H1, H2.
  repeat match goal with
  | |- context [ (?a <=? ?b)%N ] => destruct (N.leb_spec a b)
  | |- context [ (?a =? ?b)%N ] => destruct (N.eqb_spec a b)
  end; simpl; try done; lia.
Qed.

Lemma amount_char_not_hyphen (c : ascii) :
  is_amount_char c = true -> Ascii.eqb c hyphen = false.
Proof.
  intros H. destruct (Ascii.eqb_spec c hyphen) as [->|]; [|done].
  by vm_compute in H.
Qed.

Lemma is_amount_inv (X : string) :
  is_amount X = true ->
  exists d r, X = String d r /\ is_digit d = true
              /\ sforall is_amount_char r = true.
Proof.
  destruct X as [|d r]; [done|]. simpl. intros H.
  apply andb_true_iff in H as [Hd Hr]. eauto.
Qed.

Lemma amount_at_app (X rest : string) :
  is_amount X = true ->
  not_in_class is_amount_char (first_char rest) = true ->
  amount_at (X ++ rest) = (X, rest).
Proof.
  intros HX Hr. apply is_amount_inv in HX as (d & r & -> & Hd & Hr').
  simpl. rewrite Hd. by rewrite span_while_app.
Qed.

Lemma span_space_amount (X rest : string) :
  is_amount X = true -> span_while is_space (X ++ rest) = ("", X ++ rest).
Proof.
  intros HX. apply is_amount_inv in HX as (d & r & -> & Hd & _).
  simpl. by rewrite digit_not_space.
Qed.

Lemma sforall_not_hyphen (X : string) :
  sforall is_amount_char X = true ->
  sforall (fun c => negb (Ascii.eqb c hyphen)) X = true.
Proof.
  induction X as [|c X IH]; simpl; [done|].
  intros H. apply andb_true_iff in H as [Hc HX].
  by rewrite (amount_char_not_hyphen c Hc), IH.
Qed.

Lemma is_amount_chars (X : string) :
  is_amount X = true -> sforall is_amount_char X = true.
Proof.
  intros HX. apply is_amount_inv in HX as (d & r & -> & Hd & Hr).
  simpl. unfold is_amount_char at 1. by rewrite Hd, Hr.
Qed.

Lemma is_amount_int_amount (X : string) :
  is_amount X = true -> is_int_amount X = true.
Proof.
  intros HX. unfold is_int_amount. rewrite (is_amount_chars X HX).
  apply is_amount_inv in HX as (d & r & -> & Hd & Hr).
  simpl. by rewrite Hd.
Qed.

Lemma sforall_app (p : ascii -> bool) (a b : string) :
  sforall p (a ++ b) = sforall p a && sforall p b.
Proof.
  induction a as [|c a IH]; simpl; [done|]. by rewrite IH, andb_assoc.
Qed.

Lemma price_of_match_plausible (raw : string) (v : Z) :
  v ∈ price_of_match raw -> 300 <= v <= 6000.
Proof.
  unfold price_of_match.
  destruct (is_empty _); [by intros ?%elem_of_nil|].
  destruct (_is_plausible_rent _) eqn:E; [|by intros ?%elem_of_nil].
  intros ->%list_elem_of_singleton.
  unfold _is_plausible_rent in E. lia.
Qed.

Lemma prices_from_text_plausible (text : option string) (v : Z) :
  v ∈ _prices_from_text text -> 300 <= v <= 6000.
Proof.
  unfold _prices_from_text. rewrite list_elem_of_In, in_flat_map.
  intros (raw & _ & Hv). apply (price_of_match_plausible raw).
  by apply list_elem_of_In.
Qed.

(** *** Every match of the price pattern *)

Lemma space_not_amount_char (c : ascii) :
  is_space c = true -> is_amount_char c = false.
Proof.
  intros Hs. unfold is_amount_char.
  destruct (is_digit c) eqn:Hd; [by rewrite (digit_not_space c Hd) in Hs |].
  destruct (Ascii.eqb_spec c comma) as [-> | _]; [by vm_compute in Hs | done].
Qed.

Lemma space_not_hyphen (c : ascii) :
  is_space c = true -> negb (Ascii.eqb c hyphen) = true.
Proof.
  intros Hs. destruct (Ascii.eqb_spec c hyphen) as [-> | _]; [| done].
  by vm_compute in Hs.
Qed.

Lemma space_not_digit (c : ascii) : is_space c = true -> is_digit c = false.
Proof.
  intros Hs. destruct (is_digit c) eqn:Hd; [| done].
  by rewrite (digit_not_space c Hd) in Hs.
Qed.

Lemma sfilter_none (p q : ascii -> bool) (s : string) :
  (forall c, q c = true -> p c = false) ->
  sforall q s = true -> sfilter p s = "".
Proof.
  intros Hqp. induction s as [|c s IH]; simpl; [done |].
  intros [Hc Hs]%andb_true_iff. by rewrite (Hqp c Hc), IH.
Qed.

Lemma first_char_class (p q : ascii -> bool) (a b : string) :
  (forall c, q c = true -> p c = false) ->
  sforall q a = true ->
  not_in_class p (first_char b) = true ->
  not_in_class p (first_char (a ++ b)) = true.
Proof.
  intros Hqp Ha Hb. destruct a as [|c a]; [done |]. simpl in *.
  apply andb_true_iff in Ha as [Hc _]. by rewrite (Hqp c Hc).
Qed.

Lemma first_char_amount (p : ascii -> bool) (X rest : string) :
  (forall c, is_digit c = true -> p c = false) ->
  is_amount X = true -> not_in_class p (first_char (X ++ rest)) = true.
Proof.
  intros Hp (d & r & -> & Hd & _)%is_amount_inv. simpl. by rewrite (Hp d Hd).
Qed.

Lemma amount_at_spec (s : string) :
  is_empty (amount_at s).1 = true \/ is_amount (amount_at s).1 = true.
Proof.
  destruct s as [|c r]; [by left |]. unfold amount_at.
  destruct (is_digit c) eqn:Hd; [| by left].
  pose proof (span_while_spec is_amount_char r) as (Ha & _).
  destruct (span_while is_amount_char r) as [a b]. right.
  simpl in *. by rewrite Hd, Ha.
Qed.

(** The value a match contributes is read before its hyphen, from the
    digits of its first amount. *)
Lemma price_of_match_low (w1 X w2 post : string) :
  sforall is_space w1 = true -> is_amount X = true ->
  sforall is_space w2 = true ->
  not_in_class (fun c => negb (Ascii.eqb c hyphen)) (first_char post) = true ->
  price_of_match (String dollar (w1 ++ X ++ w2) ++ post)
  = if _is_plausible_rent (amount_value X) then [amount_value X] else [].
Proof.
  intros Hw1 HX Hw2 Hpost. unfold price_of_match, before_hyphen.
  rewrite span_while_app; [| | done].
  2:{ simpl. rewrite !sforall_app.
      rewrite (sforall_impl is_space _ w1 space_not_hyphen Hw1).
      rewrite (sforall_impl is_space _ w2 space_not_hyphen Hw2).
      by rewrite (sforall_not_hyphen X (is_amount_chars X HX)). }
  simpl fst.
  assert (sfilter is_digit (String dollar (w1 ++ X ++ w2))
          = sfilter is_digit X) as ->.
  { simpl. rewrite !sfilter_app.
    rewrite (sfilter_none is_digit is_space w1 space_not_digit Hw1).
    rewrite (sfilter_none is_digit is_space w2 space_not_digit Hw2).
    by rewrite append_empty_r. }
  rewrite amount_has_digit; [done |].
  apply is_amount_int_amount in HX. by apply andb_true_iff in HX as [_ ?].
Qed.

(** A match of the pattern is a dollar sign, blanks and an amount; then,
    in a range, blanks, a hyphen, blanks, a dollar sign, blanks and a second
    amount. *)
Lemma price_rx_shape (s m : string) :
  _PRICE_RX s = Some m ->
  exists w1 X tail : string,
    m = "$" ++ w1 ++ X ++ tail
    /\ sforall is_space w1 = true /\ is_amount X = true
    /\ (tail = ""
        \/ exists w2 w3 w4 Y : string,
             sforall is_space w2 = true /\ sforall is_space w3 = true
             /\ sforall is_space w4 = true /\ is_amount Y = true
             /\ tail = w2 ++ "-" ++ w3 ++ "$" ++ w4 ++ Y).
Proof.
  destruct s as [|c r]; [done |]. cbn [_PRICE_RX].
  destruct (Ascii.eqb_spec c dollar) as [-> | _]; [| done].
  pose proof (span_while_spec is_space r) as (Hw1 & _).
  destruct (span_while is_space r) as [w1 r1]. cbn [fst] in Hw1.
  pose proof (amount_at_spec r1) as Hx.
  destruct (amount_at r1) as [x r2]. cbn [fst] in Hx.
  destruct (is_empty x) eqn:Hex; [done |].
  destruct Hx as [Hx | Hx]; [congruence |].
  assert (Hlow : Some (String dollar (w1 ++ x)) = Some m ->
                 exists w1 X tail : string,
                   m = "$" ++ w1 ++ X ++ tail
                   /\ sforall is_space w1 = true /\ is_amount X = true
                   /\ (tail = ""
                       \/ exists w2 w3 w4 Y : string,
                            sforall is_space w2 = true
                            /\ sforall is_space w3 = true
                            /\ sforall is_space w4 = true
                            /\ is_amount Y = true
                            /\ tail = w2 ++ "-" ++ w3 ++ "$" ++ w4 ++ Y)).
  { intros [= <-]. exists w1, x, "". rewrite append_empty_r.
    split; [done |]. split; [done |]. split; [done | by left]. }
  pose proof (span_while_spec is_space r2) as (Hw2 & _).
  destruct (span_while is_space r2) as [w2 r3]. cbn [fst] in Hw2.
  destruct r3 as [|d r4]; [done |].
  destruct (Ascii.eqb_spec d hyphen) as [-> | _]; [| done].
  pose proof (span_while_spec is_space r4) as (Hw3 & _).
  destruct (span_while is_space r4) as [w3 r5]. cbn [fst] in Hw3.
  destruct r5 as [|e r6]; [done |].
  destruct (Ascii.eqb_spec e dollar) as [-> | _]; [| done].
  pose proof (span_while_spec is_space r6) as (Hw4 & _).
  destruct (span_while is_space r6) as [w4 r7]. cbn [fst] in Hw4.
  pose proof (amount_at_spec r7) as Hy.
  destruct (amount_at r7) as [y r8]. cbn [fst] in Hy.
  destruct (is_empty y) eqn:Hey; [done |].
  destruct Hy as [Hy | Hy]; [congruence |].
  intros [= <-]. exists w1, x, (w2 ++ "-" ++ w3 ++ "$" ++ w4 ++ y).
  split.
  { simpl. f_equal. by rewrite append_assoc. }
  split; [done |]. split; [done |]. right. by exists w2, w3, w4, y.
Qed.

Lemma price_match_value (s m : string) :
  _PRICE_RX s = Some m ->
  exists w1 X tail : string,
    m = "$" ++ w1 ++ X ++ tail
    /\ sforall is_space w1 = true /\ is_amount X = true
    /\ (tail = ""
        \/ exists w2 w3 w4 Y : string,
             sforall is_space w2 = true /\ sforall is_space w3 = true
             /\ sforall is_space w4 = true /\ is_amount Y = true
             /\ tail = w2 ++ "-" ++ w3 ++ "$" ++ w4 ++ Y)
    /\ price_of_match m
       = if _is_plausible_rent (amount_value X) then [amount_value X] else [].
Proof.
  intros (w1 & X & tail & -> & Hw1 & HX & Htail)%price_rx_shape.
  exists w1, X, tail. split; [done |]. split; [done |]. split; [done |].
  split; [done |].
  destruct Htail as [-> | (w2 & w3 & w4 & Y & Hw2 & _ & _ & _ & ->)].
  - pose proof (price_of_match_low w1 X "" "" Hw1 HX eq_refl eq_refl) as H.
    rewrite append_empty_r in H. rewrite append_empty_r in H.
    by rewrite append_empty_r.
  - pose proof (price_of_match_low w1 X w2 ("-" ++ w3 ++ "$" ++ w4 ++ Y)
                  Hw1 HX Hw2 eq_refl) as H.
    simpl in H |- *. by rewrite !append_assoc in H.
Qed.

(** The pattern on a range, whatever the blanks. *)
Lemma price_rx_range_blanks (w1 X w2 w3 w4 Y rest : string) :
  sforall is_space w1 = true -> is_amount X = true ->
  sforall is_space w2 = true -> sforall is_space w3 = true ->
  sforall is_space w4 = true -> is_amount Y = true ->
  not_in_class is_amount_char (first_char rest) = true ->
  _PRICE_RX (("$" ++ w1 ++ X ++ w2 ++ "-" ++ w3 ++ "$" ++ w4 ++ Y) ++ rest)
  = Some ("$" ++ w1 ++ X ++ w2 ++ "-" ++ w3 ++ "$" ++ w4 ++ Y).
Proof.
  intros Hw1 HX Hw2 Hw3 Hw4 HY Hrest.
  assert (is_empty X = false) as HeX
    by (by apply is_amount_inv in HX as (d & r & -> & _)).
  assert (is_empty Y = false) as HeY
    by (by apply is_amount_inv in HY as (d & r & -> & _)).
  rewrite !append_assoc.
  change ("$" ++ w1 ++ X ++ w2 ++ "-" ++ w3 ++ "$" ++ w4 ++ Y ++ rest)
    with (String dollar
            (w1 ++ X ++ w2
               ++ String hyphen (w3 ++ String dollar (w4 ++ Y ++ rest)))).
  cbn [_PRICE_RX]. rewrite Ascii.eqb_refl.
  rewrite (span_while_app is_space w1) by
    (try done; by apply first_char_amount; [apply digit_not_space |]).
  rewrite (amount_at_app X) by
    (try done;
     by apply (first_char_class is_amount_char is_space);
       [apply space_not_amount_char | |]).
  rewrite HeX.
  rewrite (span_while_app is_space w2) by done.
  rewrite Ascii.eqb_refl.
  rewrite (span_while_app is_space w3) by done.
  rewrite Ascii.eqb_refl.
  rewrite (span_while_app is_space w4) by
    (try done; by apply first_char_amount; [apply digit_not_space |]).
  rewrite (amount_at_app Y) by done.
  rewrite HeY. f_equal. simpl. f_equal. by rewrite !append_assoc.
Qed.

Lemma finditer_price_prefix (pre s : string) :
  count_char dollar pre = 0%nat ->
  finditer _PRICE_RX (pre ++ s) = finditer _PRICE_RX s.
Proof.
  induction pre as [|c pre IH]; simpl; [done |].
  destruct (Ascii.eqb_spec c dollar) as [-> | Hc]; [done |]. intros Hpre.
  rewrite finditer_no_match; [by apply IH |].
  cbn [_PRICE_RX]. by destruct (Ascii.eqb_spec c dollar).
Qed.

Lemma prices_from_range_at (pre w1 X w2 w3 w4 Y rest : string) :
  count_char dollar pre = 0%nat ->
  sforall is_space w1 = true -> is_amount X = true ->
  sforall is_space w2 = true -> sforall is_space w3 = true ->
  sforall is_space w4 = true -> is_amount Y = true ->
  not_in_class is_amount_char (first_char rest) = true ->
  _prices_from_text
    (Some (pre ++ ("$" ++ w1 ++ X ++ w2 ++ "-" ++ w3 ++ "$" ++ w4 ++ Y)
             ++ rest))
  = ((if _is_plausible_rent (amount_value X) then [amount_value X] else [])
     ++ _prices_from_text (Some rest))%list.
Proof.
  intros Hpre Hw1 HX Hw2 Hw3 Hw4 HY Hrest. unfold _prices_from_text.
  rewrite finditer_price_prefix by done.
  rewrite finditer_match; [| by apply price_rx_range_blanks | done].
  cbn [flat_map]. f_equal.
  pose proof (price_of_match_low w1 X w2 ("-" ++ w3 ++ "$" ++ w4 ++ Y)
                Hw1 HX Hw2 eq_refl) as H.
  simpl in H |- *. by rewrite !append_assoc in H.
Qed.

(** C9. Every integer [_prices_from_text] returns lies in [300, 6000].
    The list is made of what the matches of the price pattern contribute,
    in order.  Every match is a dollar sign, blanks and an amount [X],
    alone or followed by blanks, a hyphen, blanks, a dollar sign, blanks and
    an amount [Y]; what it contributes is [X] when [X] is plausible and
    nothing otherwise, so the upper bound of a range never contributes.  A
    range that follows a text without a dollar sign is matched as a whole,
    whatever the blanks around its hyphen: [Y] is consumed and the scan
    resumes after it.  [normalize_price] on a range returns the rounded mean
    of [X] and [Y] (floats being exact up to 2^53). *)
Theorem prices_from_text_lower_bound :
  (forall (text : option string) (v : Z),
      v ∈ _prices_from_text text -> 300 <= v <= 6000)
  /\ (forall text : option string,
        _prices_from_text text
        = flat_map price_of_match (finditer _PRICE_RX (default "" text)))
  /\ (forall (text : option string) (raw : string),
        raw ∈ finditer _PRICE_RX (default "" text) ->
        exists w1 X tail : string,
          raw = "$" ++ w1 ++ X ++ tail
          /\ sforall is_space w1 = true /\ is_amount X = true
          /\ (tail = ""
              \/ exists w2 w3 w4 Y : string,
                   sforall is_space w2 = true /\ sforall is_space w3 = true
                   /\ sforall is_space w4 = true /\ is_amount Y = true
                   /\ tail = w2 ++ "-" ++ w3 ++ "$" ++ w4 ++ Y)
          /\ price_of_match raw
             = if _is_plausible_rent (amount_value X)
               then [amount_value X] else [])
  /\ (forall pre w1 X w2 w3 w4 Y rest : string,
        count_char dollar pre = 0%nat ->
        sforall is_space w1 = true -> is_amount X = true ->
        sforall is_space w2 = true -> sforall is_space w3 = true ->
        sforall is_space w4 = true -> is_amount Y = true ->
        not_in_class is_amount_char (first_char rest) = true ->
        _prices_from_text
          (Some (pre ++ ("$" ++ w1 ++ X ++ w2 ++ "-" ++ w3 ++ "$" ++ w4 ++ Y)
                   ++ rest))
        = ((if _is_plausible_rent (amount_value X)
            then [amount_value X] else [])
           ++ _prices_from_text (Some rest))%list)
  /\ (forall X Y : string,
        is_amount X = true -> is_amount Y = true ->
        amount_value X + amount_value Y <= 2 ^ 53 ->
        normalize_price (Some ("$" ++ X ++ " - $" ++ Y))
        = Some (py_round (inject_Z (amount_value X + amount_value Y) / 2))).
Proof.
  split; [apply prices_from_text_plausible |].
  split; [by intros [t|] |].
  split.
  { intros text raw (s' & Hs')%finditer_from_elem.
    by apply (price_match_value s'). }
  split; [apply prices_from_range_at |].
  intros X Y HX HY _. apply normalize_price_range; by apply is_amount_int_amount.
Qed.

(** The example of the specification: the range stands after other text,
    and only its lower bound is returned. *)
Lemma prices_from_text_lower_bound_witness :
  _prices_from_text (Some "2 Beds, 1.5 Bath, $1,499 - $1,549 / month")
  = [1499]
  /\ _prices_from_text (Some "$1,499-$1,549") = [1499].
Proof.
  destruct prices_from_text_lower_bound as (_ & _ & _ & H & _).
  split.
  - exact (H "2 Beds, 1.5 Bath, " "" "1,499" " " " " "" "1,549" " / month"
             eq_refl eq_refl eq_refl eq_refl eq_refl eq_refl eq_refl eq_refl).
  - exact (H "" "" "1,499" "" "" "" "1,549" ""
             eq_refl eq_refl eq_refl eq_refl eq_refl eq_refl eq_refl eq_refl).
Defined.

Example prices_from_text_range_1499 :
  _prices_from_text (Some "2 Beds, 1.5 Bath, $1,499 - $1,549 / month") = [1499].
Proof. by vm_compute. Qed.

(** ** The record assembler *)

Lemma Returned_inj {A} (a b : A) : Returned a = Returned b -> a = b.
Proof. by intros [= ->]. Qed.

#[local] Arguments _mk_record : simpl never.

Section AssemblerProps.

Variable float_str : Q -> string.
Variable now : string.

Lemma mk_record_some (u c t : string) (pr : pyarg) (b ba : option pyarg)
    (a : option string) (rec : listing) :
  _mk_record float_str now u c t (Some pr) b ba a = Some rec ->
  price_value float_str pr = Some (price rec) /\ 300 <= price rec <= 6000.
Proof.
  unfold _mk_record. destruct (price_value float_str pr) as [v|]; [|done].
  destruct ((v =? 0) || negb (_is_plausible_rent v)) eqn:E; [done|].
  intros [= <-]. simpl. split; [done|].
  apply orb_false_iff in E as [_ E]. apply negb_false_iff in E.
  unfold _is_plausible_rent in E. lia.
Qed.

Lemma mk_record_rejects (u c t : string) (pr : pyarg) (b ba : option pyarg)
    (a : option string) :
  match price_value float_str pr with
  | Some v => v < 300 \/ 6000 < v
  | None => True
  end ->
  _mk_record float_str now u c t (Some pr) b ba a = None.
Proof.
  unfold _mk_record. destruct (price_value float_str pr) as [v|]; [|done].
  intros H. assert (_is_plausible_rent v = false) as ->; [|by rewrite orb_true_r].
  unfold _is_plausible_rent. lia.
Qed.

Lemma collect_records_plausible (raw : list (raw_fields)) (rec : listing) :
  rec ∈ collect_records float_str now raw -> 300 <= price rec <= 6000.
Proof.
  unfold collect_records. rewrite list_elem_of_omap.
  intros ([[[[[[u c] t] p] b] ba] a] & _ & H). simpl in H.
  destruct p as [pr|]; [|done].
  by apply mk_record_some in H as [_ ?].
Qed.

Lemma parse_default_plausible (u a t text : string) (rec : listing) :
  rec ∈ parse_default float_str now u a t text -> 300 <= price rec <= 6000.
Proof.
  unfold parse_default. rewrite list_elem_of_omap.
  intros (p & _ & H). by apply mk_record_some in H as [_ ?].
Qed.

Lemma parse_granite_item_plausible (u a txt : string) (rec : listing) :
  parse_granite_item float_str now u a txt = Returned (Some rec) ->
  300 <= price rec <= 6000.
Proof.
  unfold parse_granite_item. destruct (granite_skips txt); [done|].
  destruct (search granite_price_at txt) as [g|]; [|done].
  destruct (is_empty _); [done|].
  intros H%Returned_inj. by apply mk_record_some in H as [_ ?].
Qed.

Lemma parse_granite_plausible (u a : string) (items : list string)
    (results : list listing) (rec : listing) :
  parse_granite float_str now u a items = Returned results ->
  rec ∈ results -> 300 <= price rec <= 6000.
Proof.
  revert results. induction items as [|txt items IH]; intros results; simpl.
  - intros [= <-]. by intros ?%elem_of_nil.
  - destruct (parse_granite_item float_str now u a txt) as [o|e] eqn:Hi; [|done].
    simpl. destruct (parse_granite float_str now u a items) as [l|e]; [|done].
    simpl. intros [= <-]. rewrite elem_of_app. intros [Hin|Hin].
    + destruct o as [r|]; simpl in Hin.
      * apply list_elem_of_singleton in Hin as ->.
        by apply parse_granite_item_plausible in Hi.
      * by apply elem_of_nil in Hin.
    + by apply (IH l).
Qed.

Lemma parse_granite_skip (u a txt : string) (pre post : list string) :
  granite_skips txt = true ->
  parse_granite float_str now u a (pre ++ txt :: post)
  = parse_granite float_str now u a (pre ++ post).
Proof.
  intros Hs. induction pre as [|t pre IH]; simpl.
  - unfold parse_granite_item. rewrite Hs. simpl.
    by destruct (parse_granite float_str now u a post).
  - by rewrite IH.
Qed.

End AssemblerProps.

Lemma price_250 : normalize_price (Some "250") = Some 250.
Proof. by vm_compute. Qed.
Lemma price_7000 : normalize_price (Some "7000") = Some 7000.
Proof. by vm_compute. Qed.

(** C1. [_mk_record] returns [None] when the price is [None] and when the
    value it normalizes to is missing or outside [300, 6000]; prices 250 and
    7000 give [None] whatever the other arguments are; a record that is
    returned carries the normalized price, which lies in [300, 6000].  So do
    all records of a parser, which collects results of [_mk_record] only:
    the generic shape [collect_records], [parse_default] and
    [parse_granite]. *)
Theorem mk_record_plausibility_gate (float_str : Q -> string)
    (now u c t : string) (b ba : option pyarg) (a : option string) :
  _mk_record float_str now u c t None b ba a = None
  /\ (forall pr : pyarg,
        match price_value float_str pr with
        | Some v => v < 300 \/ 6000 < v
        | None => True
        end ->
        _mk_record float_str now u c t (Some pr) b ba a = None)
  /\ _mk_record float_str now u c t (Some (PInt 250)) b ba a = None
  /\ _mk_record float_str now u c t (Some (PInt 7000)) b ba a = None
  /\ _mk_record float_str now u c t (Some (PStr "250")) b ba a = None
  /\ _mk_record float_str now u c t (Some (PStr "7000")) b ba a = None
  /\ (forall (pr : pyarg) (rec : listing),
        _mk_record float_str now u c t (Some pr) b ba a = Some rec ->
        price_value float_str pr = Some (price rec)
        /\ 300 <= price rec <= 6000)
  /\ (forall (raw : list raw_fields) (rec : listing),
        rec ∈ collect_records float_str now raw ->
        300 <= price rec <= 6000)
  /\ (forall (url address page_title text : string) (rec : listing),
        rec ∈ parse_default float_str now url address page_title text ->
        300 <= price rec <= 6000)
  /\ (forall (url address : string) (items : list string)
             (results : list listing) (rec : listing),
        parse_granite float_str now url address items = Returned results ->
        rec ∈ results -> 300 <= price rec <= 6000).
Proof.
  split; [done|]. split; [intros pr H; by apply mk_record_rejects|].
  split; [by apply mk_record_rejects; simpl; lia|].
  split; [by apply mk_record_rejects; simpl; lia|].
  split; [by apply mk_record_rejects; unfold price_value, py_str;
                 rewrite price_250; lia|].
  split; [by apply mk_record_rejects; unfold price_value, py_str;
                 rewrite price_7000; lia|].
  split; [intros pr rec H; by apply (mk_record_some _ _ _ _ _ _ _ _ _ _ H)|].
  split; [apply collect_records_plausible|].
  split; [apply parse_default_plausible|apply parse_granite_plausible].
Qed.

Lemma mk_record_plausibility_gate_witness :
  _mk_record short_decimal_str "11-03-2026" "https://x.com/plans" "Test Co"
    "A1" (Some (PStr "$7,000")) (Some (PInt 2)) (Some (PFloat (3 # 2)))
    (Some "1 Main St") = None.
Proof.
  apply (proj1 (proj2 (mk_record_plausibility_gate short_decimal_str
                         "11-03-2026" "https://x.com/plans" "Test Co" "A1"
                         (Some (PInt 2)) (Some (PFloat (3 # 2)))
                         (Some "1 Main St")))).
  vm_compute. right. reflexivity.
Defined.

(** C8 (as amended). A Granite listing container whose text contains both
    "not available" and "early inquiry", in any letter case, is skipped and
    yields no record, whether or not the text contains "studio"; the rule
    skips no other container. *)
Theorem granite_skip_rule (float_str : Q -> string)
    (now url address txt : string) (pre post : list string) :
  contains (lower txt) "not available" = true ->
  contains (lower txt) "early inquiry" = true ->
  granite_skips txt = true
  /\ parse_granite_item float_str now url address txt = Returned None
  /\ parse_granite float_str now url address (pre ++ txt :: post)
     = parse_granite float_str now url address (pre ++ post)
  /\ (forall other : string,
        granite_skips other = true ->
        contains (lower other) "not available" = true
        /\ contains (lower other) "early inquiry" = true).
Proof.
  intros H1 H2.
  assert (Hs : granite_skips txt = true)
    by (unfold granite_skips; by rewrite H1, H2).
  split; [done|]. split; [unfold parse_granite_item; by rewrite Hs|].
  split; [by apply parse_granite_skip|].
  intros other Ho. by apply andb_true_iff in Ho.
Qed.

Lemma granite_skip_rule_witness :
  contains (lower "Studio - Not Available - Early Inquiry List")
    "not available" = true
  /\ contains (lower "Studio - Not Available - Early Inquiry List")
       "early inquiry" = true
  /\ parse_granite_item short_decimal_str "11-03-2026"
       "https://granitestudentliving.com/listings" "West Lafayette, IN"
       "Studio - Not Available - Early Inquiry List" = Returned None.
Proof.
  assert (H1 : contains (lower "Studio - Not Available - Early Inquiry List")
                 "not available" = true) by reflexivity.
  assert (H2 : contains (lower "Studio - Not Available - Early Inquiry List")
                 "early inquiry" = true) by reflexivity.
  split; [exact H1|]. split; [exact H2|].
  exact (proj1 (proj2 (granite_skip_rule short_decimal_str "11-03-2026"
                         "https://granitestudentliving.com/listings"
                         "West Lafayette, IN"
                         "Studio - Not Available - Early Inquiry List"
                         [] [] H1 H2))).
Defined.

(** The claim as stated fails on a text with "studio" and only one of the
    two phrases: the container is kept and yields a record. *)
Lemma granite_studio_not_available_kept :
  contains (lower "Studio - Not Available - $1,250 / month") "studio" = true
  /\ contains (lower "Studio - Not Available - $1,250 / month")
       "not available" = true
  /\ exists rec : listing,
       parse_granite_item short_decimal_str "11-03-2026"
         "https://granitestudentliving.com/listings" "West Lafayette, IN"
         "Studio - Not Available - $1,250 / month" = Returned (Some rec)
       /\ price rec = 1250.
Proof.
  split; [by vm_compute|]. split; [by vm_compute|].
  eexists. split; by vm_compute.
Qed.

(** ** The crawl frontier *)

Lemma fromkeys_from_elem (seen l : list string) (x : string) :
  x ∈ fromkeys_from seen l <-> x ∈ l /\ x ∉ seen.
Proof.
  revert seen. induction l as [|y l IH]; intros seen; simpl.
  - rewrite elem_of_nil. tauto.
  - case_bool_decide as Hy.
    + rewrite IH, elem_of_cons. split; [tauto|].
      intros [[->|Hx] Hn]; [done|tauto].
    + rewrite !elem_of_cons, IH, elem_of_cons.
      destruct (decide (x = y)) as [->|Hne]; tauto.
Qed.

Lemma fromkeys_from_NoDup (seen l : list string) :
  NoDup (fromkeys_from seen l).
Proof.
  revert seen. induction l as [|y l IH]; intros seen; simpl.
  - constructor.
  - case_bool_decide as Hy; [apply IH|].
    constructor; [|apply IH].
    rewrite fromkeys_from_elem, elem_of_cons. tauto.
Qed.

(** First-seen order: when [x] stands before [y] among the keys, some
    occurrence of [x] in the list comes before every occurrence of [y]. *)
Lemma fromkeys_from_order (seen l : list string) (i j : nat) (x y : string) :
  fromkeys_from seen l !! i = Some x ->
  fromkeys_from seen l !! j = Some y ->
  (i < j)%nat ->
  exists a : nat, l !! a = Some x
    /\ forall b : nat, (b <= a)%nat -> l !! b <> Some y.
Proof.
  revert seen i j. induction l as [|z l IH]; intros seen i j; simpl; [done|].
  case_bool_decide as Hz.
  - intros Hi Hj Hlt. destruct (IH _ _ _ Hi Hj Hlt) as (a & Ha & Hb).
    exists (S a). split; [done|].
    intros [|b] Hle; simpl.
    + intros [= ->]. apply list_elem_of_lookup_2, fromkeys_from_elem in Hj.
      tauto.
    + apply Hb. lia.
  - destruct i as [|i]; simpl.
    + intros [= <-] Hj Hlt. exists O. split; [done|].
      intros b Hb. assert (b = O) as -> by lia. simpl. intros [= <-].
      destruct j as [|j]; [lia|]. simpl in Hj.
      apply list_elem_of_lookup_2, fromkeys_from_elem in Hj.
      rewrite elem_of_cons in Hj. tauto.
    + intros Hi Hj Hlt. destruct j as [|j]; [lia|]. simpl in Hj.
      destruct (IH _ _ _ Hi Hj ltac:(lia)) as (a & Ha & Hb).
      exists (S a). split; [done|].
      intros [|b] Hle; simpl.
      * intros [= ->]. apply list_elem_of_lookup_2, fromkeys_from_elem in Hj.
        rewrite elem_of_cons in Hj. tauto.
      * apply Hb. lia.
Qed.

Section DiscoveryProps.

Variable re_search : string -> string -> bool.
Variable urljoin : string -> string -> outcome string.
Variable urlparse : string -> outcome ParseResult.

Lemma truthy_false {A} (o : option (list A)) :
  truthy o = false <-> default [] o = [].
Proof. destruct o as [[|x l]|]; simpl; split; done. Qed.

Lemma match_any_true (o : option (list string)) (path_q : string) :
  _match_any re_search o path_q = true
  <-> default [] o = []
      \/ exists p, p ∈ default [] o /\ re_search p path_q = true.
Proof.
  unfold _match_any. destruct (truthy o) eqn:T; simpl.
  - rewrite existsb_exists. split.
    + intros (p & Hp & H). right. exists p. by rewrite list_elem_of_In.
    + intros [He|(p & Hp & H)].
      * apply truthy_false in He. congruence.
      * exists p. by rewrite <- list_elem_of_In.
  - apply truthy_false in T. split; [by left|done].
Qed.

Lemma deny_test (deny : option (list string)) (path_q : string) :
  truthy deny && _match_any re_search deny path_q = false
  <-> forall p, p ∈ default [] deny -> re_search p path_q = false.
Proof.
  rewrite andb_false_iff, truthy_false. split.
  - intros [He|Hm] p Hp.
    + rewrite He in Hp. by apply elem_of_nil in Hp.
    + destruct (re_search p path_q) eqn:E; [|done].
      assert (_match_any re_search deny path_q = true)
        by (apply match_any_true; eauto).
      congruence.
  - intros H. destruct (_match_any re_search deny path_q) eqn:E; [|by right].
    apply match_any_true in E as [He|(p & Hp & Hs)]; [by left|].
    rewrite (H p Hp) in Hs. done.
Qed.

Lemma allow_test (allow : option (list string)) (path_q : string) :
  truthy allow && negb (_match_any re_search allow path_q) = false
  <-> default [] allow = []
      \/ exists p, p ∈ default [] allow /\ re_search p path_q = true.
Proof.
  rewrite andb_false_iff, negb_false_iff, truthy_false, match_any_true.
  tauto.
Qed.

Lemma passes_filters_iff (allow deny : option (list string)) (path_q : string) :
  passes_filters re_search allow deny path_q = true
  <-> (forall p, p ∈ default [] deny -> re_search p path_q = false)
      /\ (default [] allow = []
          \/ exists p, p ∈ default [] allow /\ re_search p path_q = true).
Proof.
  rewrite <- deny_test, <- allow_test. unfold passes_filters.
  destruct (truthy deny && _); [by split; [|intros []]|].
  destruct (truthy allow && _); [by split; [|intros []]|done].
Qed.

(** C5. A candidate passes the filter exactly when no deny pattern is found
    in it and the allow list is empty or one of its patterns is found.  The
    deny test comes first: when a deny pattern is found the candidate is
    excluded whatever the allow list is.  With deny pattern "/blog" and allow
    pattern "/listings", "/blog/listings/foo" is excluded although the allow
    pattern is found in it. *)
Theorem passes_filters_deny_then_allow (allow deny : option (list string))
    (path_q : string) :
  (passes_filters re_search allow deny path_q = true
   <-> (forall p, p ∈ default [] deny -> re_search p path_q = false)
       /\ (default [] allow = []
           \/ exists p, p ∈ default [] allow /\ re_search p path_q = true))
  /\ ((exists p, p ∈ default [] deny /\ re_search p path_q = true) ->
      forall allow' : option (list string),
        passes_filters re_search allow' deny path_q = false)
  /\ passes_filters literal_search (Some ["/listings"]) (Some ["/blog"])
       "/blog/listings/foo" = false
  /\ _match_any literal_search (Some ["/listings"]) "/blog/listings/foo" = true
  /\ _match_any literal_search (Some ["/blog"]) "/blog/listings/foo" = true.
Proof.
  split; [apply passes_filters_iff|]. split; [|by vm_compute].
  intros (p & Hp & Hs) allow'.
  destruct (passes_filters re_search allow' deny path_q) eqn:E; [|done].
  apply passes_filters_iff in E as [Hd _]. rewrite (Hd p Hp) in Hs. done.
Qed.

Lemma collect_links_returned (keep : string -> outcome (option string))
    (hrefs out : list string) :
  collect_links keep hrefs = Returned out ->
  (forall raw, raw ∈ hrefs -> exists o, keep raw = Returned o)
  /\ forall x, x ∈ out <-> exists raw, raw ∈ hrefs /\ keep raw = Returned (Some x).
Proof.
  revert out. induction hrefs as [|raw rest IH]; intros out; cbn [collect_links].
  - intros <-%Returned_inj. split; [by intros ? ?%elem_of_nil|].
    intros x. split; [by intros ?%elem_of_nil|].
    by intros (? & ?%elem_of_nil & _).
  - destruct (keep raw) as [kept|e] eqn:Hk; [|done]. cbn.
    destruct (collect_links keep rest) as [out'|e] eqn:Hc; [|done]. cbn.
    intros <-%Returned_inj. destruct (IH out' eq_refl) as [Hret Hout]. split.
    + intros r [->|Hr]%elem_of_cons; [eauto|by apply Hret].
    + intros x. split.
      * destruct kept as [url|].
        -- intros [->|Hx]%elem_of_cons.
           ++ exists raw. split; [left|done].
           ++ apply Hout in Hx as (r & Hr & Hkr). exists r. split; [by right|done].
        -- intros Hx. apply Hout in Hx as (r & Hr & Hkr).
           exists r. split; [by right|done].
      * intros (r & [->|Hr]%elem_of_cons & Hkr).
        -- rewrite Hk in Hkr. apply Returned_inj in Hkr as ->. left.
        -- assert (x ∈ out') by (apply Hout; eauto).
           destruct kept; [by right|done].
Qed.

Lemma collect_links_total (keep : string -> outcome (option string))
    (hrefs : list string) :
  (forall raw, raw ∈ hrefs -> exists o, keep raw = Returned o) ->
  exists out, collect_links keep hrefs = Returned out.
Proof.
  induction hrefs as [|raw rest IH]; intros Hk; cbn [collect_links]; [by eexists|].
  destruct (Hk raw) as [o ->]; [left|].
  destruct IH as [out ->]; [intros r Hr; apply Hk; by right|].
  by eexists.
Qed.

(** The first link on which [urljoin] or [urlparse] raises ends the loop. *)
Lemma collect_links_raises (keep : string -> outcome (option string))
    (before after : list string) (raw : string) (e : exn) :
  (forall r, r ∈ before -> exists o, keep r = Returned o) ->
  keep raw = Raised e ->
  collect_links keep (before ++ raw :: after) = Raised e.
Proof.
  induction before as [|r before IH]; intros Hb Hraw; cbn [app collect_links].
  - by rewrite Hraw.
  - destruct (Hb r) as [o ->]; [left|]. cbn.
    rewrite IH; [done| |done]. intros r' Hr'. apply Hb. by right.
Qed.

Lemma keep_link_resolves (start_url host : string) (same_domain : bool)
    (allow deny : option (list string)) (raw : string) :
  (let href := strip raw in
   is_empty href || startswith href "mailto:" || startswith href "tel:" = true
   \/ exists url u,
        urljoin start_url href = Returned url /\ urlparse url = Returned u) ->
  exists o,
    keep_link re_search urljoin urlparse start_url host same_domain allow deny
      raw = Returned o.
Proof.
  cbv zeta. unfold keep_link. intros [-> | (url & u & -> & Hu)]; [by eexists|].
  destruct (_ || _); [by eexists|]. cbn. rewrite Hu. by eexists.
Qed.

Lemma surviving_links_total (start_url : string) (same_domain : bool)
    (allow deny : option (list string)) (hrefs : list string) :
  links_resolve urljoin urlparse start_url hrefs ->
  exists out,
    surviving_links re_search urljoin urlparse start_url same_domain allow deny
      hrefs = Returned out.
Proof.
  intros [[parsed Hp] Hl]. unfold surviving_links. rewrite Hp. cbn.
  destruct (resolve_rules _ allow deny) as [al dn].
  apply collect_links_total. intros raw Hraw.
  apply keep_link_resolves, Hl, Hraw.
Qed.

(** C6. Whenever [discover_links] returns a list, the list has no
    duplicate, has at most 200 entries, holds surviving links only, in the
    order of their first occurrence among the surviving links, and loses
    none of them when there are at most 200 distinct ones.  It does return a
    list when the page was fetched and [urljoin] and [urlparse] raise on no
    link; the first link on which one of them raises makes [discover_links]
    raise the same exception.  The bound is the constant 200 of the code:
    [max_pages], the one numeric parameter of the signature, has no effect
    on the result. *)
Theorem discover_links_frontier_shape (start_url : string) (max_pages : Z)
    (same_domain : bool) (allow deny : option (list string))
    (hrefs : list string) :
  (forall out : list string,
     discover_links re_search urljoin urlparse start_url max_pages same_domain
       allow deny (Fetched hrefs) = Returned out ->
     exists surviving : list string,
       surviving_links re_search urljoin urlparse start_url same_domain allow
         deny hrefs = Returned surviving
       /\ NoDup out
       /\ (length out <= 200)%nat
       /\ (forall x, x ∈ out -> x ∈ surviving)
       /\ (forall i j x y,
             out !! i = Some x -> out !! j = Some y -> (i < j)%nat ->
             exists a, surviving !! a = Some x
               /\ forall b, (b <= a)%nat -> surviving !! b <> Some y)
       /\ ((length (dict_fromkeys surviving) <= 200)%nat ->
           forall x, x ∈ surviving -> x ∈ out))
  /\ (links_resolve urljoin urlparse start_url hrefs ->
      exists out : list string,
        discover_links re_search urljoin urlparse start_url max_pages
          same_domain allow deny (Fetched hrefs) = Returned out)
  /\ (forall (before after : list string) (raw : string) (e : exn),
        hrefs = (before ++ raw :: after)%list ->
        links_resolve urljoin urlparse start_url before ->
        is_empty (strip raw) || startswith (strip raw) "mailto:"
        || startswith (strip raw) "tel:" = false ->
        urljoin start_url (strip raw) = Raised e
        \/ (exists url, urljoin start_url (strip raw) = Returned url
              /\ urlparse url = Raised e) ->
        discover_links re_search urljoin urlparse start_url max_pages
          same_domain allow deny (Fetched hrefs) = Raised e)
  /\ forall max_pages' : Z,
       discover_links re_search urljoin urlparse start_url max_pages'
         same_domain allow deny (Fetched hrefs)
       = discover_links re_search urljoin urlparse start_url max_pages
           same_domain allow deny (Fetched hrefs).
Proof.
  split; [|split; [|split; [|done]]].
  - intros out. unfold discover_links.
    destruct (surviving_links _ _ _ _ _ _ _ hrefs) as [surviving|e]; [|done].
    cbn. intros <-%Returned_inj. exists surviving. split; [done|].
    split.
    { apply (sublist_NoDup _ (dict_fromkeys surviving));
        [apply fromkeys_from_NoDup | apply sublist_take]. }
    split. { rewrite length_take. lia. }
    split.
    { intros x (i & Hx & _)%elem_of_take.
      apply list_elem_of_lookup_2 in Hx.
      by apply fromkeys_from_elem in Hx as [? _]. }
    split.
    { intros i j x y Hi Hj Hlt.
      apply lookup_take_Some in Hi as [Hi _], Hj as [Hj _].
      by apply (fromkeys_from_order [] surviving i j). }
    intros Hlen x Hx. rewrite take_ge by done.
    apply fromkeys_from_elem. split; [done|]. by intros ?%elem_of_nil.
  - intros Hres. unfold discover_links.
    destruct (surviving_links_total start_url same_domain allow deny hrefs Hres)
      as [surviving ->].
    by eexists.
  - intros before after raw e -> [[parsed Hp] Hl] Hraw He.
    unfold discover_links, surviving_links. rewrite Hp. cbn.
    destruct (resolve_rules _ allow deny) as [al dn].
    rewrite (collect_links_raises _ before after raw e); [done | |].
    + intros r Hr. apply keep_link_resolves, Hl, Hr.
    + unfold keep_link. rewrite Hraw.
      destruct He as [-> | (url & -> & Hu)]; [done |]. cbn. by rewrite Hu.
Qed.

(** C7. When the fetch of the seed page raises an instance of [Exception],
    [discover_links] returns the empty list and raises nothing; a crawl
    whose discovery returned the empty list visits the seed url alone. *)
Theorem discover_links_fetch_failure (start_url : string) (max_pages : Z)
    (same_domain : bool) (allow deny : option (list string)) (e : exn) :
  is_Exception e = true ->
  discover_links re_search urljoin urlparse start_url max_pages same_domain
    allow deny (FetchRaised e) = Returned []
  /\ scrape_site_candidates start_url [] = [start_url]
  /\ scrape_site_frontier re_search urljoin urlparse start_url allow deny
       (FetchRaised e) = Returned [start_url].
Proof.
  intros He. unfold scrape_site_frontier, discover_links. by rewrite He.
Qed.

End DiscoveryProps.

Lemma discover_links_fetch_failure_witness :
  is_Exception RequestException = true
  /\ discover_links literal_search urljoin_absolute urlparse_simple
       "https://x.com/plans" 1 true None None (FetchRaised RequestException)
     = Returned []
  /\ scrape_site_frontier literal_search urljoin_absolute urlparse_simple
       "https://x.com/plans" None None (FetchRaised RequestException)
     = Returned ["https://x.com/plans"].
Proof.
  assert (H : is_Exception RequestException = true) by reflexivity.
  split; [exact H|].
  destruct (discover_links_fetch_failure literal_search urljoin_absolute
              urlparse_simple "https://x.com/plans" 1 true None None
              RequestException H) as (H1 & _ & H3).
  split; [exact H1|exact H3].
Defined.

(** An exception that is no instance of [Exception] is not caught. *)
Example discover_links_keyboard_interrupt :
  discover_links literal_search urljoin_absolute urlparse_simple
    "https://x.com/plans" 1 true None None (FetchRaised KeyboardInterrupt)
  = Raised KeyboardInterrupt.
Proof. reflexivity. Qed.

(** A link that [urljoin] cannot split: the [ValueError] leaves
    [discover_links], and with it the crawl of the site, although the links
    before it were kept. *)
Example discover_links_malformed_href :
  discover_links literal_search urljoin_absolute urlparse_simple
    "https://x.com/plans" 1 true None None
    (Fetched ["https://x.com/a"; "http://["; "https://x.com/b"])
  = Raised ValueError
  /\ scrape_site_frontier literal_search urljoin_absolute urlparse_simple
       "https://x.com/plans" None None
       (Fetched ["https://x.com/a"; "http://["; "https://x.com/b"])
     = Raised ValueError.
Proof. split; by vm_compute. Qed.

(** The numeric parameter of the signature does not bound the result. *)
Example discover_links_max_pages_unread :
  discover_links literal_search urljoin_absolute urlparse_simple
    "https://x.com/plans" 1 true None None
    (Fetched ["https://x.com/a"; "https://x.com/b"])
  = Returned ["https://x.com/a"; "https://x.com/b"].
Proof. by vm_compute. Qed.

Lemma links_resolve_example :
  links_resolve urljoin_absolute urlparse_simple "https://x.com/plans"
    ["https://x.com/a"; "https://x.com/b"; "https://x.com/a"].
Proof.
  split; [by eexists|]. intros raw Hraw. right.
  apply elem_of_cons in Hraw as [->|Hraw]; [by eexists _, _|].
  apply elem_of_cons in Hraw as [->|Hraw]; [by eexists _, _|].
  apply list_elem_of_singleton in Hraw as ->. by eexists _, _.
Qed.

Lemma discover_links_frontier_shape_witness :
  exists out : list string,
    discover_links literal_search urljoin_absolute urlparse_simple
      "https://x.com/plans" 1 true None None
      (Fetched ["https://x.com/a"; "https://x.com/b"; "https://x.com/a"])
    = Returned out
    /\ NoDup out /\ (length out <= 200)%nat.
Proof.
  destruct (discover_links_frontier_shape literal_search urljoin_absolute
              urlparse_simple "https://x.com/plans" 1 true None None
              ["https://x.com/a"; "https://x.com/b"; "https://x.com/a"])
    as (Hshape & Hret & _).
  destruct (Hret links_resolve_example) as [out Hout].
  destruct (Hshape out Hout) as (_ & _ & H2 & H3 & _).
  exists out. split; [exact Hout|]. split; [exact H2|exact H3].
Defined.

Example discover_links_filters_and_dedups :
  discover_links literal_search urljoin_absolute urlparse_simple
    "https://www.bk-management.com/purdue" 1 true None None
    (Fetched ["https://www.bk-management.com/purdue/a";
              "https://www.bk-management.com/blog/purdue";
              " https://www.bk-management.com/purdue/a ";
              "mailto:office@bk-management.com";
              "https://elsewhere.com/purdue";
              "https://www.bk-management.com/vacancies/map.PDF";
              "https://www.bk-management.com/vacancies#top";
              "https://www.bk-management.com/vacancies#unit_4"])
  = Returned ["https://www.bk-management.com/purdue/a";
              "https://www.bk-management.com/vacancies#unit_4"].
Proof. by vm_compute. Qed.

(** ** Synthetic unit urls *)

Lemma append_not_self (s t : string) : is_empty t = false -> s ++ t <> s.
Proof.
  intros Ht E. apply (f_equal String.length) in E.
  rewrite length_append in E. destruct t; [done|]. simpl in E. lia.
Qed.

Section Probe.

Variables (seen : gset string) (synth : string).

Lemma candidate_later_ne (i j : Z) (cand : string) :
  is_candidate synth i cand -> i < j -> cand <> synth ++ "-" ++ pretty j.
Proof.
  intros [[-> ->]|[Hi ->]] Hlt E.
  - symmetry in E. by apply append_not_self in E.
  - apply (inj (String.append synth)) in E.
    apply (inj (String.append "-")) in E.
    apply (inj pretty) in E. lia.
Qed.

Lemma probe_fresh (fuel : nat) (i : Z) (cand : string) (tried : gset string) :
  is_candidate synth i cand ->
  (forall x, x ∈ tried ->
     x <> cand /\ forall j, i < j -> x <> synth ++ "-" ++ pretty j) ->
  (size (seen ∖ tried) < fuel)%nat ->
  (probe seen synth fuel i cand ∉ seen)
  /\ exists sfx, unit_suffix sfx /\ probe seen synth fuel i cand = synth ++ sfx.
Proof.
  revert i cand tried. induction fuel as [|fuel IH]; intros i cand tried Hc Ht Hsz;
    [lia|].
  simpl. case_bool_decide as Hin.
  - apply (IH (i + 1) _ ({[cand]} ∪ tried)).
    + right. split; [|done]. destruct Hc as [[-> _]|[? _]]; lia.
    + intros x [->%elem_of_singleton|Hx]%elem_of_union.
      * split; [apply (candidate_later_ne i); [done|lia]|].
        intros j Hj. apply (candidate_later_ne i); [done|lia].
      * destruct (Ht x Hx) as [_ H]. split; [apply H; lia|].
        intros j Hj. apply H. lia.
    + assert (seen ∖ ({[cand]} ∪ tried) ⊂ seen ∖ tried) as Hsub.
      { apply strict_spec_alt. split.
        - intros x [Hx Hn]%elem_of_difference. apply elem_of_difference.
          split; [done|]. intros Hx'. apply Hn, elem_of_union_r, Hx'.
        - intros E. assert (cand ∈ seen ∖ tried) as Hm.
          { apply elem_of_difference. split; [done|].
            intros Hx. by destruct (Ht cand Hx). }
          rewrite <- E in Hm. apply elem_of_difference in Hm as [_ Hm].
          apply Hm, elem_of_union_l, elem_of_singleton. done. }
      apply subset_size in Hsub. lia.
  - split; [done|]. destruct Hc as [[_ ->]|[Hi ->]].
    + exists "". split; [by left|by rewrite append_empty_r].
    + exists ("-" ++ pretty i). split; [right; eauto|done].
Qed.

Lemma unique_url_fresh :
  (unique_url seen synth ∉ seen)
  /\ exists sfx, unit_suffix sfx /\ unique_url seen synth = synth ++ sfx.
Proof.
  apply (probe_fresh _ 1 synth ∅).
  - by left.
  - intros x Hx. by apply not_elem_of_empty in Hx.
  - rewrite difference_empty_L. lia.
Qed.

End Probe.

Lemma is_candidate_fun (synth : string) (i : Z) (c1 c2 : string) :
  is_candidate synth i c1 -> is_candidate synth i c2 -> c1 = c2.
Proof. intros [[-> ->] | [H1 ->]] [[H2 ->] | [H3 ->]]; (done || lia). Qed.

Lemma probe_least (seen : gset string) (synth : string) (fuel : nat) (i : Z)
    (cand : string) :
  is_candidate synth i cand ->
  exists k, i <= k
    /\ is_candidate synth k (probe seen synth fuel i cand)
    /\ forall j c, i <= j < k -> is_candidate synth j c -> c ∈ seen.
Proof.
  revert i cand. induction fuel as [|fuel IH]; intros i cand Hc.
  - exists i. split; [lia |]. split; [done |]. intros; lia.
  - simpl. case_bool_decide as Hin.
    + destruct (IH (i + 1) (synth ++ "-" ++ pretty (i + 1)))
        as (k & Hk & Hcand & Hseen).
      { right. split; [| done]. destruct Hc as [[-> _] | [? _]]; lia. }
      exists k. split; [lia |]. split; [done |].
      intros j c Hj Hjc. destruct (decide (j = i)) as [-> | Hne].
      * by rewrite (is_candidate_fun _ _ _ _ Hjc Hc).
      * apply (Hseen j); [lia | done].
    + exists i. split; [lia |]. split; [done |]. intros; lia.
Qed.

(** The loop returns the candidate of the least counter that is not in
    [seen]. *)
Lemma candidate_is_candidate (synth : string) (i : Z) (c : string) :
  1 <= i -> is_candidate synth i c <-> c = candidate synth i.
Proof.
  intros Hi. unfold candidate, is_candidate.
  destruct (Z.eqb_spec i 1) as [-> | Hne]; split.
  - intros [[_ ->] | [? _]]; [done | lia].
  - intros ->. by left.
  - intros [[-> _] | [_ ->]]; [lia | done].
  - intros ->. right. split; [lia | done].
Qed.

Lemma unique_url_least (seen : gset string) (synth : string) :
  exists i : Z, 1 <= i
    /\ unique_url seen synth = candidate synth i
    /\ (forall j : Z, 1 <= j < i -> candidate synth j ∈ seen)
    /\ (candidate synth i ∉ seen).
Proof.
  destruct (unique_url_fresh seen synth) as [Hfresh _].
  destruct (probe_least seen synth (S (size seen)) 1 synth)
    as (k & Hk & Hcand & Hseen); [by left |].
  fold (unique_url seen synth) in Hcand.
  apply candidate_is_candidate in Hcand; [| done].
  exists k. split; [done |]. split; [done |]. split.
  - intros j Hj. apply (Hseen j); [done |].
    apply candidate_is_candidate; [lia | done].
  - by rewrite <- Hcand.
Qed.

Lemma unit_fragment_set_url (u : string) (r : listing) :
  unit_fragment (set_url u r) = unit_fragment r.
Proof. done. Qed.

Lemma url_set_url (u : string) (r : listing) : url (set_url u r) = u.
Proof. done. Qed.

Lemma stabilize_row_step (u : string) (seen : gset string) (h : heap)
    (l : nat) (r : listing) :
  h !! l = Some r ->
  stabilize_row u (seen, h) l
  = ({[unique_url seen (u ++ unit_fragment r)]} ∪ seen,
     <[l := set_url (unique_url seen (u ++ unit_fragment r)) r]> h).
Proof. intros Hr. unfold stabilize_row. by rewrite Hr. Qed.

(** The loop over the rows of one group, from any [seen] set. *)
Lemma stabilize_rows_spec (u : string) (rows : list nat) (seen : gset string)
    (h : heap) :
  NoDup rows ->
  (forall l, l ∈ rows -> is_Some (h !! l)) ->
  let st := foldl (stabilize_row u) (seen, h) rows in
  length st.2 = length h
  /\ seen ⊆ st.1
  /\ (forall l, l ∉ rows -> st.2 !! l = h !! l)
  /\ (forall l r, l ∈ rows -> h !! l = Some r ->
        exists sfx, unit_suffix sfx
          /\ st.2 !! l = Some (set_url (u ++ unit_fragment r ++ sfx) r)
          /\ u ++ unit_fragment r ++ sfx ∈ st.1
          /\ u ++ unit_fragment r ++ sfx ∉ seen)
  /\ (forall l1 l2 r1 r2, l1 ∈ rows -> l2 ∈ rows -> l1 <> l2 ->
        st.2 !! l1 = Some r1 -> st.2 !! l2 = Some r2 -> url r1 <> url r2).
Proof.
  revert seen h. induction rows as [|l rows IH]; intros seen h Hnd Hval;
    cbn [foldl].
  { split; [done|]. split; [done|]. split; [done|].
    split; [by intros ? ? ?%elem_of_nil|by intros ? ? ? ? ?%elem_of_nil]. }
  apply NoDup_cons in Hnd as [Hl Hnd].
  destruct (Hval l ltac:(left)) as [r Hr].
  rewrite (stabilize_row_step u seen h l r Hr).
  destruct (unique_url_fresh seen (u ++ unit_fragment r))
    as (Hfresh & sfx & Hsfx & Huq).
  set (uq := unique_url seen (u ++ unit_fragment r)) in *.
  set (h1 := <[l := set_url uq r]> h).
  assert (Hl_lt : (l < length h)%nat) by (by apply lookup_lt_Some in Hr).
  assert (Hh1l : h1 !! l = Some (set_url uq r))
    by (by apply list_lookup_insert_eq).
  assert (Hh1o : forall l', l' <> l -> h1 !! l' = h !! l')
    by (intros l' ?; by apply list_lookup_insert_ne).
  destruct (IH ({[uq]} ∪ seen) h1 Hnd) as (Hlen & Hsub & Hout & Hin & Hdist).
  { intros l' Hl'. rewrite Hh1o; [apply Hval; by right|].
    intros ->. done. }
  set (st := foldl (stabilize_row u) ({[uq]} ∪ seen, h1) rows) in *.
  assert (Hstl : st.2 !! l = Some (set_url uq r)) by (by rewrite Hout).
  split. { rewrite Hlen. apply length_insert. }
  split. { intros x Hx. apply Hsub, elem_of_union_r, Hx. }
  split.
  { intros l' Hl'. apply not_elem_of_cons in Hl' as [Hne Hl'].
    by rewrite Hout, Hh1o. }
  split.
  { intros l' r' [->|Hl']%elem_of_cons Hr'.
    - assert (r' = r) as -> by congruence.
      exists sfx. split; [done|]. rewrite <- append_assoc, <- Huq.
      split; [done|]. split; [|done].
      apply Hsub, elem_of_union_l, elem_of_singleton. done.
    - assert (l' <> l) by (by intros ->).
      destruct (Hin l' r' Hl') as (sfx' & ? & ? & ? & Hns); [by rewrite Hh1o|].
      exists sfx'. split; [done|]. split; [done|]. split; [done|].
      intros Hx. apply Hns, elem_of_union_r, Hx. }
  intros l1 l2 r1 r2 [->|H1]%elem_of_cons [->|H2]%elem_of_cons Hne Hr1 Hr2.
  - done.
  - assert (l2 <> l) by (by intros ->).
    destruct (h !! l2) as [r2'|] eqn:E2;
      [|by destruct (Hval l2 ltac:(by right)) as [? ?]; congruence].
    destruct (Hin l2 r2' H2) as (sfx' & _ & Hr2' & _ & Hns); [by rewrite Hh1o|].
    rewrite Hstl in Hr1. rewrite Hr2' in Hr2.
    apply (inj Some) in Hr1 as <-. apply (inj Some) in Hr2 as <-.
    rewrite !url_set_url.
    intros E. apply Hns. rewrite <- E.
    apply elem_of_union_l, elem_of_singleton. done.
  - assert (l1 <> l) by (by intros ->).
    destruct (h !! l1) as [r1'|] eqn:E1;
      [|by destruct (Hval l1 ltac:(by right)) as [? ?]; congruence].
    destruct (Hin l1 r1' H1) as (sfx' & _ & Hr1' & _ & Hns); [by rewrite Hh1o|].
    rewrite Hstl in Hr2. rewrite Hr1' in Hr1.
    apply (inj Some) in Hr1 as <-. apply (inj Some) in Hr2 as <-.
    rewrite !url_set_url.
    intros E. apply Hns. rewrite E.
    apply elem_of_union_l, elem_of_singleton. done.
  - by apply (Hdist l1 l2).
Qed.

Lemma taken_before_shift (h' : heap) (l0 : nat) (rows : list nat) (k : nat)
    (x : string) :
  taken_before h' rows k x -> taken_before h' (l0 :: rows) (S k) x.
Proof.
  intros (j & l & r & Hj & Hl & Hr & Hu). exists (S j), l, r.
  split; [lia | done].
Qed.

(** The url a row gets is the candidate of the least counter that is
    neither in [seen] nor the url of a row before it. *)
Lemma stabilize_rows_least (u : string) (rows : list nat) (seen : gset string)
    (h : heap) :
  NoDup rows ->
  (forall l, l ∈ rows -> is_Some (h !! l)) ->
  let st := foldl (stabilize_row u) (seen, h) rows in
  forall k l r, rows !! k = Some l -> h !! l = Some r ->
    exists i : Z, 1 <= i
      /\ st.2 !! l = Some (set_url (candidate (u ++ unit_fragment r) i) r)
      /\ (forall j : Z, 1 <= j < i ->
            candidate (u ++ unit_fragment r) j ∈ seen
            \/ taken_before st.2 rows k (candidate (u ++ unit_fragment r) j))
      /\ (candidate (u ++ unit_fragment r) i ∉ seen)
      /\ ~ taken_before st.2 rows k (candidate (u ++ unit_fragment r) i).
Proof.
  revert seen h. induction rows as [|l0 rows IH]; intros seen h Hnd Hval;
    cbn [foldl]; [by intros k l r ?|].
  apply NoDup_cons in Hnd as [Hl0 Hnd].
  destruct (Hval l0 ltac:(left)) as [r0 Hr0].
  rewrite (stabilize_row_step u seen h l0 r0 Hr0).
  set (uq := unique_url seen (u ++ unit_fragment r0)).
  set (h1 := <[l0 := set_url uq r0]> h).
  assert (Hh1l : h1 !! l0 = Some (set_url uq r0)).
  { apply list_lookup_insert_eq. by apply lookup_lt_Some in Hr0. }
  assert (Hh1o : forall l', l' <> l0 -> h1 !! l' = h !! l')
    by (intros l' ?; by apply list_lookup_insert_ne).
  assert (Hval1 : forall l', l' ∈ rows -> is_Some (h1 !! l')).
  { intros l' Hl'. rewrite Hh1o; [apply Hval; by right|]. by intros ->. }
  destruct (stabilize_rows_spec u rows ({[uq]} ∪ seen) h1 Hnd Hval1)
    as (_ & _ & Hout & _).
  specialize (IH ({[uq]} ∪ seen) h1 Hnd Hval1).
  set (st := foldl (stabilize_row u) ({[uq]} ∪ seen, h1) rows) in *.
  assert (Hst0 : st.2 !! l0 = Some (set_url uq r0)) by (by rewrite Hout).
  intros [|k] l r Hk Hr.
  - injection Hk as <-. assert (r = r0) as -> by congruence.
    destruct (unique_url_least seen (u ++ unit_fragment r0))
      as (i & Hi & Huq & Hlow & Hfree).
    fold uq in Huq. exists i. split; [done|]. rewrite <- Huq.
    split; [done|]. split; [|split].
    + intros j Hj. left. by apply Hlow.
    + by rewrite Huq.
    + intros (j & _ & _ & Hj & _). lia.
  - cbn in Hk. assert (l <> l0).
    { intros ->. by apply list_elem_of_lookup_2 in Hk. }
    destruct (IH k l r Hk) as (i & Hi & Hl & Hlow & Hfree & Hnot);
      [by rewrite Hh1o|].
    exists i. split; [done|]. split; [done|]. split; [|split].
    + intros j Hj. destruct (Hlow j Hj) as [Hin | Hin].
      * apply elem_of_union in Hin as [->%elem_of_singleton | Hin];
          [| by left].
        right. exists O, l0, (set_url uq r0). split; [lia | done].
      * right. by apply taken_before_shift.
    + intros Hin. apply Hfree, elem_of_union_r, Hin.
    + intros ([|j] & l2 & r2 & Hj & Hl2 & Hr2 & Hu).
      * cbn in Hl2. injection Hl2 as <-. rewrite Hst0 in Hr2.
        injection Hr2 as <-. cbn in Hu.
        apply Hfree, elem_of_union_l, elem_of_singleton. done.
      * apply Hnot. exists j, l2, r2. split; [lia | done].
Qed.

(** One group. *)
Lemma stabilize_group_spec (g : string * list nat) (h : heap) :
  NoDup g.2 ->
  (forall l, l ∈ g.2 -> is_Some (h !! l)) ->
  length (stabilize_group h g) = length h
  /\ (forall l, l ∉ g.2 -> stabilize_group h g !! l = h !! l)
  /\ group_post g h (stabilize_group h g).
Proof.
  destruct g as [u rows]. simpl. intros Hnd Hval.
  destruct (length rows =? 1)%nat eqn:E; [done|].
  destruct (stabilize_rows_spec u rows ∅ h Hnd Hval)
    as (Hlen & _ & Hout & Hin & Hdist).
  pose proof (stabilize_rows_least u rows ∅ h Hnd Hval) as Hleast.
  split; [done|]. split; [done|]. split; [|split; [done|]].
  - intros l r Hl Hr. destruct (Hin l r Hl Hr) as (sfx & ? & ? & _).
    by exists sfx.
  - intros k l r Hk Hr.
    destruct (Hleast k l r Hk Hr) as (i & Hi & Hl & Hlow & _ & Hnot).
    exists i. split; [done|]. split; [done|]. split; [|done].
    intros j Hj. destruct (Hlow j Hj) as [Hin' | Hin']; [|done].
    by apply not_elem_of_empty in Hin'.
Qed.

(** *** The grouping *)

Ltac case_eqb :=
  repeat (match goal with
          | |- context [ String.eqb ?a ?b ] =>
              destruct (String.eqb_spec a b); subst; simpl
          end);
  try done; try congruence.

Lemma assoc_rows_append (u k : string) (l : nat) (d : list (string * list nat)) :
  assoc_rows u (by_url_append k l d)
  = if String.eqb u k then Some (default [] (assoc_rows k d) ++ [l])%list
    else assoc_rows u d.
Proof.
  induction d as [|[k' rows] d IH]; simpl; [case_eqb|].
  destruct (String.eqb_spec k k') as [<-|Hk]; simpl; [case_eqb|].
  rewrite IH. case_eqb.
Qed.

Lemma keys_append (k : string) (l : nat) (d : list (string * list nat)) :
  NoDup d.*1 -> NoDup (by_url_append k l d).*1.
Proof.
  induction d as [|[k' rows] d IH]; simpl.
  - intros _. apply NoDup_singleton.
  - intros [Hk' Hd]%NoDup_cons.
    destruct (String.eqb_spec k k') as [<-|Hk]; simpl.
    + by apply NoDup_cons.
    + apply NoDup_cons. split; [|by apply IH].
      clear IH Hd. induction d as [|[k2 rows2] d IH2]; simpl.
      * rewrite list_elem_of_singleton. congruence.
      * simpl in Hk'. apply not_elem_of_cons in Hk' as [Hne Hk'].
        destruct (String.eqb_spec k k2) as [<-|]; simpl;
          rewrite not_elem_of_cons; split; auto.
Qed.

Lemma assoc_rows_elem (d : list (string * list nat)) (g : string * list nat) :
  NoDup d.*1 -> g ∈ d <-> assoc_rows g.1 d = Some g.2.
Proof.
  destruct g as [u rows]. simpl.
  induction d as [|[k' rows'] d IH]; simpl.
  - intros _. rewrite elem_of_nil. done.
  - intros [Hk' Hd]%NoDup_cons. rewrite elem_of_cons, (IH Hd).
    destruct (String.eqb_spec u k') as [->|Hu].
    + split.
      * intros [[= ->]|Hin]; [done|].
        exfalso. apply Hk'. clear -Hin.
        induction d as [|[k2 r2] d IH]; simpl in *; [done|].
        destruct (String.eqb_spec k' k2) as [->|]; [left|right; auto].
      * intros [= ->]. by left.
    + split; [intros [[= -> ->]|?]; done|by right].
Qed.

Lemma rows_of_snoc (h : heap) (ls : list nat) (l : nat) (u : string) :
  rows_of h (ls ++ [l]) u
  = (rows_of h ls u ++ if decide (has_url h u l) then [l] else [])%list.
Proof.
  unfold rows_of. by rewrite filter_app.
Qed.

Lemma group_by_url_spec (h : heap) (ls : list nat) :
  NoDup (group_by_url h ls).*1
  /\ forall u, assoc_rows u (group_by_url h ls) = nonempty_rows (rows_of h ls u).
Proof.
  unfold group_by_url.
  induction ls as [|l ls IH] using rev_ind; [split; [constructor|done]|].
  rewrite foldl_snoc. destruct IH as [Hnd Hassoc].
  destruct (h !! l) as [r|] eqn:Hr.
  - split; [by apply keys_append|].
    intros u. rewrite assoc_rows_append, rows_of_snoc.
    destruct (String.eqb_spec u (url r)) as [->|Hu].
    + rewrite Hassoc. rewrite decide_True by (unfold has_url; by rewrite Hr).
      destruct (rows_of h ls (url r)); done.
    + rewrite Hassoc. rewrite decide_False, app_nil_r; [done|].
      unfold has_url. rewrite Hr. simpl. congruence.
  - split; [done|]. intros u. rewrite Hassoc, rows_of_snoc.
    rewrite decide_False, app_nil_r; [done|].
    unfold has_url. by rewrite Hr.
Qed.

Lemma group_by_url_rows (h : heap) (ls : list nat) (g : string * list nat) :
  g ∈ group_by_url h ls -> g.2 = rows_of h ls g.1 /\ g.2 <> [].
Proof.
  destruct (group_by_url_spec h ls) as [Hnd Hassoc].
  rewrite (assoc_rows_elem _ _ Hnd), Hassoc.
  destruct (rows_of h ls g.1); [done|]. by intros [= <-].
Qed.

Lemma group_by_url_elem (h : heap) (ls : list nat) (l : nat) (r : listing) :
  l ∈ ls -> h !! l = Some r ->
  (url r, rows_of h ls (url r)) ∈ group_by_url h ls
  /\ l ∈ rows_of h ls (url r).
Proof.
  intros Hl Hr.
  assert (Hin : l ∈ rows_of h ls (url r)).
  { apply list_elem_of_filter. split; [|done]. unfold has_url. by rewrite Hr. }
  split; [|done].
  destruct (group_by_url_spec h ls) as [Hnd Hassoc].
  apply (assoc_rows_elem _ _ Hnd). simpl. rewrite Hassoc.
  destruct (rows_of h ls (url r)); [by apply elem_of_nil in Hin|done].
Qed.

Lemma disjoint_rows_of_keys (h : heap) (ls : list nat)
    (d : list (string * list nat)) :
  NoDup d.*1 -> (forall g, g ∈ d -> g.2 = rows_of h ls g.1) ->
  disjoint_rows d.
Proof.
  induction d as [|g d IH]; [done|]. simpl.
  intros [Hk Hd]%NoDup_cons Hrows. split.
  - intros g' l Hg' Hl Hl'.
    rewrite (Hrows g) in Hl by left.
    rewrite (Hrows g') in Hl' by (by right).
    apply list_elem_of_filter in Hl as [Hl _], Hl' as [Hl' _].
    unfold has_url in *. rewrite Hl in Hl'. injection Hl' as E.
    apply Hk. rewrite E. by apply list_elem_of_fmap_2.
  - apply IH; [done|]. intros g' Hg'. apply Hrows. by right.
Qed.

Lemma group_post_ext (g : string * list nat) (h1 h2 h1' h2' : heap) :
  (forall l, l ∈ g.2 -> h1 !! l = h2 !! l) ->
  (forall l, l ∈ g.2 -> h1' !! l = h2' !! l) ->
  group_post g h1 h1' -> group_post g h2 h2'.
Proof.
  destruct g as [u rows]. simpl. intros Hh Hh'.
  destruct (length rows =? 1)%nat.
  - intros H l Hl. by rewrite <- Hh', <- Hh, H.
  - intros (Hin & Hdist & Hleast).
    assert (Htaken : forall k x,
              taken_before h1' rows k x <-> taken_before h2' rows k x).
    { intros k x. split; intros (j & l & r & Hj & Hl & Hr & Hu);
        exists j, l, r; (split; [done|]); (split; [done|]);
        (split; [|done]); pose proof (list_elem_of_lookup_2 _ _ _ Hl) as Hl';
        [by rewrite <- Hh' | by rewrite Hh']. }
    split; [|split].
    + intros l r Hl Hr. rewrite <- Hh in Hr by done.
      destruct (Hin l r Hl Hr) as (sfx & ? & ?).
      exists sfx. by rewrite <- Hh'.
    + intros l1 l2 r1 r2 H1 H2 Hne Hr1 Hr2.
      rewrite <- Hh' in Hr1, Hr2 by done. by apply (Hdist l1 l2).
    + intros k l r Hk Hr.
      pose proof (list_elem_of_lookup_2 _ _ _ Hk) as Hl.
      rewrite <- Hh in Hr by done.
      destruct (Hleast k l r Hk Hr) as (i & Hi & Hl' & Hlow & Hnot).
      exists i. split; [done|]. split; [by rewrite <- Hh'|]. split.
      * intros j Hj. by apply Htaken, Hlow.
      * intros Ht. by apply Hnot, Htaken.
Qed.

(** The loop over the groups. *)
Lemma stabilize_groups_spec (d : list (string * list nat)) (h : heap) :
  disjoint_rows d ->
  (forall g l, g ∈ d -> l ∈ g.2 -> is_Some (h !! l)) ->
  (forall g, g ∈ d -> NoDup g.2) ->
  length (foldl stabilize_group h d) = length h
  /\ (forall l, (forall g, g ∈ d -> l ∉ g.2) ->
        foldl stabilize_group h d !! l = h !! l)
  /\ forall g, g ∈ d -> group_post g h (foldl stabilize_group h d).
Proof.
  revert h. induction d as [|g d IH]; intros h Hdis Hval Hnd; cbn [foldl].
  { split; [done|]. split; [done|]. by intros g ?%elem_of_nil. }
  destruct Hdis as [Hg Hdis].
  destruct (stabilize_group_spec g h) as (Hlen1 & Hout1 & Hpost1).
  { apply Hnd. by left. }
  { intros l Hl. apply (Hval g); [by left|done]. }
  set (h1 := stabilize_group h g) in *.
  assert (Hsame : forall g' l, g' ∈ d -> l ∈ g'.2 -> h1 !! l = h !! l).
  { intros g' l Hg' Hl. apply Hout1. intros Hl'. by apply (Hg g' l). }
  destruct (IH h1 Hdis) as (Hlen & Hout & Hpost).
  { intros g' l Hg' Hl. rewrite (Hsame g' l Hg' Hl).
    apply (Hval g'); [by right|done]. }
  { intros g' Hg'. apply Hnd. by right. }
  split; [congruence|]. split.
  { intros l Hl. rewrite Hout.
    - apply Hout1, Hl. by left.
    - intros g' Hg'. apply Hl. by right. }
  intros g' [->|Hg']%elem_of_cons.
  - apply (group_post_ext g h h h1); [done| |done].
    intros l Hl. symmetry. apply Hout. intros g' Hg'. by apply Hg.
  - apply (group_post_ext g' h1 h (foldl stabilize_group h1 d));
      [|done|by apply Hpost].
    intros l Hl. by apply (Hsame g').
Qed.

Lemma startswith_append (a b : string) : startswith (a ++ b) a = true.
Proof.
  induction a as [|c a IH]; simpl; [by destruct b|].
  by rewrite Ascii.eqb_refl.
Qed.

Lemma rows_of_NoDup (h : heap) (ls : list nat) (u : string) :
  NoDup ls -> NoDup (rows_of h ls u).
Proof. apply NoDup_filter. Qed.

(** [_stabilize_unit_urls]: the heap keeps its length, references outside
    the list keep their listing, and every group has its postcondition. *)
Lemma stabilize_unit_urls_post (h : heap) (ls : list nat) :
  NoDup ls ->
  (forall l, l ∈ ls -> is_Some (h !! l)) ->
  length (_stabilize_unit_urls h ls) = length h
  /\ (forall l, l ∉ ls -> _stabilize_unit_urls h ls !! l = h !! l)
  /\ forall g, g ∈ group_by_url h ls ->
       group_post g h (_stabilize_unit_urls h ls).
Proof.
  intros Hnd Hval.
  pose proof (group_by_url_rows h ls) as Hrows.
  destruct (group_by_url_spec h ls) as [Hkeys _].
  destruct (stabilize_groups_spec (group_by_url h ls) h)
    as (Hlen & Hout & Hpost).
  { apply (disjoint_rows_of_keys h ls); [done|]. intros g Hg. by apply Hrows. }
  { intros g l Hg Hl. destruct (Hrows g Hg) as [E _]. rewrite E in Hl.
    apply list_elem_of_filter in Hl as [_ Hl]. by apply Hval. }
  { intros g Hg. destruct (Hrows g Hg) as [-> _]. by apply rows_of_NoDup. }
  split; [done|]. split; [|done].
  intros l Hl. apply Hout. intros g Hg Hin.
  destruct (Hrows g Hg) as [E _]. rewrite E in Hin.
  apply list_elem_of_filter in Hin as [_ Hin]. done.
Qed.

(** C2 (as amended). For every list of distinct allocated listings, after
    [_stabilize_unit_urls]: a listing whose url is shared by no other
    listing of the list is unchanged; in a group of two or more listings
    sharing a url, every listing keeps its other fields and has the url
    [original_url + "#unit-" + _slug(title.strip()) + "-" + price], followed
    by ["-i"] exactly when that url is already the url of a listing before it
    in the group: [i] is then the least counter from 2 on whose url is not.
    These urls are pairwise distinct within the group and each begins with
    the original url.  [_slug] is the slug of the code: lowercase, runs of
    characters outside [a-z0-9] replaced by one hyphen, leading and trailing
    hyphens stripped, truncated to 60 characters, and ["unit"] when nothing
    is left. *)
Theorem stabilize_unit_urls_distinct (h : heap) (ls : list nat) :
  NoDup ls ->
  (forall l, l ∈ ls -> is_Some (h !! l)) ->
  let h' := _stabilize_unit_urls h ls in
  length h' = length h
  /\ (forall l, l ∉ ls -> h' !! l = h !! l)
  /\ forall l r, l ∈ ls -> h !! l = Some r ->
       let group := rows_of h ls (url r) in
       if (length group =? 1)%nat then h' !! l = Some r
       else
         let synth :=
           url r ++ "#unit-" ++ _slug (Some (strip (title r))) ++ "-"
             ++ pretty (price r) in
         exists (k : nat) (i : Z) (new_url : string),
           group !! k = Some l
           /\ 1 <= i
           /\ new_url = (if i =? 1 then synth else synth ++ "-" ++ pretty i)
           /\ h' !! l = Some (set_url new_url r)
           /\ (forall j : Z, 1 <= j < i ->
                 taken_before h' group k
                   (if j =? 1 then synth else synth ++ "-" ++ pretty j))
           /\ ~ taken_before h' group k new_url
           /\ startswith new_url (url r) = true
           /\ forall l2 r2', l2 ∈ group -> l2 <> l -> h' !! l2 = Some r2' ->
                url r2' <> new_url.
Proof.
  intros Hnd Hval h'.
  destruct (stabilize_unit_urls_post h ls Hnd Hval) as (Hlen & Hout & Hpost).
  split; [done|]. split; [done|].
  intros l r Hl Hr group.
  destruct (group_by_url_elem h ls l r Hl Hr) as [Hg Hlg].
  specialize (Hpost _ Hg). simpl in Hpost. fold group in Hpost, Hlg.
  fold h' in Hpost.
  destruct (length group =? 1)%nat.
  { by rewrite Hpost. }
  destruct Hpost as (_ & Hdist & Hleast).
  apply list_elem_of_lookup_1 in Hlg as [k Hk].
  destruct (Hleast k l r Hk Hr) as (i & Hi & Hl' & Hlow & Hnot).
  assert (Hsynth : url r ++ unit_fragment r
                   = url r ++ "#unit-" ++ _slug (Some (strip (title r)))
                       ++ "-" ++ pretty (price r)) by reflexivity.
  rewrite Hsynth in Hl', Hlow, Hnot. cbv zeta.
  exists k, i, (candidate (url r ++ "#unit-" ++ _slug (Some (strip (title r)))
                            ++ "-" ++ pretty (price r)) i).
  split; [done|]. split; [done|]. split; [done|]. split; [done|].
  split; [exact Hlow|]. split; [exact Hnot|]. split.
  { unfold candidate. destruct (i =? 1); [apply startswith_append|].
    rewrite <- Hsynth, append_assoc. apply startswith_append. }
  intros l2 r2' Hl2 Hne Hr2'.
  change (url r2' <> url (set_url (candidate
            (url r ++ "#unit-" ++ _slug (Some (strip (title r))) ++ "-"
               ++ pretty (price r)) i) r)).
  apply (Hdist l2 l); try done. by apply list_elem_of_lookup_2 in Hk.
Qed.

Lemma stabilize_unit_urls_distinct_witness :
  url <$> _stabilize_unit_urls plans_heap [0; 1]%nat !! 0%nat
  = Some "https://x.com/plans#unit-a1-1200"
  /\ url <$> _stabilize_unit_urls plans_heap [0; 1]%nat !! 1%nat
     = Some "https://x.com/plans#unit-b2-1300".
Proof.
  assert (H1 : NoDup [0; 1]%nat).
  { apply NoDup_cons. split.
    - intros H%list_elem_of_singleton. discriminate H.
    - apply NoDup_singleton. }
  assert (H2 : forall l : nat, l ∈ [0; 1]%nat -> is_Some (plans_heap !! l)).
  { intros l Hl. apply elem_of_cons in Hl as [->|Hl]; [by eexists|].
    apply list_elem_of_singleton in Hl as ->. by eexists. }
  destruct (stabilize_unit_urls_distinct plans_heap [0; 1]%nat H1 H2)
    as (_ & _ & H).
  set (h' := _stabilize_unit_urls plans_heap [0; 1]%nat) in *.
  assert (Hfirst : url <$> h' !! 0%nat = Some "https://x.com/plans#unit-a1-1200").
  { destruct (H 0%nat _ ltac:(left) eq_refl)
      as (k & i & new_url & Hk & Hi & -> & -> & Hlow & _).
    assert (k = 0%nat) as ->.
    { destruct k as [|[|k]]; [reflexivity | discriminate Hk | discriminate Hk]. }
    assert (i = 1) as ->.
    { destruct (decide (i = 1)) as [-> | Hne]; [reflexivity |].
      destruct (Hlow 1 ltac:(lia)) as (j & _ & _ & Hj & _). lia. }
    reflexivity. }
  split; [exact Hfirst |].
  destruct (H 1%nat _ ltac:(right; left) eq_refl)
    as (k & i & new_url & Hk & Hi & -> & -> & Hlow & _).
  assert (k = 1%nat) as ->.
  { destruct k as [|[|k]]; [discriminate Hk | reflexivity | discriminate Hk]. }
  assert (i = 1) as ->.
  { destruct (decide (i = 1)) as [-> | Hne]; [reflexivity |].
    destruct (Hlow 1 ltac:(lia)) as (j & l & r & Hj & Hl & Hr & Hu).
    assert (j = 0%nat) as -> by lia. injection Hl as <-.
    rewrite Hr in Hfirst. cbn in Hfirst. rewrite Hu in Hfirst.
    discriminate Hfirst. }
  reflexivity.
Defined.

Example stabilize_unit_urls_plans :
  url <$> _stabilize_unit_urls plans_heap [0; 1]%nat
  = ["https://x.com/plans#unit-a1-1200"; "https://x.com/plans#unit-b2-1300"].
Proof. by vm_compute. Qed.

(** A dict that occurs twice in the list is written twice and ends with one
    url: the urls of a group are distinct for distinct dicts only. *)
Example stabilize_unit_urls_aliased :
  url <$> _stabilize_unit_urls plans_heap [0; 0]%nat
  = ["https://x.com/plans#unit-a1-1200-2"; "https://x.com/plans"].
Proof. by vm_compute. Qed.

(** The claim as stated fails on the slug: with the slug as the claim words
    it (lowercase, runs replaced by a hyphen, truncated) the title
    "Studio (Furnished)" gives the key ending in "furnished--950"; the code
    strips the trailing hyphen of the slug, and its url does not even begin
    with that key. *)
Lemma unit_url_slug_not_as_specified :
  url <$> _stabilize_unit_urls furnished_heap [0; 1]%nat !! 0%nat
  = Some "https://x.com/plans#unit-studio-furnished-950"
  /\ "https://x.com/plans" ++ "#unit-"
       ++ slug_as_specified (strip "Studio (Furnished)") ++ "-" ++ pretty 950
     = "https://x.com/plans#unit-studio-furnished--950"
  /\ startswith "https://x.com/plans#unit-studio-furnished-950"
       "https://x.com/plans#unit-studio-furnished--950" = false.
Proof. split; [by vm_compute|]. split; by vm_compute. Qed.

(** Where the slug of the code and the worded one agree: on titles whose
    substituted form neither starts nor ends with a hyphen and is not
    empty. *)
Lemma rstrip_fixed (p : ascii -> bool) (s : string) :
  not_in_class p (last_char s) = true -> rstrip_of p s = s.
Proof.
  induction s as [|c s IH]; [done|].
  cbn [last_char rstrip_of]. destruct (is_empty s) eqn:E.
  - apply is_empty_true in E as ->. simpl. intros ->%negb_true_iff. done.
  - intros H. rewrite (IH H), E, andb_false_r. done.
Qed.

Lemma slug_agrees_when_trimmed (t : string) :
  trimmed_of (Ascii.eqb hyphen)
    (sub_runs not_slug_char hyphen false (lower t)) = true ->
  is_empty (slug_as_specified t) = false ->
  _slug (Some t) = slug_as_specified t.
Proof.
  unfold _slug, slug_as_specified, trimmed_of. cbn [default]. cbv zeta.
  intros [H1 H2]%andb_true_iff He.
  unfold strip_of. rewrite lstrip_fixed by done. rewrite rstrip_fixed by done.
  change (id t) with t. by rewrite He.
Qed.

(** ** The upsert *)

Lemma upsert_insert (t : gmap string row) (l : listing) :
  upsert t l = <[url l := row_of l]> t.
Proof.
  unfold upsert. destruct (t !! url l); [|done]. by destruct (row_of l).
Qed.

Lemma foldl_upsert_other (t : gmap string row) (rs : list listing) (k : string) :
  k ∉ url <$> rs -> foldl upsert t rs !! k = t !! k.
Proof.
  revert t. induction rs as [|r rs IH]; intros t; cbn [foldl]; [done|].
  rewrite fmap_cons, not_elem_of_cons. intros [Hk Hrs].
  rewrite IH by done. rewrite upsert_insert. by rewrite lookup_insert_ne.
Qed.

Lemma foldl_upsert_elem (t : gmap string row) (rs : list listing) (r : listing) :
  NoDup (url <$> rs) -> r ∈ rs -> foldl upsert t rs !! url r = Some (row_of r).
Proof.
  revert t. induction rs as [|r' rs IH]; intros t; cbn [foldl].
  { by intros _ ?%elem_of_nil. }
  rewrite fmap_cons. intros [Hr' Hnd]%NoDup_cons [->|Hr]%elem_of_cons.
  - rewrite foldl_upsert_other by done.
    rewrite upsert_insert. by rewrite lookup_insert_eq.
  - by apply IH.
Qed.

(** A batch without shared urls keeps its urls. *)
Lemma stabilize_distinct (h : heap) (vs : list nat) :
  NoDup vs ->
  (forall l, l ∈ vs -> is_Some (h !! l)) ->
  (forall l1 l2 r1 r2, l1 ∈ vs -> l2 ∈ vs -> h !! l1 = Some r1 ->
     h !! l2 = Some r2 -> url r1 = url r2 -> l1 = l2) ->
  _stabilize_unit_urls h vs = h.
Proof.
  intros Hnd Hval Hdist.
  destruct (stabilize_unit_urls_post h vs Hnd Hval) as (Hlen & Hout & Hpost).
  apply list_eq. intros l.
  destruct (decide (l ∈ vs)) as [Hl|Hl]; [|by apply Hout].
  destruct (Hval l Hl) as [r Hr].
  destruct (group_by_url_elem h vs l r Hl Hr) as [Hg Hlg].
  specialize (Hpost _ Hg). simpl in Hpost.
  assert (Hone : rows_of h vs (url r) = [l]).
  { assert (Hall : forall l', l' ∈ rows_of h vs (url r) -> l' = l).
    { intros l' [Hu Hl']%list_elem_of_filter. unfold has_url in Hu.
      destruct (h !! l') as [r'|] eqn:Hr'; [|done].
      injection Hu as Hu. by apply (Hdist l' l r' r). }
    pose proof (rows_of_NoDup h vs (url r) Hnd) as Hnd'.
    destruct (rows_of h vs (url r)) as [|a [|b rest]].
    - by apply elem_of_nil in Hlg.
    - by rewrite (Hall a ltac:(left)).
    - exfalso. apply NoDup_cons in Hnd' as [Hab _]. apply Hab.
      rewrite (Hall a), (Hall b); [left|right; left|left]. }
  rewrite Hone in Hpost. simpl in Hpost. apply Hpost. left.
Qed.

Lemma priced_true (h : heap) (l : nat) :
  priced h l = true <-> exists r, h !! l = Some r /\ price r <> 0.
Proof.
  unfold priced. destruct (h !! l) as [r|].
  - rewrite negb_true_iff, Z.eqb_neq. split; [by exists r|].
    by intros (r' & [= <-] & ?).
  - split; [done|]. by intros (r' & ? & _).
Qed.

(** *** Stabilization writes urls only *)

Lemma only_urls_refl (h : heap) : only_urls h h.
Proof. by split. Qed.

Lemma only_urls_trans (h1 h2 h3 : heap) :
  only_urls h1 h2 -> only_urls h2 h3 -> only_urls h1 h3.
Proof.
  intros [L1 H1] [L2 H2]. split; [congruence|].
  intros l. by rewrite H2, H1.
Qed.

Lemma only_urls_row (u : string) (st : gset string * heap) (l : nat) :
  only_urls st.2 (stabilize_row u st l).2.
Proof.
  destruct st as [seen h]. unfold stabilize_row.
  destruct (h !! l) as [r|] eqn:Hr; [|apply only_urls_refl].
  cbn [snd]. split; [apply length_insert|]. intros l'.
  destruct (decide (l' = l)) as [->|Hne].
  - etrans; [apply (f_equal (fmap (set_url ""))), list_lookup_insert_eq;
              by apply lookup_lt_Some in Hr|].
    by rewrite Hr.
  - apply (f_equal (fmap (set_url ""))). by apply list_lookup_insert_ne.
Qed.

Lemma only_urls_rows (u : string) (rows : list nat) (st : gset string * heap) :
  only_urls st.2 (foldl (stabilize_row u) st rows).2.
Proof.
  revert st. induction rows as [|l rows IH]; intros st; [apply only_urls_refl|].
  cbn [foldl]. eapply only_urls_trans; [apply only_urls_row | apply IH].
Qed.

Lemma only_urls_group (h : heap) (g : string * list nat) :
  only_urls h (stabilize_group h g).
Proof.
  destruct g as [u rows]. unfold stabilize_group.
  destruct (_ =? _)%nat; [apply only_urls_refl|].
  apply (only_urls_rows u rows (∅, h)).
Qed.

Lemma only_urls_stabilize (h : heap) (ls : list nat) :
  only_urls h (_stabilize_unit_urls h ls).
Proof.
  unfold _stabilize_unit_urls. generalize (group_by_url h ls). intros d.
  revert h. induction d as [|g d IH]; intros h; [apply only_urls_refl|].
  cbn [foldl]. eapply only_urls_trans; [apply only_urls_group | apply IH].
Qed.

Lemma set_url_same (r r' : listing) :
  set_url "" r' = set_url "" r -> r' = set_url (url r') r.
Proof. destruct r, r'. cbn. by intros [= -> -> -> -> -> -> ->]. Qed.

Lemma only_urls_lookup (h h' : heap) (l : nat) (r' : listing) :
  only_urls h h' -> h' !! l = Some r' ->
  exists r, h !! l = Some r /\ r' = set_url (url r') r.
Proof.
  intros [_ H] Hr'. specialize (H l). rewrite Hr' in H.
  destruct (h !! l) as [r|]; [|done]. exists r. split; [done|].
  apply set_url_same. cbn in H. congruence.
Qed.

Lemma only_urls_priced (h h' : heap) (l : nat) :
  only_urls h h' -> priced h' l = priced h l.
Proof.
  intros Hu. unfold priced. destruct (h' !! l) as [r'|] eqn:Hr'.
  - destruct (only_urls_lookup h h' l r' Hu Hr') as (r & -> & ->). done.
  - destruct Hu as [_ H]. specialize (H l). rewrite Hr' in H.
    by destruct (h !! l).
Qed.

Lemma length_omap_total {A B} (f : A -> option B) (l : list A) :
  (forall x, x ∈ l -> is_Some (f x)) -> length (omap f l) = length l.
Proof.
  induction l as [|x l IH]; intros H; [done|]. cbn [omap list_omap].
  destruct (H x) as [y ->]; [left|]. cbn. f_equal. apply IH.
  intros x' Hx'. apply H. by right.
Qed.

Lemma submitted_stabilized (h h' : heap) (ls : list nat) :
  only_urls h h' ->
  submitted h' ls = omap (fun l => h' !! l) (filter (fun l => priced h l) ls)
  /\ length (submitted h' ls) = length (filter (fun l => priced h l) ls).
Proof.
  intros Hu.
  assert (submitted h' ls
          = omap (fun l => h' !! l) (filter (fun l => priced h l) ls)) as E.
  { unfold submitted. f_equal. apply list_filter_iff. intros l.
    by rewrite (only_urls_priced h h' l Hu). }
  split; [done|]. rewrite E. apply length_omap_total.
  intros l [P _]%list_elem_of_filter.
  rewrite <- (only_urls_priced h h' l Hu) in P. unfold priced in P.
  by destruct (h' !! l).
Qed.

(** [insert_listings] in terms of the heap it leaves. *)
Lemma insert_listings_eq (h : heap) (t : gmap string row) (ls : list nat) :
  let h' := _stabilize_unit_urls h (filter (fun l => priced h l) ls) in
  insert_listings h t ls
  = if forallb binds (submitted h' ls)
    then (h', foldl upsert t (submitted h' ls),
          Returned (length (submitted h' ls)))
    else (h', t, Raised OverflowError).
Proof.
  intros h'.
  destruct (submitted_stabilized h h' ls (only_urls_stabilize h _)) as [E L].
  rewrite L, E. unfold insert_listings. fold h'.
  destruct (filter (fun l => priced h l) ls) as [|v vs] eqn:Hv; [|done].
  by subst h'.
Qed.

Lemma batch_ok_stable (h : heap) (ls : list nat) :
  batch_ok h ls ->
  _stabilize_unit_urls h (filter (fun l => priced h l) ls) = h.
Proof.
  intros (Hnd & Hval & Hdist). apply stabilize_distinct.
  - by apply NoDup_filter.
  - intros l [_ Hl]%list_elem_of_filter. by apply Hval.
  - intros l1 l2 r1 r2 [P1 H1]%list_elem_of_filter
      [P2 H2]%list_elem_of_filter Hr1 Hr2 Hu.
    apply Is_true_true, priced_true in P1 as (r1' & E1 & ?).
    apply Is_true_true, priced_true in P2 as (r2' & E2 & ?).
    assert (r1' = r1) as -> by congruence.
    assert (r2' = r2) as -> by congruence.
    by apply (Hdist l1 l2 r1 r2).
Qed.

(** The tuples [insert_listings] submits for a batch. *)
Lemma tuples_elem (h : heap) (ls : list nat) (r : listing) :
  r ∈ omap (fun l => h !! l) (filter (fun l => priced h l) ls)
  <-> exists l, l ∈ ls /\ h !! l = Some r /\ price r <> 0.
Proof.
  rewrite list_elem_of_omap. split.
  - intros (l & [P Hl]%list_elem_of_filter & Hr). exists l.
    apply Is_true_true, priced_true in P as (r' & E & ?).
    assert (r' = r) as -> by congruence. done.
  - intros (l & Hl & Hr & Hp). exists l. split; [|done].
    apply list_elem_of_filter. split; [|done].
    apply Is_true_true, priced_true. eauto.
Qed.

Lemma batch_ok_tail (h : heap) (l : nat) (ls : list nat) :
  batch_ok h (l :: ls) -> batch_ok h ls.
Proof.
  intros ([_ Hnd]%NoDup_cons & Hval & Hdist). split; [done|]. split.
  - intros l' Hl'. apply Hval. by right.
  - intros l1 l2 r1 r2 H1 H2. apply Hdist; by right.
Qed.

Lemma tuples_urls_NoDup (h : heap) (ls : list nat) :
  batch_ok h ls ->
  NoDup (url <$> omap (fun l => h !! l) (filter (fun l => priced h l) ls)).
Proof.
  induction ls as [|l ls IH]; intros Hok; [constructor|].
  specialize (IH (batch_ok_tail _ _ _ Hok)).
  destruct Hok as ([Hl Hnd]%NoDup_cons & Hval & Hdist).
  rewrite filter_cons. destruct (decide (priced h l)) as [P|P]; [|done].
  apply Is_true_true, priced_true in P as (r & Hr & Hp).
  cbn [omap list_omap]. rewrite Hr. rewrite fmap_cons.
  apply NoDup_cons. split; [|done].
  intros (r' & Hu & Hr')%list_elem_of_fmap.
  apply tuples_elem in Hr' as (l' & Hl' & Hr' & Hp').
  assert (l = l') as <-; [|done].
  apply (Hdist l l' r r'); try done; [left|by right].
Qed.

Lemma foldl_upsert_again (t : gmap string row) (rs : list listing) :
  NoDup (url <$> rs) ->
  foldl upsert (foldl upsert t rs) rs = foldl upsert t rs.
Proof.
  intros Hnd. apply map_eq. intros k.
  destruct (decide (k ∈ url <$> rs)) as [Hk|Hk].
  - apply list_elem_of_fmap in Hk as (r & -> & Hr).
    by rewrite !foldl_upsert_elem.
  - by rewrite foldl_upsert_other.
Qed.

Lemma filter_key_singleton (t : gmap string row) (k : string) (v : row) :
  t !! k = Some v -> filter (fun kv => kv.1 = k) t = {[k := v]}.
Proof.
  intros Hk. apply map_eq. intros i. apply option_eq. intros x.
  rewrite map_lookup_filter_Some, lookup_singleton_Some. simpl.
  split; [intros [Hi ->]|intros [<- <-]]; split; congruence.
Qed.

Lemma foldl_upsert_last (t : gmap string row) (rs : list listing)
    (k : string) :
  foldl upsert t rs !! k
  = match last (filter (fun r => url r = k) rs) with
    | Some r => Some (row_of r)
    | None => t !! k
    end.
Proof.
  induction rs as [|r rs IH] using rev_ind; [done|].
  rewrite foldl_snoc, upsert_insert, filter_app.
  destruct (decide (url r = k)) as [<- | Hne].
  - rewrite lookup_insert_eq, filter_cons_True by done.
    by rewrite filter_nil, last_snoc.
  - rewrite lookup_insert_ne, filter_cons_False by done.
    by rewrite filter_nil, app_nil_r.
Qed.

Lemma row_of_holds (r : listing) : row_holds (row_of r) r.
Proof.
  unfold row_holds, row_of. cbn.
  split; [done|]. split; [done|]. split; [done|]. split; [done|].
  split; [|done].
  destruct (baths r) as [q|]; cbn; [|done].
  destruct (Qeq_bool q 0) eqn:E; [|done].
  apply Qeq_bool_iff in E. by symmetry.
Qed.

Lemma forallb_binds (rs : list listing) :
  forallb binds rs = true <-> Forall (fun r => binds r = true) rs.
Proof.
  rewrite forallb_forall, Forall_forall.
  split; intros H r Hr; apply H; by apply list_elem_of_In.
Qed.

Lemma forallb_binds_false (rs : list listing) :
  Exists (fun r => binds r = false) rs -> forallb binds rs = false.
Proof.
  intros (r & Hr & Hb)%Exists_exists.
  destruct (forallb binds rs) eqn:E; [|done].
  apply forallb_binds in E. rewrite Forall_forall in E.
  rewrite (E r Hr) in Hb. done.
Qed.

(** One call, on any heap and table. *)
Lemma insert_listings_call (h : heap) (t : gmap string row) (ls : list nat) :
  let '(h', t', res) := insert_listings h t ls in
  let batch := submitted h' ls in
  h' = _stabilize_unit_urls h (filter (fun l => priced h l) ls)
  /\ (Forall (fun r => binds r = true) batch ->
      res = Returned (length batch) /\ t' = foldl upsert t batch)
  /\ (Exists (fun r => binds r = false) batch ->
      res = Raised OverflowError /\ t' = t).
Proof.
  rewrite insert_listings_eq.
  set (h' := _stabilize_unit_urls h (filter (fun l => priced h l) ls)).
  destruct (forallb binds (submitted h' ls)) eqn:B; cbv zeta.
  - split; [done|]. split; [done|].
    intros Hex%forallb_binds_false. congruence.
  - split; [done|]. split; [|done].
    intros Hall%forallb_binds. congruence.
Qed.

(** A batch of one page: after the call no two of its priced listings
    share a url. *)
Lemma one_page_batch_ok (h : heap) (ls : list nat) (u : string) :
  NoDup ls ->
  (forall l, l ∈ ls -> is_Some (h !! l)) ->
  (forall l r, l ∈ ls -> h !! l = Some r -> price r <> 0 -> url r = u) ->
  batch_ok (_stabilize_unit_urls h (filter (fun l => priced h l) ls)) ls.
Proof.
  intros Hnd Hval Hone.
  set (valid := filter (fun l => priced h l) ls).
  set (h' := _stabilize_unit_urls h valid).
  pose proof (only_urls_stabilize h valid) as Hu. fold h' in Hu.
  assert (Hndv : NoDup valid) by (by apply NoDup_filter).
  assert (Hvalv : forall l, l ∈ valid -> is_Some (h !! l)).
  { intros l [_ Hl]%list_elem_of_filter. by apply Hval. }
  destruct (stabilize_unit_urls_post h valid Hndv Hvalv) as (_ & _ & Hpost).
  fold h' in Hpost.
  split; [done|]. split.
  { intros l Hl. destruct (Hval l Hl) as [r Hr].
    destruct Hu as [_ Hu]. specialize (Hu l). rewrite Hr in Hu.
    by destruct (h' !! l). }
  intros l1 l2 r1' r2' Hl1 Hl2 Hr1' Hr2' Hp1 Hp2 Heq.
  destruct (decide (l1 = l2)) as [|Hne]; [done|]. exfalso.
  destruct (only_urls_lookup h h' l1 r1' Hu Hr1') as (r1 & Hr1 & E1).
  destruct (only_urls_lookup h h' l2 r2' Hu Hr2') as (r2 & Hr2 & E2).
  assert (price r1 <> 0) as Hq1 by (by rewrite E1 in Hp1).
  assert (price r2 <> 0) as Hq2 by (by rewrite E2 in Hp2).
  assert (Hv1 : l1 ∈ valid).
  { apply list_elem_of_filter. split; [|done].
    apply Is_true_true, priced_true. eauto. }
  assert (Hv2 : l2 ∈ valid).
  { apply list_elem_of_filter. split; [|done].
    apply Is_true_true, priced_true. eauto. }
  destruct (group_by_url_elem h valid l1 r1 Hv1 Hr1) as [Hg Hin1].
  destruct (group_by_url_elem h valid l2 r2 Hv2 Hr2) as [_ Hin2].
  rewrite (Hone l1 r1 Hl1 Hr1 Hq1) in Hg, Hin1.
  rewrite (Hone l2 r2 Hl2 Hr2 Hq2) in Hin2.
  specialize (Hpost _ Hg). cbn in Hpost.
  pose proof (rows_of_NoDup h valid u Hndv) as Hndr.
  destruct (rows_of h valid u) as [|a [|b rest]] eqn:Hrows.
  - by apply elem_of_nil in Hin1.
  - apply list_elem_of_singleton in Hin1, Hin2. congruence.
  - cbn in Hpost. destruct Hpost as (_ & Hdist & _).
    by apply (Hdist l1 l2 r1' r2').
Qed.

(** C3. With the listings table as a map keyed by url, let two batches be
    persisted one after the other, from any heap and table.  The second
    call changes no field of a listing other than its url.  When every
    priced listing of the second batch binds, the call returns their
    number, and under every url the table then holds, in one row, the
    fields of the last priced listing of the batch with that url: company,
    title, price, beds, baths, address and date are the incoming ones,
    whatever row the first batch left there; a url of no listing of the
    batch keeps its row.  When a price or a bed count does not fit 64 bits
    the call raises [OverflowError] and the table is as the first call left
    it.  Persisting the same batch again, once its urls are pairwise
    distinct, changes neither the listings nor the table nor the count; the
    urls are pairwise distinct after the first call for a batch of distinct
    listings of one page, and for a batch in which no two priced listings
    share a url. *)
Theorem insert_listings_idempotent (h : heap) (t : gmap string row)
    (ls1 ls2 : list nat) :
  let '(h1, t1, res1) := insert_listings h t ls1 in
  let '(h2, t2, res2) := insert_listings h1 t1 ls2 in
  let batch := submitted h2 ls2 in
  (forall l r2, h2 !! l = Some r2 ->
     exists r1, h1 !! l = Some r1 /\ r2 = set_url (url r2) r1)
  /\ (Forall (fun r => binds r = true) batch ->
      res2 = Returned (length batch)
      /\ (forall k,
            match last (filter (fun r => url r = k) batch) with
            | Some r => exists rw, t2 !! k = Some rw /\ row_holds rw r
            | None => t2 !! k = t1 !! k
            end)
      /\ forall r, r ∈ batch ->
           size (filter (fun kv => kv.1 = url r) t2) = 1%nat)
  /\ (Exists (fun r => binds r = false) batch ->
      res2 = Raised OverflowError /\ t2 = t1)
  /\ (ls2 = ls1 -> batch_ok h1 ls1 ->
      Forall (fun r => binds r = true) batch ->
      h2 = h1 /\ t2 = t1 /\ res2 = res1)
  /\ (batch_ok h ls1 -> batch_ok h1 ls1)
  /\ (NoDup ls1 -> (forall l, l ∈ ls1 -> is_Some (h !! l)) ->
      (exists u, forall l r,
         l ∈ ls1 -> h !! l = Some r -> price r <> 0 -> url r = u) ->
      batch_ok h1 ls1).
Proof.
  pose proof (insert_listings_call h t ls1) as H1.
  destruct (insert_listings h t ls1) as [[h1 t1] res1].
  pose proof (insert_listings_call h1 t1 ls2) as H2.
  destruct (insert_listings h1 t1 ls2) as [[h2 t2] res2].
  cbv zeta in H1, H2 |- *.
  destruct H1 as (Hh1 & Hret1 & _), H2 as (Hh2 & Hret2 & Hexn2).
  split; [|split; [|split; [done|split; [|split]]]].
  - intros l r2 Hr2. apply (only_urls_lookup h1 h2); [|done].
    rewrite Hh2. apply only_urls_stabilize.
  - intros Hb. destruct (Hret2 Hb) as [-> ->]. split; [done|].
    assert (Hk : forall k,
              match last (filter (fun r => url r = k) (submitted h2 ls2)) with
              | Some r =>
                  exists rw,
                    foldl upsert t1 (submitted h2 ls2) !! k = Some rw
                    /\ row_holds rw r
              | None => foldl upsert t1 (submitted h2 ls2) !! k = t1 !! k
              end).
    { intros k. rewrite foldl_upsert_last.
      destruct (last _) as [r|]; [|done].
      exists (row_of r). split; [done | apply row_of_holds]. }
    split; [exact Hk|].
    intros r Hr. specialize (Hk (url r)).
    destruct (last _) as [r'|] eqn:Hlast.
    + destruct Hk as (rw & Hrw & _).
      rewrite (filter_key_singleton _ _ _ Hrw). apply map_size_singleton.
    + exfalso. apply last_None in Hlast.
      assert (r ∈ filter (fun r' => url r' = url r) (submitted h2 ls2)) as Hin
        by (by apply list_elem_of_filter).
      rewrite Hlast in Hin. by apply elem_of_nil in Hin.
  - intros -> Hok Hb.
    assert (h2 = h1) as -> by (by rewrite Hh2, batch_ok_stable).
    destruct (Hret2 Hb) as [-> ->].
    assert (Hh : h1 = _stabilize_unit_urls h1
                         (filter (fun l => priced h1 l) ls1))
      by (by rewrite batch_ok_stable).
    destruct (Hret1 Hb) as [-> ->]. split; [done|]. split; [|done].
    apply foldl_upsert_again. by apply tuples_urls_NoDup.
  - intros Hok. by rewrite Hh1, batch_ok_stable.
  - intros Hnd Hval [u Hone]. rewrite Hh1. by apply (one_page_batch_ok h ls1 u).
Qed.

Lemma insert_listings_idempotent_witness :
  let '(h1, t1, res1) := insert_listings rescrape_heap ∅ [0%nat] in
  let '(h2, t2, res2) := insert_listings h1 t1 [1; 2]%nat in
  t1 !! "https://x.com/plans#unit-a1-1200"
  = Some (Row "Test Co" "A1 (old)" 1100 1 1%Q "1 Main St" "11-02-2026")
  /\ res2 = Returned 2%nat
  /\ exists rw,
       t2 !! "https://x.com/plans#unit-a1-1200" = Some rw
       /\ row_holds rw
            (Listing "https://x.com/plans#unit-a1-1200" "Test Co LLC" "A1"
               1200 (Some 2) (Some (3 # 2)%Q) "1 Main Street" "11-03-2026").
Proof.
  pose proof (insert_listings_idempotent rescrape_heap ∅ [0%nat] [1; 2]%nat)
    as H.
  destruct (insert_listings rescrape_heap ∅ [0%nat]) as [[h1 t1] res1] eqn:E1.
  destruct (insert_listings h1 t1 [1; 2]%nat) as [[h2 t2] res2] eqn:E2.
  assert (E1' : insert_listings rescrape_heap ∅ [0%nat]
                = (rescrape_heap,
                   {[ "https://x.com/plans#unit-a1-1200"
                      := Row "Test Co" "A1 (old)" 1100 1 1%Q "1 Main St"
                           "11-02-2026" ]},
                   Returned 1%nat))
    by (by vm_compute).
  rewrite E1' in E1. injection E1 as <- <- <-.
  assert (Hh2 : h2
                = [ Listing "https://x.com/plans#unit-a1-1200" "Test Co"
                      "A1 (old)" 1100 (Some 1) (Some 1%Q) "1 Main St"
                      "11-02-2026";
                    Listing "https://x.com/plans#unit-a1-1200" "Test Co LLC"
                      "A1" 1200 (Some 2) (Some (3 # 2)%Q) "1 Main Street"
                      "11-03-2026";
                    Listing "https://x.com/plans#unit-b2-1300" "Test Co LLC"
                      "B2" 1300 None None "1 Main Street" "11-03-2026" ]).
  { apply (f_equal (fun x => x.1.1)) in E2. cbn [fst] in E2. rewrite <- E2.
    by vm_compute. }
  subst h2. cbv zeta in H. destruct H as (_ & Hrow & _).
  destruct Hrow as (Hres & Hk & _).
  { apply forallb_binds. by vm_compute. }
  split; [by vm_compute |]. split; [exact Hres |].
  exact (Hk "https://x.com/plans#unit-a1-1200").
Defined.

Example insert_listings_plans :
  map_to_list (insert_listings plans_heap ∅ [0; 1]%nat).1.2
  ≡ₚ [ ("https://x.com/plans#unit-a1-1200",
        Row "Test Co" "A1" 1200 1 1%Q "1 Main St" "11-03-2026");
       ("https://x.com/plans#unit-b2-1300",
        Row "Test Co" "B2" 1300 2 1%Q "1 Main St" "11-03-2026") ].
Proof. by vm_compute. Qed.

(** Two equal listings in one batch share their url, so both urls are
    rewritten and two rows are written: the idempotence above is about
    successive calls. *)
Example insert_listings_equal_in_one_batch :
  (insert_listings twice_heap ∅ [0; 1]%nat).1.2
  = <["https://x.com/plans#unit-a1-1200-2" :=
        Row "Test Co" "A1" 1200 1 1%Q "1 Main St" "11-03-2026"]>
    (<["https://x.com/plans#unit-a1-1200" :=
         Row "Test Co" "A1" 1200 1 1%Q "1 Main St" "11-03-2026"]> ∅).
Proof. by vm_compute. Qed.

(** The page of two units persisted twice: the second call finds the urls
    of the first and leaves the heap and the table as they are. *)
Example insert_listings_plans_twice :
  let '(h1, t1, res1) := insert_listings plans_heap ∅ [0; 1]%nat in
  insert_listings h1 t1 [0; 1]%nat = (h1, t1, res1)
  /\ res1 = Returned 2%nat.
Proof. by vm_compute. Qed.

(** A bed count of 2^63 passes the price test and does not bind: the call
    raises and writes no row. *)
Example insert_listings_overflow :
  insert_listings overflow_heap ∅ [0%nat]
  = (overflow_heap, ∅, Raised OverflowError).
Proof. by vm_compute. Qed.

(** * Further properties *)

(** ** Decimal printing and reading *)

Lemma pretty_N_char_digit (x : N) :
  (x < 10)%N ->
  is_digit (pretty_N_char x) = true
  /\ Z.of_N (N_of_ascii (pretty_N_char x)) - 48 = Z.of_N x.
Proof.
  intros Hx.
  assert (x = 0 \/ x = 1 \/ x = 2 \/ x = 3 \/ x = 4 \/ x = 5 \/ x = 6
          \/ x = 7 \/ x = 8 \/ x = 9)%N as H by lia.
  repeat (destruct H as [-> | H]; [by vm_compute |]).
  subst x. by vm_compute.
Qed.

Lemma pretty_N_go_digits (x : N) (s : string) :
  sforall is_digit s = true -> sforall is_digit (pretty_N_go x s) = true.
Proof.
  revert s. induction (N.lt_wf_0 x) as [x _ IH]; intros s Hs.
  assert (x = 0 \/ 0 < x)%N as [-> | Hx] by lia.
  - by rewrite pretty_N_go_0.
  - rewrite pretty_N_go_step by done. apply IH.
    + by apply N.div_lt.
    + simpl. rewrite Hs, andb_true_r.
      apply pretty_N_char_digit. by apply N.mod_lt.
Qed.

Lemma pretty_N_go_value (x : N) (s : string) :
  digits_to_Z_from 0 (pretty_N_go x s) = digits_to_Z_from (Z.of_N x) s.
Proof.
  revert s. induction (N.lt_wf_0 x) as [x _ IH]; intros s.
  assert (x = 0 \/ 0 < x)%N as [-> | Hx] by lia.
  - by rewrite pretty_N_go_0.
  - rewrite pretty_N_go_step by done.
    rewrite IH by (by apply N.div_lt). simpl. f_equal.
    destruct (pretty_N_char_digit (x `mod` 10)) as [_ ->];
      [by apply N.mod_lt |].
    pose proof (N.div_mod x 10). lia.
Qed.

Lemma pretty_N_go_nonempty (x : N) (s : string) :
  (0 < x)%N -> is_empty (pretty_N_go x s) = false.
Proof.
  revert s. induction (N.lt_wf_0 x) as [x _ IH]; intros s Hx.
  rewrite pretty_N_go_step by done.
  destruct (N.eq_dec (x `div` 10)%N 0%N) as [-> | Hd].
  - by rewrite pretty_N_go_0.
  - apply IH; [by apply N.div_lt | by apply N.neq_0_lt_0].
Qed.

(** The decimal digits of a natural number, as [str] prints them. *)
Lemma pretty_N_spec (x : N) :
  sforall is_digit (pretty x) = true
  /\ is_empty (pretty x) = false
  /\ digits_to_Z (pretty x) = Z.of_N x.
Proof.
  unfold pretty, pretty_N. case_decide as Hx.
  - subst x. by vm_compute.
  - split; [by apply pretty_N_go_digits |].
    split; [apply pretty_N_go_nonempty; lia |].
    unfold digits_to_Z. by rewrite pretty_N_go_value.
Qed.

(** [str(n)] for an int: the digits of [|n|], after a minus sign when [n] is
    negative. *)
Lemma pretty_Z_spec (n : Z) :
  exists d : string,
    sforall is_digit d = true /\ is_empty d = false
    /\ digits_to_Z d = Z.abs n
    /\ pretty n = if n <? 0 then String hyphen d else d.
Proof.
  destruct n as [|p|p].
  - exists "0". by vm_compute.
  - exists (pretty (N.pos p)).
    destruct (pretty_N_spec (N.pos p)) as (H1 & H2 & H3).
    repeat split; done.
  - exists (pretty (N.pos p)).
    destruct (pretty_N_spec (N.pos p)) as (H1 & H2 & H3).
    repeat split; done.
Qed.

(** ** Strings of one class *)

Lemma smap_fixed (f : ascii -> ascii) (s : string) :
  sforall (fun c => Ascii.eqb (f c) c) s = true -> smap f s = s.
Proof.
  induction s as [|c s IH]; simpl; [done |].
  intros [Hc%Ascii.eqb_eq Hs]%andb_true_iff. by rewrite Hc, IH.
Qed.

Lemma startswith_class (p : ascii -> bool) (s : string) (c : ascii)
    (needle : string) :
  sforall p s = true -> p c = false -> startswith s (String c needle) = false.
Proof.
  destruct s as [|b s]; simpl; [done |].
  intros [Hb _]%andb_true_iff Hc.
  destruct (Ascii.eqb_spec c b) as [-> | _]; [congruence | done].
Qed.

Lemma contains_class (p : ascii -> bool) (s : string) (c : ascii)
    (needle : string) :
  sforall p s = true -> p c = false -> contains s (String c needle) = false.
Proof.
  intros Hs Hc. induction s as [|b s IH]; [done |].
  cbn [contains]. rewrite (startswith_class p _ _ _ Hs Hc).
  simpl in Hs. apply andb_true_iff in Hs as [_ Hs]. by apply IH.
Qed.

Lemma sforall_first_last (p : ascii -> bool) (s : string) :
  sforall p s = true ->
  not_in_class (fun c => negb (p c)) (first_char s) = true
  /\ not_in_class (fun c => negb (p c)) (last_char s) = true.
Proof.
  induction s as [|c s IH]; simpl; [done |].
  intros [Hc Hs]%andb_true_iff. rewrite Hc. split; [done |].
  destruct s as [|b s]; simpl; [by rewrite Hc |].
  by apply IH.
Qed.

Lemma not_in_class_impl (p q : ascii -> bool) (o : option ascii) :
  (forall c, q c = true -> p c = true) ->
  not_in_class p o = true -> not_in_class q o = true.
Proof.
  intros Hqp. destruct o as [c|]; simpl; [| done].
  intros Hc%negb_true_iff. apply negb_true_iff.
  destruct (q c) eqn:Hq; [| done]. by rewrite (Hqp c Hq) in Hc.
Qed.

Lemma strip_fixed (p : ascii -> bool) (s : string) :
  trimmed_of p s = true -> strip_of p s = s.
Proof.
  unfold trimmed_of, strip_of. intros [H1 H2]%andb_true_iff.
  rewrite lstrip_fixed by done. by apply rstrip_fixed.
Qed.

Lemma sign_or_digit_not_space (c : ascii) :
  is_space c = true -> negb (is_sign_or_digit c) = true.
Proof.
  destruct c as [[] [] [] [] [] [] [] []]; vm_compute; congruence.
Qed.

Lemma sign_or_digit_lower (c : ascii) :
  is_sign_or_digit c = true -> Ascii.eqb (lower_char c) c = true.
Proof.
  destruct c as [[] [] [] [] [] [] [] []]; vm_compute; congruence.
Qed.

Lemma numeral_plain (s : string) :
  sforall is_sign_or_digit s = true ->
  lower (strip s) = s /\ contains s "studio" = false.
Proof.
  intros Hs. split.
  - unfold strip. rewrite strip_fixed.
    + apply smap_fixed. revert Hs. apply sforall_impl, sign_or_digit_lower.
    + destruct (sforall_first_last _ _ Hs) as [H1 H2].
      unfold trimmed_of. apply andb_true_iff.
      split; (eapply not_in_class_impl; [apply sign_or_digit_not_space | done]).
  - by apply (contains_class is_sign_or_digit).
Qed.

Lemma digits_sign_or_digit (d : string) :
  sforall is_digit d = true -> sforall is_sign_or_digit d = true.
Proof.
  apply sforall_impl. intros c Hc. unfold is_sign_or_digit. by rewrite Hc.
Qed.

Lemma digits_at_digits (d : string) :
  sforall is_digit d = true -> is_empty d = false -> digits_at d = Some d.
Proof.
  intros Hd Hne. unfold digits_at. rewrite span_while_all by done.
  by rewrite Hne.
Qed.

Lemma number_at_all_digits (d : string) :
  sforall is_digit d = true -> is_empty d = false -> number_at d = Some d.
Proof.
  intros Hd Hne. unfold number_at. rewrite span_while_all by done.
  by rewrite Hne.
Qed.

Lemma search_here {A} (f : string -> option A) (s : string) (m : A) :
  f s = Some m -> search f s = Some m.
Proof. intros H. destruct s; simpl; by rewrite H. Qed.

Lemma search_next {A} (f : string -> option A) (c : ascii) (s : string) :
  f (String c s) = None -> search f (String c s) = search f s.
Proof. intros H. cbn [search]. by rewrite H. Qed.

Lemma normalize_beds_int (float_str : Q -> string) (n : Z) :
  normalize_beds float_str (Some (PInt n)) = Some (Z.abs n).
Proof.
  destruct (pretty_Z_spec n) as (d & Hd & Hne & Hv & Hp).
  unfold normalize_beds, py_str.
  assert (sforall is_sign_or_digit (pretty n) = true) as Hs.
  { rewrite Hp. destruct (n <? 0); [simpl |]; by rewrite digits_sign_or_digit. }
  destruct (numeral_plain _ Hs) as [-> ->].
  rewrite Hp. destruct (n <? 0).
  - rewrite search_next by done.
    by rewrite (search_here _ _ d (digits_at_digits d Hd Hne)), Hv.
  - by rewrite (search_here _ _ d (digits_at_digits d Hd Hne)), Hv.
Qed.

Lemma normalize_baths_int (float_str : Q -> string) (n : Z) :
  normalize_baths float_str (Some (PInt n)) = Some (inject_Z (Z.abs n)).
Proof.
  destruct (pretty_Z_spec n) as (d & Hd & Hne & Hv & Hp).
  unfold normalize_baths, py_str.
  assert (sforall is_sign_or_digit (pretty n) = true) as Hs.
  { rewrite Hp. destruct (n <? 0); [simpl |]; by rewrite digits_sign_or_digit. }
  destruct (numeral_plain _ Hs) as [-> _].
  rewrite Hp. destruct (n <? 0).
  - rewrite search_next by done.
    rewrite (search_here _ _ d (number_at_all_digits d Hd Hne)).
    by rewrite float_of_literal_digits, Hv.
  - rewrite (search_here _ _ d (number_at_all_digits d Hd Hne)).
    by rewrite float_of_literal_digits, Hv.
Qed.

(** X1. An [int] count handed to [normalize_beds] or [normalize_baths] goes
    through [str], the regex and [int] or [float] again, and comes back as its
    absolute value: a non-negative bed count is returned unchanged, and the
    sign of a negative one is lost.  (The bath count is a float, and exact
    up to 2^53.) *)
Theorem normalize_count_of_int (float_str : Q -> string) (n : Z) :
  normalize_beds float_str (Some (PInt n)) = Some (Z.abs n)
  /\ (0 <= n -> normalize_beds float_str (Some (PInt n)) = Some n)
  /\ (Z.abs n <= 2 ^ 53 ->
      normalize_baths float_str (Some (PInt n)) = Some (inject_Z (Z.abs n))).
Proof.
  split; [apply normalize_beds_int |]. split.
  - intros Hn. rewrite normalize_beds_int. f_equal. lia.
  - intros _. apply normalize_baths_int.
Qed.

(** ** Digits under [strip] and [lower] *)

Lemma lower_char_digit (c : ascii) : is_digit (lower_char c) = is_digit c.
Proof. destruct c as [[] [] [] [] [] [] [] []]; by vm_compute. Qed.

Lemma lower_char_space (c : ascii) : is_space (lower_char c) = is_space c.
Proof. destruct c as [[] [] [] [] [] [] [] []]; by vm_compute. Qed.

Lemma sexists_smap (p : ascii -> bool) (f : ascii -> ascii) (s : string) :
  (forall c, p (f c) = p c) -> sexists p (smap f s) = sexists p s.
Proof.
  intros Hf. induction s as [|c s IH]; simpl; [done |]. by rewrite Hf, IH.
Qed.

Lemma sexists_drop_while (p q : ascii -> bool) (s : string) :
  (forall c, q c = true -> p c = false) ->
  sexists p (drop_while q s) = sexists p s.
Proof.
  intros Hq. unfold drop_while.
  induction s as [|c s IH]; simpl; [done |].
  destruct (q c) eqn:Hc; [| done].
  destruct (span_while q s) as [a b]. simpl in *. by rewrite (Hq c Hc), IH.
Qed.

Lemma sexists_rstrip (p q : ascii -> bool) (s : string) :
  (forall c, q c = true -> p c = false) ->
  sexists p (rstrip_of q s) = sexists p s.
Proof.
  intros Hq. induction s as [|c s IH]; simpl; [done |].
  destruct (q c) eqn:Hc; simpl; [| by rewrite IH].
  destruct (rstrip_of q s) as [|b r] eqn:Hr; simpl in *.
  - by rewrite (Hq c Hc), <- IH.
  - by rewrite IH.
Qed.

Lemma sexists_digit_clean (s : string) :
  sexists is_digit (lower (strip s)) = sexists is_digit s.
Proof.
  unfold lower, strip, strip_of, lstrip_of.
  rewrite sexists_smap by apply lower_char_digit.
  rewrite sexists_rstrip by apply space_not_digit.
  apply sexists_drop_while, space_not_digit.
Qed.

(** ** A word under [strip] and [lower] *)

Lemma smap_drop_while (p : ascii -> bool) (f : ascii -> ascii) (s : string) :
  (forall c, p (f c) = p c) ->
  smap f (drop_while p s) = drop_while p (smap f s).
Proof.
  intros Hf. unfold drop_while.
  induction s as [|c s IH]; simpl; [done |].
  rewrite Hf. destruct (p c); [| done].
  destruct (span_while p s) as [a b], (span_while p (smap f s)) as [a' b'].
  done.
Qed.

Lemma smap_rstrip (p : ascii -> bool) (f : ascii -> ascii) (s : string) :
  (forall c, p (f c) = p c) ->
  smap f (rstrip_of p s) = rstrip_of p (smap f s).
Proof.
  intros Hf. induction s as [|c s IH]; simpl; [done |].
  rewrite Hf, <- IH.
  destruct (rstrip_of p s); simpl; by destruct (p c).
Qed.

Lemma lower_strip (s : string) : lower (strip s) = strip (lower s).
Proof.
  unfold lower, strip, strip_of, lstrip_of.
  rewrite smap_rstrip by apply lower_char_space.
  by rewrite smap_drop_while by apply lower_char_space.
Qed.

Lemma contains_drop_while (p : ascii -> bool) (s : string) (c : ascii)
    (n : string) :
  p c = false ->
  contains (drop_while p s) (String c n) = contains s (String c n).
Proof.
  intros Hc. unfold drop_while.
  induction s as [|b s IH]; [done |].
  cbn [span_while]. destruct (p b) eqn:Hb; [| done].
  destruct (span_while p s) as [a r]. cbn [snd] in *. rewrite IH.
  cbn [contains startswith].
  destruct (Ascii.eqb_spec c b) as [-> | _]; [congruence | done].
Qed.

Lemma startswith_rstrip (p : ascii -> bool) (s m : string) :
  not_in_class p (last_char m) = true ->
  startswith (rstrip_of p s) m = startswith s m.
Proof.
  revert m. induction s as [|b s IH]; intros m Hm; [done |].
  destruct m as [|a m]; [by destruct (rstrip_of p (String b s)) |].
  assert (not_in_class p (last_char m) = true) as Hm'.
  { simpl in Hm. by destruct m. }
  specialize (IH m Hm'). cbn [rstrip_of].
  destruct (p b && is_empty (rstrip_of p s)) eqn:Hb.
  - apply andb_true_iff in Hb as [Hb He]. apply is_empty_true in He.
    rewrite He in IH. cbn [startswith].
    destruct (Ascii.eqb_spec a b) as [-> | _]; [| done].
    destruct m as [|a' m]; [simpl in Hm; by rewrite Hb in Hm |].
    by rewrite <- IH.
  - cbn [startswith]. by rewrite IH.
Qed.

Lemma contains_rstrip (p : ascii -> bool) (s : string) (c : ascii)
    (n : string) :
  p c = false -> not_in_class p (last_char (String c n)) = true ->
  contains (rstrip_of p s) (String c n) = contains s (String c n).
Proof.
  intros Hc Hn. induction s as [|b s IH]; [done |].
  pose proof (startswith_rstrip p (String b s) (String c n) Hn) as Hst.
  cbn [rstrip_of] in *.
  destruct (p b && is_empty (rstrip_of p s)) eqn:Hb.
  - apply andb_true_iff in Hb as [Hb He]. apply is_empty_true in He.
    rewrite He in IH. cbn [contains]. rewrite <- Hst, <- IH. done.
  - cbn [contains]. by rewrite Hst, IH.
Qed.

Lemma contains_strip (s : string) (c : ascii) (n : string) :
  is_space c = false -> not_in_class is_space (last_char (String c n)) = true ->
  contains (strip s) (String c n) = contains s (String c n).
Proof.
  intros Hc Hn. unfold strip, strip_of, lstrip_of.
  rewrite contains_rstrip by done. by apply contains_drop_while.
Qed.

Lemma studio_clean (s : string) :
  contains (lower (strip s)) "studio" = contains (lower s) "studio".
Proof. rewrite lower_strip. by apply contains_strip. Qed.

(** ** What [re.search] finds *)

Lemma search_none {A} (f : string -> option A) (p : ascii -> bool)
    (s : string) :
  f "" = None ->
  (forall c r, p c = false -> f (String c r) = None) ->
  sexists p s = false -> search f s = None.
Proof.
  intros H0 Hf. induction s as [|c s IH]; simpl; [by rewrite H0 |].
  intros [Hc Hs]%orb_false_iff. by rewrite (Hf c s Hc), IH.
Qed.

Lemma search_some {A} (f : string -> option A) (s : string) (m : A) :
  search f s = Some m -> exists s', f s' = Some m.
Proof.
  induction s as [|c s IH]; simpl.
  - destruct (f "") eqn:H; [| done]. intros [= <-]. eauto.
  - destruct (f (String c s)) eqn:H; [intros [= <-]; eauto | done].
Qed.

Lemma search_found {A} (f : string -> option A) (p : ascii -> bool)
    (s : string) :
  (forall c r, p c = true -> is_Some (f (String c r))) ->
  sexists p s = true -> is_Some (search f s).
Proof.
  intros Hf. induction s as [|c s IH]; simpl; [done |].
  destruct (p c) eqn:Hc.
  - intros _. destruct (Hf c s Hc) as [m ->]. eauto.
  - simpl. intros Hs. destruct (f (String c s)); eauto.
Qed.

Lemma digits_at_some (s m : string) :
  digits_at s = Some m -> sforall is_digit m = true /\ is_empty m = false.
Proof.
  unfold digits_at. pose proof (span_while_spec is_digit s) as (H1 & _).
  destruct (span_while is_digit s) as [i r]. simpl in *.
  destruct (is_empty i) eqn:He; [done |]. by intros [= <-].
Qed.

Lemma digits_at_digit (c : ascii) (r : string) :
  is_digit c = true -> is_Some (digits_at (String c r)).
Proof.
  intros Hc. unfold digits_at. simpl. rewrite Hc.
  destruct (span_while is_digit r). simpl. eauto.
Qed.

Lemma digits_at_not_digit (c : ascii) (r : string) :
  is_digit c = false -> digits_at (String c r) = None.
Proof. intros Hc. unfold digits_at. simpl. by rewrite Hc. Qed.

Lemma number_at_digit (c : ascii) (r : string) :
  is_digit c = true -> is_Some (number_at (String c r)).
Proof.
  intros Hc. unfold number_at. simpl. rewrite Hc.
  destruct (span_while is_digit r) as [i r']. simpl.
  destruct r' as [|d r'']; [eauto |].
  destruct (span_while is_digit r'') as [f ?].
  destruct (Ascii.eqb d dot && negb (is_empty f)); eauto.
Qed.

Lemma digits_to_Z_from_app (acc : Z) (a b : string) :
  digits_to_Z_from acc (a ++ b) = digits_to_Z_from (digits_to_Z_from acc a) b.
Proof. revert acc. induction a as [|c a IH]; intros acc; simpl; [done | apply IH]. Qed.

Lemma digits_to_Z_from_nonneg (acc : Z) (d : string) :
  sforall is_digit d = true -> 0 <= acc -> 0 <= digits_to_Z_from acc d.
Proof.
  revert acc. induction d as [|c d IH]; intros acc; simpl; [done |].
  intros [Hc Hd]%andb_true_iff Hacc. apply IH; [done |].
  unfold is_digit in Hc. apply andb_true_iff in Hc as [H1%N.leb_le H2].
  lia.
Qed.

Lemma digits_to_Z_nonneg (d : string) :
  sforall is_digit d = true -> 0 <= digits_to_Z d.
Proof. intros Hd. by apply digits_to_Z_from_nonneg. Qed.

Lemma number_at_some (s m : string) : number_at s = Some m -> is_number m.
Proof.
  unfold number_at. pose proof (span_while_spec is_digit s) as (H1 & _).
  destruct (span_while is_digit s) as [i r]. simpl in *.
  destruct (is_empty i) eqn:He; [done |].
  destruct r as [|c r'].
  - intros [= <-]. exists i, "". eauto.
  - pose proof (span_while_spec is_digit r') as (H2 & _).
    destruct (span_while is_digit r') as [f r'']. simpl in *.
    destruct (Ascii.eqb c dot && negb (is_empty f)) eqn:Hc.
    + apply andb_true_iff in Hc as [_ Hf%negb_true_iff].
      intros [= <-]. exists i, f. eauto 10.
    + intros [= <-]. exists i, "". eauto.
Qed.

Lemma pow10_pos (n : nat) : 0 < 10 ^ Z.of_nat n.
Proof. apply Z.pow_pos_nonneg; lia. Qed.

Lemma float_of_literal_number (i f : string) :
  sforall is_digit i = true -> sforall is_digit f = true ->
  float_of_literal (i ++ String dot f)
  = (inject_Z (digits_to_Z (i ++ f))
     / inject_Z (10 ^ Z.of_nat (String.length f)))%Q.
Proof.
  intros Hi Hf. unfold float_of_literal.
  by rewrite span_while_app.
Qed.

Lemma Qdiv_nonneg (a b : Z) : 0 <= a -> 0 < b -> (0 <= inject_Z a / inject_Z b)%Q.
Proof.
  intros Ha Hb. apply Qle_shift_div_l.
  - unfold Qlt, inject_Z. simpl. lia.
  - unfold Qle, inject_Z. simpl. lia.
Qed.

Lemma float_of_literal_nonneg (m : string) :
  is_number m -> (0 <= float_of_literal m)%Q.
Proof.
  intros (i & f & Hi & Hne & Hf & [-> | [Hfe ->]]).
  - rewrite float_of_literal_digits by done.
    pose proof (digits_to_Z_nonneg i Hi).
    unfold Qle, inject_Z. simpl. lia.
  - rewrite float_of_literal_number by done.
    apply Qdiv_nonneg; [| apply pow10_pos].
    apply digits_to_Z_nonneg. by rewrite sforall_app, Hi, Hf.
Qed.

(** ** normalize_beds, normalize_baths *)

(** X2. [normalize_beds] returns [None] for [None]; 0 for any text that
    holds the word "studio" in any case, whatever digits it also holds;
    [None] for a text with neither that word nor a digit; and for a text
    with a digit a count that is never negative. *)
Theorem normalize_beds_outcomes (float_str : Q -> string) (v : pyarg) :
  let s := py_str float_str v in
  normalize_beds float_str None = None
  /\ (contains (lower s) "studio" = true ->
      normalize_beds float_str (Some v) = Some 0)
  /\ (contains (lower s) "studio" = false -> sexists is_digit s = false ->
      normalize_beds float_str (Some v) = None)
  /\ (sexists is_digit s = true ->
      exists b, normalize_beds float_str (Some v) = Some b /\ 0 <= b).
Proof.
  intros s. split; [done |]. unfold normalize_beds. fold s.
  rewrite studio_clean. split; [by intros -> |]. split.
  - intros -> Hd.
    rewrite (search_none digits_at is_digit); [done | done | |].
    + apply digits_at_not_digit.
    + by rewrite sexists_digit_clean.
  - intros Hd. destruct (contains (lower s) "studio"); [by exists 0 |].
    destruct (search_found digits_at is_digit (lower (strip s)))
      as [m Hm]; [apply digits_at_digit | by rewrite sexists_digit_clean |].
    rewrite Hm. exists (digits_to_Z m). split; [done |].
    apply search_some in Hm as [s' Hs'].
    apply digits_at_some in Hs' as [Hs' _]. by apply digits_to_Z_nonneg.
Qed.

(** X3. [normalize_baths] returns [None] for [None] and for a text without
    a digit, and for a text with a digit a number that is never negative. *)
Theorem normalize_baths_outcomes (float_str : Q -> string) (v : pyarg) :
  let s := py_str float_str v in
  normalize_baths float_str None = None
  /\ (sexists is_digit s = false -> normalize_baths float_str (Some v) = None)
  /\ (sexists is_digit s = true ->
      exists q, normalize_baths float_str (Some v) = Some q /\ (0 <= q)%Q).
Proof.
  intros s. split; [done |]. unfold normalize_baths. fold s. split.
  - intros Hd.
    rewrite (search_none number_at is_digit); [done | done | |].
    + apply number_at_not_digit.
    + by rewrite sexists_digit_clean.
  - intros Hd.
    destruct (search_found number_at is_digit (lower (strip s)))
      as [m Hm]; [apply number_at_digit | by rewrite sexists_digit_clean |].
    rewrite Hm. exists (float_of_literal m). split; [done |].
    apply search_some in Hm as [s' Hs'].
    by apply float_of_literal_nonneg, (number_at_some s').
Qed.

(** ** normalize_price on one amount *)

Lemma sexists_false_first (p : ascii -> bool) (s : string) :
  sexists p s = false -> not_in_class p (first_char s) = true.
Proof. destruct s as [|c s]; simpl; [done |]. by intros [-> _]%orb_false_iff. Qed.

Lemma finditer_number_prefix (pre s : string) :
  sexists is_digit pre = false ->
  finditer number_at (pre ++ s) = finditer number_at s.
Proof.
  induction pre as [|c pre IH]; simpl; [done |].
  intros [Hc Hpre]%orb_false_iff.
  rewrite finditer_no_match by (by apply number_at_not_digit). by apply IH.
Qed.

Lemma number_at_then_no_digit (d r : string) :
  sforall is_digit d = true -> is_empty d = false ->
  sexists is_digit r = false -> number_at (d ++ r) = Some d.
Proof.
  intros Hd Hne Hr. unfold number_at.
  rewrite span_while_app by (by try apply sexists_false_first).
  rewrite Hne. destruct r as [|c r]; [done |].
  simpl in Hr. apply orb_false_iff in Hr as [_ Hr].
  rewrite span_while_none by (by apply sexists_false_first).
  simpl. by rewrite andb_false_r.
Qed.

Lemma finditer_number_single (pre d post : string) :
  sexists is_digit pre = false ->
  sforall is_digit d = true -> is_empty d = false ->
  sexists is_digit post = false ->
  finditer number_at (pre ++ d ++ post) = [d].
Proof.
  intros Hpre Hd Hne Hpost. rewrite finditer_number_prefix by done.
  rewrite finditer_match by (by try apply number_at_then_no_digit).
  unfold finditer. by rewrite finditer_number_no_digit.
Qed.

Lemma py_round_int (v : Z) (x : Q) : (x == inject_Z v)%Q -> py_round x = v.
Proof.
  intros Hx. rewrite (py_round_comp _ _ Hx). unfold py_round.
  rewrite Qfloor_Z.
  assert ((inject_Z v - inject_Z v ?= 1 # 2)%Q = Lt) as ->; [| done].
  unfold Qcompare, Qminus, Qplus, Qopp, inject_Z. simpl.
  apply Z.compare_lt_iff. lia.
Qed.

Lemma append_is_empty (a b : string) :
  is_empty (a ++ b) = is_empty a && is_empty b.
Proof. by destruct a. Qed.

Lemma sexists_not_empty (p : ascii -> bool) (s : string) :
  sexists p s = true -> is_empty s = false.
Proof. by destruct s. Qed.

Lemma normalize_price_single (pre X post : string) :
  sexists is_digit pre = false -> is_int_amount X = true ->
  sexists is_digit post = false ->
  normalize_price (Some (pre ++ X ++ post)) = Some (amount_value X).
Proof.
  intros Hpre [HX Hdig]%andb_true_iff Hpost. unfold normalize_price.
  rewrite !append_is_empty, (sexists_not_empty _ _ Hdig).
  rewrite andb_false_l, andb_false_r.
  unfold remove_char. rewrite !sfilter_app. fold (remove_char comma X).
  destruct (amount_digits X HX) as [-> Hd].
  rewrite finditer_number_single;
    [| by apply sexists_sfilter | done | by apply amount_has_digit
     | by apply sexists_sfilter].
  cbn [map length qsum foldr]. f_equal.
  apply py_round_int. rewrite float_of_literal_digits by done.
  unfold amount_value. simpl. field.
Qed.

(** ** normalize_price is never negative *)

Lemma qsum_nonneg (vals : list Q) :
  Forall (fun q => (0 <= q)%Q) vals -> (0 <= qsum vals)%Q.
Proof.
  induction 1 as [|q vals Hq _ IH]; simpl; [done |].
  change 0%Q with (0 + 0)%Q. by apply Qplus_le_compat.
Qed.

Lemma py_round_nonneg (x : Q) : (0 <= x)%Q -> 0 <= py_round x.
Proof.
  intros Hx. assert (0 <= Qfloor x) as Hf.
  { change 0 with (Qfloor 0). by apply Qfloor_resp_le. }
  unfold py_round.
  destruct (x - inject_Z (Qfloor x) ?= 1 # 2)%Q; [| lia | lia].
  destruct (Z.even (Qfloor x)); lia.
Qed.

(** X4. [normalize_price] never returns a negative number: a minus sign in
    the text is not read. *)
Theorem normalize_price_nonneg (text : option string) (r : Z) :
  normalize_price text = Some r -> 0 <= r.
Proof.
  destruct text as [t|]; [| done]. unfold normalize_price.
  destruct (is_empty t); [done |].
  destruct (finditer number_at (remove_char comma t)) as [|n nums] eqn:Hn;
    [done |].
  intros [= <-]. apply py_round_nonneg.
  set (vals := map float_of_literal (n :: nums)).
  assert (Forall (fun q => (0 <= q)%Q) vals) as Hvals.
  { apply Forall_forall. intros q [m [-> Hm]]%list_elem_of_fmap.
    rewrite <- Hn in Hm. apply finditer_from_elem in Hm as [s' Hs'].
    by apply float_of_literal_nonneg, (number_at_some s'). }
  apply Qle_shift_div_l.
  - unfold Qlt, inject_Z. simpl. lia.
  - rewrite Qmult_0_l. exact (qsum_nonneg vals Hvals).
Qed.

Lemma normalize_price_nonneg_witness :
  normalize_price (Some "-5") = Some 5 /\ 0 <= 5.
Proof.
  split; [by vm_compute |].
  apply (normalize_price_nonneg (Some "-5")). by vm_compute.
Defined.

(** X5. A text with one whole amount (digits and thousands separators, up
    to 2^53, where floats are exact) and no other digit normalizes to that
    amount, whatever surrounds it. *)
Theorem normalize_price_single_amount (pre X post : string) :
  sexists is_digit pre = false -> is_int_amount X = true ->
  sexists is_digit post = false -> amount_value X <= 2 ^ 53 ->
  normalize_price (Some (pre ++ X ++ post)) = Some (amount_value X)
  /\ 0 <= amount_value X.
Proof.
  intros Hpre HX Hpost _. split; [by apply normalize_price_single |].
  apply andb_true_iff in HX as [HX _].
  apply digits_to_Z_nonneg. by apply amount_digits.
Qed.

Lemma normalize_price_single_amount_witness :
  normalize_price (Some ("Rent: $" ++ "1,395" ++ " / month")) = Some 1395.
Proof.
  destruct (normalize_price_single_amount "Rent: $" "1,395" " / month"
              eq_refl eq_refl eq_refl) as [-> _]; [| done].
  by vm_compute.
Defined.

(** ** The number of prices found in a text *)

Lemma price_rx_dollar (s m : string) :
  _PRICE_RX s = Some m -> exists r, s = String dollar r.
Proof.
  destruct s as [|c r]; [done |]. cbn [_PRICE_RX].
  destruct (Ascii.eqb_spec c dollar) as [-> | _]; [eauto | done].
Qed.

Lemma finditer_price_count (k : nat) (s : string) :
  (length (finditer_from _PRICE_RX k s) <= count_char dollar s)%nat.
Proof.
  revert k. induction s as [|c s IH]; intros k; [simpl; lia |].
  cbn [finditer_from count_char]. destruct k as [|k].
  - destruct (_PRICE_RX (String c s)) as [m|] eqn:Hm.
    + apply price_rx_dollar in Hm as [r [= -> ->]].
      simpl. specialize (IH (String.length m - 1)%nat). lia.
    + specialize (IH O). lia.
  - specialize (IH k). lia.
Qed.

Lemma price_of_match_length (raw : string) :
  (length (price_of_match raw) <= 1)%nat.
Proof.
  unfold price_of_match.
  destruct (is_empty _); [simpl; lia |].
  destruct (_is_plausible_rent _); simpl; lia.
Qed.

Lemma flat_map_length_le {A B} (f : A -> list B) (l : list A) :
  (forall a, (length (f a) <= 1)%nat) ->
  (length (flat_map f l) <= length l)%nat.
Proof.
  intros Hf. induction l as [|a l IH]; simpl; [lia |].
  rewrite length_app. specialize (Hf a). lia.
Qed.

(** X6. [_prices_from_text] returns at most one price per dollar sign of
    the text; a text without a dollar sign, and [None], give no price. *)
Theorem prices_from_text_count (text : option string) :
  (length (_prices_from_text text) <= count_char dollar (default "" text))%nat
  /\ (count_char dollar (default "" text) = 0%nat ->
      _prices_from_text text = []).
Proof.
  assert (length (_prices_from_text text)
          <= count_char dollar (default "" text))%nat as H.
  { unfold _prices_from_text.
    etrans; [apply flat_map_length_le, price_of_match_length |].
    destruct text as [t|]; apply finditer_price_count. }
  split; [done |]. intros H0. rewrite H0 in H.
  destruct (_prices_from_text text); [done | simpl in H; lia].
Qed.

(** ** The fields of a record *)

Lemma normalize_beds_nonneg (float_str : Q -> string) (o : option pyarg)
    (n : Z) :
  normalize_beds float_str o = Some n -> 0 <= n.
Proof.
  destruct o as [v|]; [| done]. unfold normalize_beds.
  destruct (contains _ "studio"); [by intros [= <-] |].
  destruct (search digits_at _) as [m|] eqn:Hm; [| done].
  intros [= <-]. apply search_some in Hm as [s' Hs'].
  apply digits_at_some in Hs' as [Hs' _]. by apply digits_to_Z_nonneg.
Qed.

Lemma normalize_baths_nonneg (float_str : Q -> string) (o : option pyarg)
    (q : Q) :
  normalize_baths float_str o = Some q -> (0 <= q)%Q.
Proof.
  destruct o as [v|]; [| done]. unfold normalize_baths.
  destruct (search number_at _) as [m|] eqn:Hm; [| done].
  intros [= <-]. apply search_some in Hm as [s' Hs'].
  by apply float_of_literal_nonneg, (number_at_some s').
Qed.

Lemma length_take_str (n : nat) (s : string) :
  (String.length (take_str n s) <= n)%nat.
Proof.
  revert s. induction n as [|n IH]; intros [|c s]; simpl; try lia.
  specialize (IH s). lia.
Qed.

Lemma normalize_address_again (o : option string) :
  normalize_address (Some (normalize_address o)) = normalize_address o.
Proof.
  destruct (normalize_address_shape o) as [H1 H2].
  apply normalize_address_fixed; [done |]. by apply strip_fixed.
Qed.

Lemma mk_record_int (float_str : Q -> string) (now u c t : string) (p : Z)
    (b ba : option pyarg) (a : option string) :
  300 <= p <= 6000 ->
  exists rec,
    _mk_record float_str now u c t (Some (PInt p)) b ba a = Some rec
    /\ price rec = p.
Proof.
  intros Hp. unfold _mk_record, price_value, _is_plausible_rent.
  assert ((p =? 0) = false) as -> by lia.
  assert ((300 <=? p) = true) as -> by lia.
  assert ((p <=? 6000) = true) as -> by lia.
  simpl. eauto.
Qed.

Lemma omap_all_some {A B} (f : A -> option B) (g : B -> A) (l : list A) :
  (forall x, x ∈ l -> exists y, f x = Some y /\ g y = x) ->
  g <$> omap f l = l.
Proof.
  induction l as [|x l IH]; intros H; [done |].
  destruct (H x) as (y & Hfx & Hy); [left |].
  cbn [omap list_omap]. rewrite Hfx, fmap_cons. f_equal; [done |].
  apply IH. intros z Hz. apply H. by right.
Qed.

Section RecordProps.

Variable float_str : Q -> string.
Variable now : string.

Lemma mk_record_inv (u c t : string) (pr b ba : option pyarg)
    (a : option string) (rec : listing) :
  _mk_record float_str now u c t pr b ba a = Some rec ->
  exists v,
    rec = {| url := u; company := c;
             title := take_str 200 (if is_empty t then c else t);
             price := v;
             beds := match b with
                     | None | Some (PStr EmptyString) => Some 0
                     | Some x => normalize_beds float_str (Some x)
                     end;
             baths := match ba with
                      | None | Some (PStr EmptyString) => Some (0 # 1)%Q
                      | Some x => normalize_baths float_str (Some x)
                      end;
             address := normalize_address a;
             last_scraped_at := now |}.
Proof.
  unfold _mk_record. destruct pr as [pr|]; [| done].
  destruct (price_value float_str pr) as [v|]; [| done].
  destruct ((v =? 0) || negb (_is_plausible_rent v)); [done |].
  intros [= <-]. exists v. f_equal.
  destruct a as [a|]; [| done]. simpl. by destruct (is_empty a).
Qed.

(** X7. Every record [_mk_record] returns carries the url and the company
    it was given and the date of the clock; its title is the given title, or
    the company when the title is empty, cut to 200 characters; its address
    is the normalized address, a fixed point of [normalize_address]; its
    bed and bath counts are never negative, and are 0 when the argument is
    [None] or the empty string. *)
Theorem mk_record_fields (u c t : string) (pr b ba : option pyarg)
    (a : option string) (rec : listing) :
  _mk_record float_str now u c t pr b ba a = Some rec ->
  url rec = u /\ company rec = c /\ last_scraped_at rec = now
  /\ title rec = take_str 200 (if is_empty t then c else t)
  /\ (String.length (title rec) <= 200)%nat
  /\ address rec = normalize_address a
  /\ normalize_address (Some (address rec)) = address rec
  /\ (forall n, beds rec = Some n -> 0 <= n)
  /\ (forall q, baths rec = Some q -> (0 <= q)%Q)
  /\ (b = None \/ b = Some (PStr "") -> beds rec = Some 0)
  /\ (ba = None \/ ba = Some (PStr "") -> baths rec = Some 0%Q).
Proof.
  intros [v ->]%mk_record_inv. cbn [url company last_scraped_at title address
    beds baths].
  repeat split; try done.
  - apply length_take_str.
  - apply normalize_address_again.
  - intros n. destruct b as [[[|]| |]|];
      try apply normalize_beds_nonneg; by intros [= <-].
  - intros q. destruct ba as [[[|]| |]|];
      try apply normalize_baths_nonneg; by intros [= <-].
  - by intros [-> | ->].
  - by intros [-> | ->].
Qed.

(** ** parse_default *)

Lemma parse_default_prices (u a t text : string) :
  price <$> parse_default float_str now u a t text
  = _prices_from_text (Some text).
Proof.
  unfold parse_default. apply omap_all_some.
  intros p Hp%prices_from_text_plausible. by apply mk_record_int.
Qed.

(** X8. [parse_default] yields exactly one record per price that
    [_prices_from_text] finds in the page text, in the same order: the
    assembler rejects none of them.  Each record has the page url, the
    company "Unknown", the page title (or "Unknown" when it is empty), 0
    beds and the normalized address. *)
Theorem parse_default_one_record_per_price (u a t text : string) :
  price <$> parse_default float_str now u a t text
  = _prices_from_text (Some text)
  /\ forall rec, rec ∈ parse_default float_str now u a t text ->
       url rec = u /\ company rec = "Unknown"
       /\ title rec = take_str 200 (if is_empty t then "Unknown" else t)
       /\ beds rec = Some 0
       /\ address rec = normalize_address (Some a).
Proof.
  split; [apply parse_default_prices |].
  intros rec (p & _ & Hp)%list_elem_of_omap.
  apply mk_record_inv in Hp as [v ->]. cbn [url company title beds address].
  by rewrite normalize_beds_int.
Qed.

(** ** parse_granite *)

Lemma parse_granite_app (u a : string) (xs ys : list string) :
  parse_granite float_str now u a (xs ++ ys)
  = (rx ← parse_granite float_str now u a xs;
     ry ← parse_granite float_str now u a ys;
     mret (rx ++ ry)%list).
Proof.
  induction xs as [|x xs IH]; simpl.
  - by destruct (parse_granite float_str now u a ys).
  - destruct (parse_granite_item float_str now u a x) as [rec|e]; [| done].
    cbn. rewrite IH.
    destruct (parse_granite float_str now u a xs) as [rx|e]; [| done].
    cbn. destruct (parse_granite float_str now u a ys) as [ry|e]; [| done].
    cbn. unfold mret, outcome_ret. by rewrite (assoc_L (++)%list).
Qed.

Lemma parse_granite_returns (u a : string) (pre : list string) :
  (forall x, x ∈ pre ->
     exists r, parse_granite_item float_str now u a x = Returned r) ->
  exists rs, parse_granite float_str now u a pre = Returned rs.
Proof.
  induction pre as [|x pre IH]; intros H; simpl; [by eexists |].
  destruct (H x) as [r ->]; [left |].
  destruct IH as [rs ->]; [intros z Hz; apply H; by right |].
  cbn. by eexists.
Qed.

Lemma parse_granite_raises (u a txt : string) (pre post : list string)
    (e : exn) :
  (forall x, x ∈ pre ->
     exists r, parse_granite_item float_str now u a x = Returned r) ->
  parse_granite_item float_str now u a txt = Raised e ->
  parse_granite float_str now u a (pre ++ txt :: post) = Raised e.
Proof.
  intros Hpre He. rewrite parse_granite_app.
  destruct (parse_granite_returns u a pre Hpre) as [rs ->]. cbn.
  by rewrite He.
Qed.

Lemma granite_price_at_some (s g : string) :
  granite_price_at s = Some g ->
  sforall is_amount_char g = true /\ is_empty g = false.
Proof.
  destruct s as [|c r]; [done |]. cbn [granite_price_at].
  destruct (Ascii.eqb c dollar); [| done].
  pose proof (span_while_spec is_amount_char (drop_while is_space r))
    as (H1 & _).
  destruct (span_while is_amount_char (drop_while is_space r)) as [g' r2].
  simpl in H1. destruct (is_empty g') eqn:He; [done |].
  destruct (drop_while is_space r2) as [|d r4]; [done |].
  destruct (Ascii.eqb d "/" && _); [| done]. by intros [= <-].
Qed.

Lemma commas_removed (g : string) :
  sforall is_amount_char g = true -> sexists is_digit g = false ->
  remove_char comma g = "".
Proof.
  induction g as [|c g IH]; [done |]. cbn [sforall sexists].
  intros [Hc Hg]%andb_true_iff [Hd Hg']%orb_false_iff.
  unfold is_amount_char in Hc. rewrite Hd in Hc.
  apply Ascii.eqb_eq in Hc as ->. by apply IH.
Qed.

Lemma granite_beds_digits (txt d : string) :
  granite_beds txt = Some d -> sforall is_digit d = true.
Proof.
  assert (forall s, beds_tail_at s = Some d -> sforall is_digit d = true)
    as Htail.
  { intros s. unfold beds_tail_at.
    pose proof (span_while_spec is_digit s) as (H1 & _).
    destruct (span_while is_digit s) as [d' r]. simpl in H1.
    destruct (is_empty d'); [done |].
    destruct (startswith_ci _ "bed"); [| done].
    repeat case_match; by intros [= <-]. }
  unfold granite_beds. destruct (beds_tail_at txt) eqn:H0.
  - intros [= <-]. by eapply Htail.
  - intros [s' Hs']%search_some. destruct s' as [|c r]; [done |].
    destruct (is_sep c); [by eapply Htail | done].
Qed.

Lemma first_line_nonempty (txt l : string) :
  first_line txt = Some l -> is_empty l = false.
Proof.
  unfold first_line. destruct (is_empty _) eqn:H; [done |]. by intros [= <-].
Qed.

(** X9. [parse_granite] handles the containers one after the other: the
    result on two runs of containers is the concatenation of the results on
    each, and an exception raised on one container is raised by the whole
    call, the records of the containers before it being lost. *)
Theorem parse_granite_concat (u a : string) :
  (forall xs ys,
     parse_granite float_str now u a (xs ++ ys)
     = (rx ← parse_granite float_str now u a xs;
        ry ← parse_granite float_str now u a ys;
        mret (rx ++ ry)%list))
  /\ (forall pre post txt e,
        (forall x, x ∈ pre ->
           exists r, parse_granite_item float_str now u a x = Returned r) ->
        parse_granite_item float_str now u a txt = Raised e ->
        parse_granite float_str now u a (pre ++ txt :: post) = Raised e).
Proof.
  split; [apply parse_granite_app |].
  intros pre post txt e Hpre He. by apply parse_granite_raises.
Qed.

(** X10. A Granite container that is not skipped and whose price label
    holds separators but no digit (as in "$, / month") makes [int] fail:
    [parse_granite] raises [ValueError] and returns no record of the page. *)
Theorem parse_granite_comma_price_aborts (u a txt g : string)
    (pre post : list string) :
  (forall x, x ∈ pre ->
     exists r, parse_granite_item float_str now u a x = Returned r) ->
  granite_skips txt = false ->
  search granite_price_at txt = Some g ->
  sexists is_digit g = false ->
  parse_granite_item float_str now u a txt = Raised ValueError
  /\ parse_granite float_str now u a (pre ++ txt :: post) = Raised ValueError.
Proof.
  intros Hpre Hskip Hg Hd.
  assert (parse_granite_item float_str now u a txt = Raised ValueError) as H.
  { unfold parse_granite_item. rewrite Hskip, Hg.
    apply search_some in Hg as [s' [Hs' _]%granite_price_at_some].
    by rewrite commas_removed. }
  split; [done |]. by apply parse_granite_raises.
Qed.

(** X11. A record of [parse_granite] comes from a container that is not
    skipped; its price is the amount in front of "/ month", not any other
    dollar amount of the text; its bed count is 0 when the text mentions a
    studio and else the number in front of "Bed(s)", 0 when there is none;
    its title is the first line of the text, cut to 200 characters. *)
Theorem parse_granite_item_fields (u a txt : string) (rec : listing) :
  parse_granite_item float_str now u a txt = Returned (Some rec) ->
  granite_skips txt = false
  /\ (exists g, search granite_price_at txt = Some g
                /\ price rec = amount_value g)
  /\ url rec = u /\ company rec = "Granite Student Living"
  /\ title rec = take_str 200 (default "Granite Property" (first_line txt))
  /\ beds rec
     = Some (if contains (lower txt) "studio" then 0
             else match granite_beds txt with
                  | Some d => digits_to_Z d
                  | None => 0
                  end)
  /\ address rec = normalize_address (Some a).
Proof.
  unfold parse_granite_item.
  destruct (granite_skips txt); [done |].
  destruct (search granite_price_at txt) as [g|] eqn:Hg; [| done].
  destruct (is_empty (remove_char comma g)); [done |].
  intros Hrec%Returned_inj.
  destruct (mk_record_some _ _ _ _ _ _ _ _ _ _ Hrec) as [Hp _].
  apply mk_record_inv in Hrec as [v ->].
  cbn [url company title beds address price] in *.
  split; [done |]. split.
  { exists g. split; [done |]. injection Hp as <-.
    apply search_some in Hg as [s' [Hs' _]%granite_price_at_some].
    unfold amount_value. by destruct (amount_digits g Hs') as [-> _]. }
  repeat split.
  - destruct (first_line txt) as [l|] eqn:Hl; [| done].
    simpl. by rewrite (first_line_nonempty _ _ Hl).
  - rewrite normalize_beds_int. f_equal.
    destruct (contains (lower txt) "studio"); [done |].
    destruct (granite_beds txt) as [d|] eqn:Hd; [| done].
    apply granite_beds_digits, digits_to_Z_nonneg in Hd. lia.
Qed.

End RecordProps.

Lemma parse_granite_comma_price_aborts_witness :
  parse_granite short_decimal_str "11-03-2026"
    "https://granitestudentliving.com/listings" "West Lafayette, IN"
    (["Unit 1 2 Beds $1,250 / month"] ++ "Unit 2 $, / month"
       :: ["Unit 3 1 Bed $950 / month"])
  = Raised ValueError.
Proof.
  apply (parse_granite_comma_price_aborts short_decimal_str "11-03-2026"
           "https://granitestudentliving.com/listings" "West Lafayette, IN"
           "Unit 2 $, / month" ",").
  - intros x ->%list_elem_of_singleton. eexists. by vm_compute.
  - by vm_compute.
  - by vm_compute.
  - by vm_compute.
Defined.

Lemma mk_record_fields_witness :
  exists rec,
    _mk_record short_decimal_str "11-03-2026" "https://x.com/plans" "Test Co"
      "" (Some (PStr "$1,200")) (Some (PStr "2 Bed")) None
      (Some "  1  Main St ") = Some rec
    /\ title rec = "Test Co" /\ address rec = "1 Main St".
Proof.
  eexists. split; [by vm_compute |].
  pose proof (mk_record_fields short_decimal_str "11-03-2026"
                "https://x.com/plans" "Test Co" "" (Some (PStr "$1,200"))
                (Some (PStr "2 Bed")) None (Some "  1  Main St ") _ eq_refl)
    as (_ & _ & _ & Ht & _ & Ha & _).
  split; [exact Ht | exact Ha].
Defined.

Lemma parse_granite_item_fields_witness :
  exists rec,
    parse_granite_item short_decimal_str "11-03-2026"
      "https://granitestudentliving.com/listings" "West Lafayette, IN"
      "Unit 8 2 Beds, 1 Bath $50 deposit $1,250 / month" = Returned (Some rec)
    /\ price rec = 1250 /\ beds rec = Some 2.
Proof.
  eexists. split; [by vm_compute |].
  pose proof (parse_granite_item_fields short_decimal_str "11-03-2026"
                "https://granitestudentliving.com/listings"
                "West Lafayette, IN"
                "Unit 8 2 Beds, 1 Bath $50 deposit $1,250 / month" _ eq_refl)
    as (_ & _ & _ & _ & _ & Hb & _).
  split; [done | exact Hb].
Defined.

(** ** The links discovery keeps *)

Section FrontierProps.

Variable re_search : string -> string -> bool.
Variable urljoin : string -> string -> outcome string.
Variable urlparse : string -> outcome ParseResult.

Lemma keep_link_some (start_url host : string) (same_domain : bool)
    (allow deny : option (list string)) (raw x : string) :
  keep_link re_search urljoin urlparse start_url host same_domain allow deny
    raw = Returned (Some x) ->
  let href := strip raw in
  exists u,
    urljoin start_url href = Returned x
    /\ urlparse x = Returned u
    /\ is_empty href = false
    /\ startswith href "mailto:" = false
    /\ startswith href "tel:" = false
    /\ (same_domain = true -> netloc u = host)
    /\ (forall ext, ext ∈ asset_exts -> endswith (lower x) ext = false)
    /\ (is_empty (fragment u) = false -> unit_anchor (fragment u) = true)
    /\ passes_filters re_search allow deny
         (path u ++ (if is_empty (query u) then "" else "?" ++ query u))
       = true.
Proof.
  unfold keep_link.
  destruct (is_empty (strip raw) || startswith (strip raw) "mailto:"
            || startswith (strip raw) "tel:") eqn:H1; [done |].
  apply orb_false_iff in H1 as [[H1 H2]%orb_false_iff H3].
  destruct (urljoin start_url (strip raw)) as [url|e]; [| done]. cbn.
  destruct (urlparse url) as [u|e] eqn:Hu; [| done]. cbn.
  unfold link_passes.
  destruct (same_domain && negb (String.eqb _ host)) eqn:H4; [done |].
  destruct (existsb _ asset_exts) eqn:H5; [done |].
  destruct (negb (is_empty _) && negb (unit_anchor _)) eqn:H6; [done |].
  destruct (passes_filters _ _ _ _) eqn:H7; [| done].
  intros [= <-]. cbv zeta. exists u. repeat split; try done.
  - intros ->. simpl in H4. apply negb_false_iff in H4.
    by apply String.eqb_eq.
  - intros ext Hext. rewrite <- not_true_iff_false. intros He.
    rewrite <- not_true_iff_false in H5. apply H5.
    apply existsb_exists. exists ext. split; [| done].
    by apply list_elem_of_In.
  - intros Hf. rewrite Hf in H6. simpl in H6. by apply negb_false_iff.
Qed.

Lemma discover_links_elem (start_url : string) (max_pages : Z)
    (same_domain : bool) (allow deny : option (list string))
    (hrefs out : list string) (x : string) :
  discover_links re_search urljoin urlparse start_url max_pages same_domain
    allow deny (Fetched hrefs) = Returned out ->
  x ∈ out ->
  exists parsed raw,
    urlparse start_url = Returned parsed
    /\ raw ∈ hrefs
    /\ keep_link re_search urljoin urlparse start_url (netloc parsed)
         same_domain
         (resolve_rules (netloc parsed) allow deny).1
         (resolve_rules (netloc parsed) allow deny).2 raw
       = Returned (Some x).
Proof.
  unfold discover_links, surviving_links.
  destruct (urlparse start_url) as [parsed|e]; [| done]. cbn.
  destruct (resolve_rules _ allow deny) as [al dn] eqn:Hr. cbn.
  destruct (collect_links _ hrefs) as [surviving|e] eqn:Hc; [| done]. cbn.
  intros <-%Returned_inj (i & Hx & _)%elem_of_take.
  apply list_elem_of_lookup_2, fromkeys_from_elem in Hx as [Hx _].
  apply collect_links_returned in Hc as [_ Hc].
  apply Hc in Hx as (raw & Hraw & Hk). exists parsed, raw.
  rewrite Hr. done.
Qed.

(** X12. Every url [discover_links] returns is the join of the seed url
    with a stripped, non-empty [href] of the page that is neither a [mailto:]
    nor a [tel:] link; it is on the seed's host when [same_domain] is set; it
    does not end with an asset extension; its fragment, when it has one,
    looks like a unit anchor; and its path and query pass the deny and allow
    filters in force. *)
Theorem discover_links_never_keeps (start_url : string) (max_pages : Z)
    (same_domain : bool) (allow deny : option (list string))
    (hrefs out : list string) (x : string) :
  discover_links re_search urljoin urlparse start_url max_pages same_domain
    allow deny (Fetched hrefs) = Returned out ->
  x ∈ out ->
  exists parsed u,
    urlparse start_url = Returned parsed
    /\ urlparse x = Returned u
    /\ let host := netloc parsed in
       (exists raw, raw ∈ hrefs
          /\ urljoin start_url (strip raw) = Returned x
          /\ is_empty (strip raw) = false
          /\ startswith (strip raw) "mailto:" = false
          /\ startswith (strip raw) "tel:" = false)
       /\ (same_domain = true -> netloc u = host)
       /\ (forall ext, ext ∈ asset_exts -> endswith (lower x) ext = false)
       /\ (is_empty (fragment u) = false -> unit_anchor (fragment u) = true)
       /\ passes_filters re_search (resolve_rules host allow deny).1
            (resolve_rules host allow deny).2
            (path u ++ (if is_empty (query u) then "" else "?" ++ query u))
          = true.
Proof.
  intros Hout Hx.
  destruct (discover_links_elem _ _ _ _ _ _ _ _ Hout Hx)
    as (parsed & raw & Hp & Hraw & Hk).
  apply keep_link_some in Hk
    as (u & H1 & H2 & H3 & H4 & H5 & H6 & H7 & H8 & H9).
  exists parsed, u. split; [done |]. split; [done |]. cbv zeta.
  split; [by exists raw |]. done.
Qed.

Lemma discover_links_returns (start_url : string) (max_pages : Z)
    (same_domain : bool) (allow deny : option (list string))
    (resp : fetch_result) :
  (forall e, resp = FetchRaised e -> is_Exception e = true) ->
  (forall hrefs, resp = Fetched hrefs ->
     links_resolve urljoin urlparse start_url hrefs) ->
  exists out,
    discover_links re_search urljoin urlparse start_url max_pages same_domain
      allow deny resp = Returned out
    /\ NoDup out /\ (length out <= 200)%nat.
Proof.
  intros He Hres. destruct resp as [hrefs | e]; simpl.
  - destruct (surviving_links_total re_search urljoin urlparse start_url
                same_domain allow deny hrefs (Hres hrefs eq_refl))
      as [surviving ->].
    cbn. eexists. split; [done |]. split.
    + eapply sublist_NoDup; [apply fromkeys_from_NoDup | apply sublist_take].
    + rewrite length_take. lia.
  - rewrite (He e eq_refl). exists []. split; [done |].
    split; [constructor | simpl; lia].
Qed.

(** X13. When the fetch of the seed page raises no interrupt, and [urljoin]
    and [urlparse] raise on no link of a fetched page, the crawl of a site
    has between 1 and 120 candidate pages, and no page twice.  What
    [discover_links] raises, the crawl raises before it visits a page. *)
Theorem scrape_site_frontier_bounds (start_url : string)
    (allow deny : option (list string)) (resp : fetch_result) :
  ((forall e, resp = FetchRaised e -> is_Exception e = true) ->
   (forall hrefs, resp = Fetched hrefs ->
      links_resolve urljoin urlparse start_url hrefs) ->
   exists cands,
     scrape_site_frontier re_search urljoin urlparse start_url allow deny resp
     = Returned cands
     /\ (1 <= length cands <= 120)%nat
     /\ NoDup cands)
  /\ forall e,
       discover_links re_search urljoin urlparse start_url 1 true allow deny
         resp = Raised e ->
       scrape_site_frontier re_search urljoin urlparse start_url allow deny
         resp = Raised e.
Proof.
  split.
  - intros He Hres. unfold scrape_site_frontier.
    destruct (discover_links_returns start_url 1 true allow deny resp He Hres)
      as (out & -> & Hnd & Hlen).
    cbn. eexists. split; [done |]. unfold scrape_site_candidates.
    destruct out as [|x out].
    + simpl. split; [lia |]. apply NoDup_singleton.
    + split.
      * rewrite length_take. unfold MAX_LINKS_PER_SITE. simpl length. lia.
      * eapply sublist_NoDup; [exact Hnd | apply sublist_take].
  - intros e He. unfold scrape_site_frontier. by rewrite He.
Qed.

End FrontierProps.

(** ** The site-rule presets *)

Lemma resolve_rules_eq (host : string) (allow deny : option (list string)) :
  resolve_rules host allow deny
  = match find (fun '(site, _, _) => contains host site) SITE_RULES with
    | Some (_, al, dn) => (Some (default al allow), Some (default dn deny))
    | None => (allow, deny)
    end.
Proof.
  unfold resolve_rules.
  match goal with
  | |- context [find ?f SITE_RULES] =>
      destruct (find f SITE_RULES) as [[[site al] dn]|]
  end.
  - destruct allow, deny;
      rewrite ?(bool_decide_eq_true_2 (None = None)) by done;
      rewrite ?bool_decide_eq_false_2 by done; done.
  - by destruct (_ || _).
Qed.

(** X14. A filter the caller supplies is never replaced by a preset; for a
    host that contains no registered site both filters stay as given; for a
    host that contains one, the presets of a site it contains fill exactly
    the filters left [None]. *)
Theorem resolve_rules_precedence (host : string)
    (allow deny : option (list string)) :
  (forall a, allow = Some a -> (resolve_rules host allow deny).1 = Some a)
  /\ (forall d, deny = Some d -> (resolve_rules host allow deny).2 = Some d)
  /\ ((forall site al dn, (site, al, dn) ∈ SITE_RULES ->
         contains host site = false) ->
      resolve_rules host allow deny = (allow, deny))
  /\ (forall site al dn,
        (site, al, dn) ∈ SITE_RULES -> contains host site = true ->
        exists site' al' dn',
          (site', al', dn') ∈ SITE_RULES /\ contains host site' = true
          /\ resolve_rules host None None = (Some al', Some dn')
          /\ resolve_rules host allow deny
             = (Some (default al' allow), Some (default dn' deny))).
Proof.
  rewrite !resolve_rules_eq.
  destruct (find (fun '(site, _, _) => contains host site) SITE_RULES)
    as [[[site' al'] dn']|] eqn:Hf.
  - pose proof Hf as Hf'. apply find_some in Hf' as [Hin' Ht].
    apply list_elem_of_In in Hin'.
    split; [by intros a -> |]. split; [by intros d -> |]. split.
    + intros Hno. by rewrite (Hno _ _ _ Hin') in Ht.
    + intros _ _ _ _ _. by exists site', al', dn'.
  - split; [by intros a -> |]. split; [by intros d -> |]. split; [done |].
    intros site al dn Hin Hc.
    apply list_elem_of_In in Hin.
    pose proof (find_none _ _ Hf (site, al, dn) Hin) as Hn. simpl in Hn.
    congruence.
Qed.

Lemma discover_links_never_keeps_witness :
  exists parsed u,
    urlparse_simple "https://www.bk-management.com/purdue" = Returned parsed
    /\ urlparse_simple "https://www.bk-management.com/vacancies#unit_4"
       = Returned u
    /\ netloc u = netloc parsed.
Proof.
  assert (discover_links literal_search urljoin_absolute urlparse_simple
            "https://www.bk-management.com/purdue" 1 true None None
            (Fetched ["https://www.bk-management.com/purdue/a";
                      "mailto:office@bk-management.com";
                      "https://elsewhere.com/purdue";
                      "https://www.bk-management.com/vacancies#unit_4"])
          = Returned ["https://www.bk-management.com/purdue/a";
                      "https://www.bk-management.com/vacancies#unit_4"])
    as Hout by (by vm_compute).
  assert ("https://www.bk-management.com/vacancies#unit_4"
          ∈ ["https://www.bk-management.com/purdue/a";
             "https://www.bk-management.com/vacancies#unit_4"]) as Hx
    by (right; left).
  destruct (discover_links_never_keeps literal_search urljoin_absolute
              urlparse_simple _ _ _ _ _ _ _ _ Hout Hx)
    as (parsed & u & Hp & Hu & _ & Hhost & _).
  exists parsed, u. split; [exact Hp |]. split; [exact Hu |].
  by apply Hhost.
Defined.

Lemma scrape_site_frontier_bounds_witness :
  exists cands,
    scrape_site_frontier literal_search urljoin_absolute urlparse_simple
      "https://x.com/plans" None None
      (Fetched ["https://x.com/a"; "https://x.com/b"; "https://x.com/a"])
    = Returned cands
    /\ (1 <= length cands <= 120)%nat /\ NoDup cands.
Proof.
  apply (proj1 (scrape_site_frontier_bounds literal_search urljoin_absolute
                  urlparse_simple "https://x.com/plans" None None
                  (Fetched ["https://x.com/a"; "https://x.com/b";
                            "https://x.com/a"]))).
  - intros e H. discriminate H.
  - intros hrefs [= <-]. exact links_resolve_example.
Defined.

(** ** Slugs *)

Lemma collapsed_prefix (cls : ascii -> bool) (rep : ascii) (b : bool)
    (a r : string) :
  collapsed cls rep b (a ++ r) = true -> collapsed cls rep b a = true.
Proof.
  revert b. induction a as [|c a IH]; intros b; simpl; [done |].
  destruct (cls c); [| apply IH].
  intros [H Hs]%andb_true_iff. rewrite H. by apply (IH true).
Qed.

Lemma collapsed_suffix (cls : ascii -> bool) (rep : ascii) (b : bool)
    (a r : string) :
  collapsed cls rep b (a ++ r) = true -> collapsed cls rep false r = true.
Proof.
  revert b. induction a as [|c a IH]; intros b; simpl.
  - apply collapsed_weaken.
  - destruct (cls c); [| apply IH]. intros [_ Hs]%andb_true_iff.
    by apply (IH true).
Qed.

Lemma rstrip_prefix (p : ascii -> bool) (s : string) :
  exists t, s = rstrip_of p s ++ t.
Proof.
  induction s as [|c s [t IH]]; [by exists "" |]. simpl.
  destruct (p c && is_empty (rstrip_of p s)).
  - by exists (String c s).
  - exists t. simpl. by rewrite <- IH.
Qed.

Lemma take_drop_str (n : nat) (s : string) : s = take_str n s ++ drop_str n s.
Proof.
  revert s. induction n as [|n IH]; intros [|c s]; simpl; try done.
  by rewrite <- IH.
Qed.

Lemma collapsed_strip_of (cls q : ascii -> bool) (rep : ascii) (s : string) :
  collapsed cls rep false s = true ->
  collapsed cls rep false (strip_of q s) = true.
Proof.
  intros Hs. unfold strip_of, lstrip_of, drop_while.
  destruct (span_while_spec q s) as (_ & Hsplit & _).
  rewrite Hsplit in Hs. apply collapsed_suffix in Hs.
  destruct (rstrip_prefix q (span_while q s).2) as [t Ht].
  rewrite Ht in Hs. by apply collapsed_prefix in Hs.
Qed.

Lemma collapsed_take (cls : ascii -> bool) (rep : ascii) (n : nat)
    (s : string) :
  collapsed cls rep false s = true ->
  collapsed cls rep false (take_str n s) = true.
Proof.
  intros Hs. rewrite (take_drop_str n s) in Hs. by apply collapsed_prefix in Hs.
Qed.

Lemma first_char_take (p : ascii -> bool) (n : nat) (s : string) :
  not_in_class p (first_char s) = true ->
  not_in_class p (first_char (take_str n s)) = true.
Proof. by destruct n, s. Qed.

Lemma collapsed_slug_chars (b : bool) (s : string) :
  collapsed not_slug_char hyphen b s = true -> sforall is_slug_char s = true.
Proof.
  revert b. induction s as [|c s IH]; intros b; simpl; [done |].
  unfold is_slug_char at 1. destruct (not_slug_char c); simpl.
  - intros [[-> _]%andb_true_iff Hs]%andb_true_iff. by apply (IH true).
  - apply IH.
Qed.

Lemma slug_hyphen_class : not_slug_char hyphen = true.
Proof. done. Qed.

(** The slug before the fallback to ["unit"]. *)
Lemma slug_body_shape (s : string) :
  let r := take_str 60
             (strip_of (Ascii.eqb hyphen)
                (sub_runs not_slug_char hyphen false (lower s))) in
  collapsed not_slug_char hyphen false r = true
  /\ not_in_class (Ascii.eqb hyphen) (first_char r) = true
  /\ (String.length r <= 60)%nat.
Proof.
  intros r. split; [| split].
  - apply collapsed_take, collapsed_strip_of.
    apply sub_runs_collapsed, slug_hyphen_class.
  - apply first_char_take. unfold strip_of.
    apply first_char_rstrip, first_char_drop_while.
  - apply length_take_str.
Qed.

(** X15. A slug is never empty and never longer than 60 characters; it
    holds lower-case letters, digits and hyphens only, never two hyphens in
    a row, and never starts with a hyphen. *)
Theorem slug_shape (o : option string) :
  is_empty (_slug o) = false
  /\ (String.length (_slug o) <= 60)%nat
  /\ sforall is_slug_char (_slug o) = true
  /\ collapsed not_slug_char hyphen false (_slug o) = true
  /\ not_in_class (Ascii.eqb hyphen) (first_char (_slug o)) = true.
Proof.
  unfold _slug. cbv zeta.
  destruct (slug_body_shape (default "" o)) as (H1 & H2 & H3).
  destruct (is_empty (take_str 60 _)) eqn:He.
  - repeat split; try (by vm_compute); simpl; lia.
  - repeat split; try done. by apply (collapsed_slug_chars false).
Qed.

(** *** A slug that was not cut is a fixed point *)

Lemma length_sub_runs (cls : ascii -> bool) (rep : ascii) (b : bool)
    (s : string) :
  (String.length (sub_runs cls rep b s) <= String.length s)%nat.
Proof.
  revert b. induction s as [|c s IH]; intros b; simpl; [lia |].
  destruct (cls c); [destruct b |]; simpl;
    [specialize (IH true) | specialize (IH true) | specialize (IH false)]; lia.
Qed.

Lemma length_strip_of (p : ascii -> bool) (s : string) :
  (String.length (strip_of p s) <= String.length s)%nat.
Proof.
  unfold strip_of, lstrip_of, drop_while.
  destruct (span_while_spec p s) as (_ & Hsplit & _).
  destruct (rstrip_prefix p (span_while p s).2) as [t Ht].
  apply (f_equal String.length) in Hsplit, Ht.
  rewrite length_append in Hsplit, Ht. lia.
Qed.

Lemma take_str_all (n : nat) (s : string) :
  (String.length s <= n)%nat -> take_str n s = s.
Proof.
  revert s. induction n as [|n IH]; intros [|c s]; simpl; try done; [lia |].
  intros H. rewrite IH; [done | lia].
Qed.

Lemma slug_char_lower (c : ascii) :
  is_slug_char c = true -> Ascii.eqb (lower_char c) c = true.
Proof.
  destruct c as [[] [] [] [] [] [] [] []]; vm_compute; congruence.
Qed.

Lemma slug_fixed (r : string) :
  collapsed not_slug_char hyphen false r = true ->
  trimmed_of (Ascii.eqb hyphen) r = true ->
  (String.length r <= 60)%nat -> is_empty r = false ->
  _slug (Some r) = r.
Proof.
  intros Hc Ht Hlen Hne. unfold _slug. cbv zeta.
  change (default "" (Some r)) with r.
  unfold lower. rewrite smap_fixed.
  - rewrite collapsed_sub_runs_id by done.
    rewrite strip_fixed by done. rewrite take_str_all by done.
    by rewrite Hne.
  - eapply sforall_impl; [apply slug_char_lower |].
    by apply (collapsed_slug_chars false).
Qed.

(** X16. On a text whose lower-cased form has at most 60 characters the
    slug is not cut: it neither starts nor ends with a hyphen, and [_slug]
    maps it to itself. *)
Theorem slug_idempotent_when_short (o : option string) :
  (String.length (lower (default "" o)) <= 60)%nat ->
  _slug (Some (_slug o)) = _slug o
  /\ trimmed_of (Ascii.eqb hyphen) (_slug o) = true.
Proof.
  intros Hlen. unfold _slug at 2 3 4. cbv zeta.
  set (body := strip_of (Ascii.eqb hyphen)
                 (sub_runs not_slug_char hyphen false (lower (default "" o)))).
  assert (String.length body <= 60)%nat as Hb.
  { unfold body. etrans; [apply length_strip_of |].
    etrans; [apply length_sub_runs | done]. }
  rewrite take_str_all by done.
  destruct (is_empty body) eqn:He; [by vm_compute |].
  assert (trimmed_of (Ascii.eqb hyphen) body = true) as Ht
    by apply strip_of_trimmed.
  split; [| done]. apply slug_fixed; try done.
  apply collapsed_strip_of, sub_runs_collapsed, slug_hyphen_class.
Qed.

Lemma slug_idempotent_when_short_witness :
  _slug (Some (_slug (Some "Studio (Furnished)")))
  = _slug (Some "Studio (Furnished)").
Proof.
  apply (slug_idempotent_when_short (Some "Studio (Furnished)")).
  simpl. lia.
Defined.

(** A slug cut at 60 characters may end with a hyphen, and is then not a
    fixed point. *)
Example slug_cut_not_idempotent :
  let t := "aaaaaaaaaaaaaaaaaaaaaaaaaaaaaaaaaaaaaaaaaaaaaaaaaaaaaaaaaaa b" in
  _slug (Some t)
  = "aaaaaaaaaaaaaaaaaaaaaaaaaaaaaaaaaaaaaaaaaaaaaaaaaaaaaaaaaaa-"
  /\ _slug (Some (_slug (Some t)))
     = "aaaaaaaaaaaaaaaaaaaaaaaaaaaaaaaaaaaaaaaaaaaaaaaaaaaaaaaaaaa".
Proof. by vm_compute. Qed.

(** ** The collision loop *)

(** X17. The collision loop of [_stabilize_unit_urls] returns the first
    free candidate: the synthesized url itself when it is not in [seen], and
    else the url with the least counter from 2 on whose candidate is not in
    [seen]. *)
Theorem unique_url_first_free (seen : gset string) (synth : string) :
  (unique_url seen synth ∉ seen)
  /\ (synth ∉ seen -> unique_url seen synth = synth)
  /\ (synth ∈ seen ->
      exists i, 2 <= i
        /\ unique_url seen synth = synth ++ "-" ++ pretty i
        /\ forall j, 2 <= j < i -> synth ++ "-" ++ pretty j ∈ seen).
Proof.
  destruct (unique_url_fresh seen synth) as [Hfresh _].
  split; [done |]. split.
  - intros Hn. unfold unique_url. simpl. by rewrite bool_decide_eq_false_2.
  - intros Hin.
    destruct (probe_least seen synth (S (size seen)) 1 synth)
      as (k & Hk & Hcand & Hseen); [by left |].
    fold (unique_url seen synth) in Hcand.
    destruct Hcand as [[-> Heq] | [Hk2 Heq]].
    + by rewrite Heq in Hfresh.
    + exists k. split; [done |]. split; [done |].
      intros j Hj. apply (Hseen j); [lia |]. right. split; [lia | done].
Qed.

(** ** The store *)

Lemma foldl_upsert_keeps (t : gmap string row) (rs : list listing)
    (k : string) :
  is_Some (t !! k) -> is_Some (foldl upsert t rs !! k).
Proof.
  revert t. induction rs as [|r rs IH]; intros t Hk; [done |].
  simpl. apply IH. rewrite upsert_insert.
  destruct (decide (url r = k)) as [<- | Hne].
  - rewrite lookup_insert_eq. eauto.
  - by rewrite lookup_insert_ne.
Qed.

Lemma foldl_upsert_written (t : gmap string row) (rs : list listing)
    (r : listing) :
  r ∈ rs -> is_Some (foldl upsert t rs !! url r).
Proof.
  revert t. induction rs as [|r' rs IH]; intros t; [by intros ?%elem_of_nil |].
  intros [-> | Hin]%elem_of_cons; simpl; [| by apply IH].
  apply foldl_upsert_keeps. rewrite upsert_insert, lookup_insert_eq. eauto.
Qed.

Lemma foldl_upsert_source (t : gmap string row) (rs : list listing)
    (k : string) (v : row) :
  foldl upsert t rs !! k = Some v ->
  t !! k = Some v \/ exists r, r ∈ rs /\ url r = k /\ v = row_of r.
Proof.
  revert t. induction rs as [|r rs IH]; intros t; [by left |].
  simpl. intros [Hk | (r' & Hin & Hu & Hv)]%IH.
  - rewrite upsert_insert in Hk.
    destruct (decide (url r = k)) as [<- | Hne].
    + rewrite lookup_insert_eq in Hk. injection Hk as <-.
      right. exists r. split; [left | done].
    + rewrite lookup_insert_ne in Hk by done. by left.
  - right. exists r'. split; [by right | done].
Qed.

Lemma foldl_upsert_size (t : gmap string row) (rs : list listing) :
  (size (foldl upsert t rs) <= size t + length rs)%nat.
Proof.
  revert t. induction rs as [|r rs IH]; intros t; simpl; [lia |].
  etrans; [apply IH |]. rewrite upsert_insert.
  pose proof (map_size_insert (url r) (row_of r) t) as Hs.
  destruct (t !! url r); simpl in Hs |- *; lia.
Qed.

Lemma length_omap_le {A B} (f : A -> option B) (l : list A) :
  (length (omap f l) <= length l)%nat.
Proof.
  unfold omap. induction l as [|x l IH]; simpl; [lia |].
  destruct (f x); simpl; lia.
Qed.

(** X18. [insert_listings] returns the number of priced listings it was
    given when the price and the bed count of each of them fit 64 bits;
    when one does not, it raises [OverflowError] and leaves the table as it
    was.  When there is no priced listing it leaves the listings and the
    table as they are.  It never deletes a row; when it returns, every
    priced listing has a row under its final url; every row of the table is
    an old row or holds the fields of a priced listing of the batch; and the
    table grows by at most the number of priced listings. *)
Theorem insert_listings_effect (h : heap) (t : gmap string row)
    (ls : list nat) :
  let '(h', t', res) := insert_listings h t ls in
  let n := length (filter (fun l => priced h l) ls) in
  (Forall (fun r => binds r = true) (submitted h' ls) -> res = Returned n)
  /\ (Exists (fun r => binds r = false) (submitted h' ls) ->
      res = Raised OverflowError /\ t' = t)
  /\ (n = 0%nat -> h' = h /\ t' = t /\ res = Returned 0%nat)
  /\ (forall k, is_Some (t !! k) -> is_Some (t' !! k))
  /\ (res = Returned n ->
      forall l rec, l ∈ ls -> priced h l = true -> h' !! l = Some rec ->
        is_Some (t' !! url rec))
  /\ (forall k v, t' !! k = Some v ->
        t !! k = Some v
        \/ exists l rec, l ∈ ls /\ priced h l = true /\ h' !! l = Some rec
             /\ url rec = k /\ row_holds v rec)
  /\ (size t' <= size t + n)%nat.
Proof.
  rewrite insert_listings_eq.
  set (h' := _stabilize_unit_urls h (filter (fun l => priced h l) ls)).
  destruct (submitted_stabilized h h' ls (only_urls_stabilize h _)) as [E L].
  assert (Hnil : filter (fun l => priced h l) ls = [] ->
                 h' = h /\ submitted h' ls = []).
  { intros Hn. rewrite E. subst h'. by rewrite Hn. }
  destruct (forallb binds (submitted h' ls)) eqn:B; cbv zeta.
  - split; [by rewrite L |]. split.
    { intros Hex%forallb_binds_false. congruence. }
    split.
    { intros Hn%nil_length_inv. by destruct (Hnil Hn) as [-> ->]. }
    split; [apply foldl_upsert_keeps |]. split; [| split].
    + intros _ l rec Hl Hp Hrec. apply foldl_upsert_written.
      rewrite E. apply list_elem_of_omap. exists l. split; [| done].
      apply list_elem_of_filter. split; [by apply Is_true_true | done].
    + intros k v [Hk | (rec & Hin & Hu & ->)]%foldl_upsert_source;
        [by left |].
      right. rewrite E in Hin.
      apply list_elem_of_omap in Hin as (l & [Hp Hl]%list_elem_of_filter & Hrec).
      exists l, rec. split; [done |]. split; [by apply Is_true_true |].
      split; [done |]. split; [done | apply row_of_holds].
    + etrans; [apply foldl_upsert_size |]. by rewrite L.
  - split.
    { intros Hall%forallb_binds. congruence. }
    split; [done |]. split.
    { intros Hn%nil_length_inv. destruct (Hnil Hn) as [_ Hs].
      by rewrite Hs in B. }
    split; [done |]. split; [done |]. split; [by left | lia].
Qed.

(** ** _parse_baths *)

Lemma baths_at_some (s m : string) : baths_at s = Some m -> is_number m.
Proof.
  unfold baths_at. destruct (number_at s) as [m'|] eqn:Hm; [| done].
  destruct (_ || _); [| done]. intros [= <-]. by apply (number_at_some s).
Qed.

Lemma parse_baths_nonneg (text : string) : (0 <= _parse_baths text)%Q.
Proof.
  unfold _parse_baths.
  destruct (search baths_at _) as [m|] eqn:Hm; [| done].
  apply search_some in Hm as [s' Hs']. eapply float_of_literal_nonneg.
  by apply (baths_at_some s').
Qed.

Lemma expand_fractions_app (a b : string) :
  expand_fractions (a ++ b) = expand_fractions a ++ expand_fractions b.
Proof.
  induction a as [|c a IH]; [done |]. cbn [String.append expand_fractions].
  rewrite IH. by repeat case_match.
Qed.

Lemma digit_not_glyph (c : ascii) :
  is_digit c = true ->
  Ascii.eqb c half_glyph = false /\ Ascii.eqb c quarter_glyph = false
  /\ Ascii.eqb c three_quarters_glyph = false.
Proof. destruct c as [[] [] [] [] [] [] [] []]; vm_compute; by intros. Qed.

Lemma expand_fractions_digits (d : string) :
  sforall is_digit d = true -> expand_fractions d = d.
Proof.
  induction d as [|c d IH]; [done |]. cbn [sforall expand_fractions].
  intros [Hc Hd]%andb_true_iff.
  destruct (digit_not_glyph c Hc) as (-> & -> & ->). by rewrite IH.
Qed.

Lemma number_at_fraction (i f r : string) :
  sforall is_digit i = true -> is_empty i = false ->
  sforall is_digit f = true -> is_empty f = false ->
  not_in_class is_digit (first_char r) = true ->
  number_at (i ++ String dot (f ++ r)) = Some (i ++ String dot f).
Proof.
  intros Hi Hie Hf Hfe Hr. unfold number_at.
  rewrite span_while_app by done. rewrite Hie.
  rewrite span_while_app by done. by rewrite Hfe.
Qed.

Lemma drop_str_app (a b : string) : drop_str (String.length a) (a ++ b) = b.
Proof. induction a as [|c a IH]; simpl; [by destruct b | done]. Qed.

Lemma float_of_half (d : string) :
  sforall is_digit d = true ->
  (float_of_literal (d ++ ".5") == inject_Z (digits_to_Z d) + (1 # 2))%Q.
Proof.
  intros Hd. rewrite float_of_literal_number by done.
  unfold digits_to_Z. rewrite digits_to_Z_from_app.
  set (v := digits_to_Z_from 0 d).
  change (digits_to_Z_from v "5") with (10 * v + 5).
  unfold Qeq, Qdiv, Qmult, Qinv, Qplus, inject_Z. simpl. lia.
Qed.

Lemma baths_at_half (d rest : string) :
  sforall is_digit d = true -> is_empty d = false ->
  baths_at (d ++ ".5" ++ " Bath" ++ rest) = Some (d ++ ".5").
Proof.
  intros Hd Hne. unfold baths_at.
  change (d ++ ".5" ++ " Bath" ++ rest)
    with (d ++ String dot ("5" ++ " Bath" ++ rest)).
  rewrite number_at_fraction by done.
  change (d ++ String dot ("5" ++ " Bath" ++ rest))
    with (d ++ ".5" ++ " Bath" ++ rest).
  rewrite <- append_assoc, drop_str_app.
  assert (startswith_ci (drop_while is_space (" Bath" ++ rest)) "bath" = true)
    as ->; [| done].
  unfold startswith_ci, lower, drop_while. simpl.
  by destruct (smap lower_char rest).
Qed.

Lemma baths_at_whole (d rest : string) :
  sforall is_digit d = true -> is_empty d = false ->
  baths_at (d ++ " Bath" ++ rest) = Some d.
Proof.
  intros Hd Hne. unfold baths_at.
  rewrite number_at_digits by done. rewrite drop_str_app.
  assert (startswith_ci (drop_while is_space (" Bath" ++ rest)) "bath" = true)
    as ->; [| done].
  unfold startswith_ci, lower, drop_while. simpl.
  by destruct (smap lower_char rest).
Qed.

(** X19. [_parse_baths] never returns a negative count.  Digits followed by
    the one-half glyph and " Bath" give the number the digits denote (below
    2^52, where the float is exact) plus one half; the glyph alone in front
    of " Bath" gives 5, the digit of its expansion ".5". *)
Theorem parse_baths_fractions :
  (forall text, (0 <= _parse_baths text)%Q)
  /\ (forall d rest,
        sforall is_digit d = true -> is_empty d = false ->
        digits_to_Z d < 2 ^ 52 ->
        (_parse_baths (d ++ String half_glyph (" Bath" ++ rest))
         == inject_Z (digits_to_Z d) + (1 # 2))%Q)
  /\ (forall rest,
        _parse_baths (String half_glyph (" Bath" ++ rest)) = 5%Q).
Proof.
  split; [apply parse_baths_nonneg |]. split.
  - intros d rest Hd Hne _. unfold _parse_baths.
    rewrite expand_fractions_app, expand_fractions_digits by done.
    change (expand_fractions (String half_glyph (" Bath" ++ rest)))
      with (".5" ++ " Bath" ++ expand_fractions rest).
    rewrite (search_here _ _ _ (baths_at_half d _ Hd Hne)).
    by apply float_of_half.
  - intros rest. unfold _parse_baths.
    change (expand_fractions (String half_glyph (" Bath" ++ rest)))
      with (String dot ("5" ++ " Bath" ++ expand_fractions rest)).
    rewrite search_next by done.
    by rewrite (search_here _ _ "5" (baths_at_whole "5" _ eq_refl eq_refl)).
Qed.

Lemma omap_lookup_seq (pre h : heap) :
  omap (fun l => (pre ++ h)%list !! l) (seq (length pre) (length h)) = h.
Proof.
  revert pre. induction h as [|x h IH]; intros pre; [done |].
  cbn [length seq omap list_omap]. rewrite list_lookup_middle by done.
  cbn. f_equal. specialize (IH (pre ++ [x])%list).
  rewrite length_app in IH. cbn [length] in IH.
  rewrite Nat.add_1_r, <- (assoc_L (++)%list) in IH. exact IH.
Qed.

Lemma only_urls_forallb (h h' : heap) :
  only_urls h h' -> forallb binds h' = forallb binds h.
Proof.
  revert h'. induction h as [|r h IH]; intros h' [Hlen Hl].
  - by destruct h'.
  - destruct h' as [|r' h']; [done |]. cbn [forallb].
    pose proof (Hl O) as H0. cbn in H0. injection H0 as H1 H2 H3 H4 H5 H6.
    f_equal.
    + unfold binds. cbn in *. by rewrite H3, H4.
    + apply IH. split; [cbn in Hlen; lia |]. intros l. apply (Hl (S l)).
Qed.

(** ** The entry point over several pages *)

Section EntryProps.

Variable parse_html : string -> string -> outcome (list listing).

Lemma parse_pages_spec (items : list (string * string))
    (acc : list listing) :
  (forall u h e, (u, h) ∈ items -> parse_html u h = Raised e ->
     is_Exception e = true) ->
  parse_pages parse_html items acc
  = Returned (acc ++ flat_map (page_records parse_html) items)%list.
Proof.
  revert acc. induction items as [|[u h] items IH]; intros acc Hexn.
  - simpl. by rewrite app_nil_r.
  - assert (forall u' h' e, (u', h') ∈ items ->
              parse_html u' h' = Raised e -> is_Exception e = true) as Hrest.
    { intros u' h' e Hin. apply Hexn. by right. }
    cbn [parse_pages flat_map]. unfold page_records at 1. cbn [fst snd].
    destruct (parse_html u h) as [recs|e] eqn:Hp.
    + rewrite IH by done. by rewrite (assoc_L (++)%list).
    + rewrite (Hexn u h e); [| left | done]. by rewrite IH.
Qed.

Lemma keep_priced_elem (recs : list listing) (r : listing) :
  r ∈ keep_priced recs <-> r ∈ recs /\ price r <> 0.
Proof.
  unfold keep_priced. rewrite !list_elem_of_In, filter_In.
  rewrite negb_true_iff, Z.eqb_neq. done.
Qed.

(** X20. [parse_html_many] on a dict of pages whose parsers raise no
    interrupt returns, page after page, the priced records of the pages
    that parsed; a page whose parser raises contributes nothing and stops
    nothing.  On arguments of any other shape it raises [TypeError]. *)
Theorem parse_html_many_isolates_failures (pages : list (string * string)) :
  (forall u h e, (u, h) ∈ pages -> parse_html u h = Raised e ->
     is_Exception e = true) ->
  parse_html_many parse_html (ArgsDict pages)
  = Returned (flat_map (page_records parse_html) pages)
  /\ (forall r, r ∈ flat_map (page_records parse_html) pages <->
        exists u h recs, (u, h) ∈ pages /\ parse_html u h = Returned recs
          /\ r ∈ recs /\ price r <> 0)
  /\ parse_html_many parse_html ArgsOther = Raised TypeError.
Proof.
  intros Hexn. split; [| split; [| done]].
  - unfold parse_html_many. by rewrite parse_pages_spec.
  - intros r. rewrite list_elem_of_In, in_flat_map. split.
    + intros ([u h] & Hin & Hr). apply list_elem_of_In in Hin, Hr.
      unfold page_records in Hr. cbn [fst snd] in Hr.
      destruct (parse_html u h) as [recs|e] eqn:Hp;
        [| by apply elem_of_nil in Hr].
      apply keep_priced_elem in Hr as [Hr Hprice]. by exists u, h, recs.
    + intros (u & h & recs & Hin & Hp & Hr & Hprice). exists (u, h).
      split; [by apply list_elem_of_In |]. apply list_elem_of_In.
      unfold page_records. cbn [fst snd]. rewrite Hp.
      by apply keep_priced_elem.
Qed.

Lemma filter_all {A} (p : A -> bool) (l : list A) :
  (forall x, x ∈ l -> p x = true) -> filter (fun x => p x) l = l.
Proof.
  induction l as [|x l IH]; intros H; [done |].
  rewrite filter_cons_True by (apply Is_true_true, H; left).
  f_equal. apply IH. intros y Hy. apply H. by right.
Qed.

(** X21. Every record [parse_html_many] returns for a page has a non-zero
    price, so [insert_listings] on these records counts all of them, as
    [scrape_site] adds up, when their bed counts (and prices) fit 64 bits;
    when one does not, [insert_listings] raises [OverflowError]. *)
Theorem parsed_records_all_inserted (url html : string)
    (results : list listing) (t : gmap string row) :
  parse_html_many parse_html (ArgsUrlHtml url html) = Returned results ->
  (forall r, r ∈ results -> price r <> 0)
  /\ (Forall (fun r => binds r = true) results ->
      (insert_listings results t (seq 0 (length results))).2
      = Returned (length results))
  /\ (Exists (fun r => binds r = false) results ->
      (insert_listings results t (seq 0 (length results))).2
      = Raised OverflowError).
Proof.
  intros Hres.
  assert (forall r, r ∈ results -> price r <> 0) as Hprice.
  { revert Hres. unfold parse_html_many. cbn [parse_pages].
    destruct (parse_html url html) as [recs|e];
      [| destruct (is_Exception e)]; cbn [app]; intros [= <-];
      try (by intros r ?%elem_of_nil).
    by intros r [_ ?]%keep_priced_elem. }
  split; [done |].
  rewrite insert_listings_eq.
  set (ls := seq 0 (length results)).
  set (h' := _stabilize_unit_urls results (filter (fun l => priced results l) ls)).
  pose proof (only_urls_stabilize results
                (filter (fun l => priced results l) ls)) as Hu.
  fold h' in Hu.
  assert (submitted h' ls = h') as Hs.
  { destruct (submitted_stabilized results h' ls Hu) as [-> _].
    rewrite filter_all.
    - unfold ls. destruct Hu as [<- _]. apply (omap_lookup_seq [] h').
    - intros l [_ Hl]%elem_of_seq.
      destruct (lookup_lt_is_Some_2 results l) as [r Hr]; [lia |].
      apply priced_true. exists r. split; [exact Hr |].
      by eapply Hprice, list_elem_of_lookup_2. }
  rewrite Hs, (only_urls_forallb results h' Hu).
  split.
  - intros Hall%forallb_binds. rewrite Hall. cbn.
    destruct Hu as [-> _]. done.
  - intros Hex%forallb_binds_false. by rewrite Hex.
Qed.

End EntryProps.

Lemma parse_html_many_isolates_failures_witness :
  parse_html_many parse_text_page
    (ArgsDict [("https://granitestudentliving.com/listings",
                "Unit 2 $, / month");
               ("https://x.com/plans", "2 Bed $1,200")])
  = Returned (parse_default short_decimal_str "11-03-2026"
                "https://x.com/plans" "West Lafayette, IN" "Listing"
                "2 Bed $1,200").
Proof.
  destruct (parse_html_many_isolates_failures parse_text_page
              [("https://granitestudentliving.com/listings",
                "Unit 2 $, / month");
               ("https://x.com/plans", "2 Bed $1,200")]) as [-> _].
  - intros u h e [[= -> ->] | [[= -> ->] | []%elem_of_nil]%elem_of_cons]
      %elem_of_cons; vm_compute; by intros [= <-].
  - by vm_compute.
Defined.

Lemma parsed_records_all_inserted_witness :
  let results :=
    parse_default short_decimal_str "11-03-2026" "https://x.com/plans"
      "West Lafayette, IN" "Listing" "A $1,200 B $1,300" in
  (insert_listings results ∅ (seq 0 (length results))).2
  = Returned (length results).
Proof.
  cbv zeta.
  destruct (parsed_records_all_inserted parse_text_page "https://x.com/plans"
              "A $1,200 B $1,300"
              (parse_default short_decimal_str "11-03-2026"
                 "https://x.com/plans" "West Lafayette, IN" "Listing"
                 "A $1,200 B $1,300") ∅) as (_ & H & _).
  - by vm_compute.
  - apply H. apply forallb_binds. by vm_compute.
Defined.

(** ** The AppFolio strategies *)

Lemma head_plausible (text : option string) (p : Z) :
  head (_prices_from_text text) = Some p -> 300 <= p <= 6000.
Proof.
  intros Hp. apply (prices_from_text_plausible text).
  destruct (_prices_from_text text) as [|q l]; [done |].
  injection Hp as ->. left.
Qed.

Lemma first_price_plausible (it : listing_item) (p : Z) :
  first_price it = Some p -> 300 <= p <= 6000.
Proof.
  unfold first_price. destruct (rent_text it); [| done]. apply head_plausible.
Qed.

Lemma normalize_beds_digits (float_str : Q -> string) (g : string) :
  sforall is_digit g = true -> is_empty g = false ->
  normalize_beds float_str (Some (PStr g)) = Some (digits_to_Z g).
Proof.
  intros Hg Hne. unfold normalize_beds, py_str.
  destruct (numeral_plain g (digits_sign_or_digit g Hg)) as [-> ->].
  by rewrite (search_here _ _ g (digits_at_digits g Hg Hne)).
Qed.

Lemma beds_group_digits (it : listing_item) (g : string) :
  beds_group it = Some g -> sforall is_digit g = true /\ is_empty g = false.
Proof.
  unfold beds_group. destruct (beds_text it) as [t|]; [| done].
  intros [s' Hs']%search_some. by apply (digits_at_some s').
Qed.

Lemma omap_first_price (f : listing_item -> option listing)
    (items : list listing_item) :
  (forall it, match first_price it with
              | None => f it = None
              | Some p => exists rec, f it = Some rec /\ price rec = p
              end) ->
  price <$> omap f items = omap first_price items.
Proof.
  intros Hf. induction items as [|it items IH]; [done |].
  cbn [omap list_omap]. specialize (Hf it).
  destruct (first_price it) as [p|].
  - destruct Hf as (rec & -> & <-). rewrite fmap_cons. by f_equal.
  - by rewrite Hf.
Qed.

Section AppFolioProps.

Variable float_str : Q -> string.
Variable now : string.

Lemma weida_item_price (u : string) (it : listing_item) :
  match first_price it with
  | None => weida_item float_str now u it = None
  | Some p =>
      exists rec, weida_item float_str now u it = Some rec /\ price rec = p
  end.
Proof.
  unfold weida_item. destruct (first_price it) as [p|] eqn:Hp; [| done].
  by apply mk_record_int, first_price_plausible with it.
Qed.

Lemma bk_item_price (u : string) (it : listing_item) :
  match first_price it with
  | None => bk_item float_str now u it = None
  | Some p =>
      exists rec, bk_item float_str now u it = Some rec /\ price rec = p
  end.
Proof.
  unfold bk_item. destruct (first_price it) as [p|] eqn:Hp; [| done].
  by apply mk_record_int, first_price_plausible with it.
Qed.

(** X22. [parse_weida] yields one record for each item that has a rent
    element with a plausible price, priced at the first such price, and
    none for the other items.  The record has the page url and the company;
    its title is the text of the address element, the company when that
    text is empty, "Weida Unit" when there is no such element; its bed
    count is the first number of the beds element, 0 when there is none. *)
Theorem parse_weida_items (u : string) (items : list listing_item) :
  price <$> parse_weida float_str now u items = omap first_price items
  /\ forall it rec, weida_item float_str now u it = Some rec ->
       first_price it = Some (price rec)
       /\ url rec = u
       /\ company rec = "Weida Apartments"
       /\ title rec
          = take_str 200
              (match address_text it with
               | Some (String c a) => String c a
               | Some EmptyString => "Weida Apartments"
               | None => "Weida Unit"
               end)
       /\ beds rec = Some (item_beds it)
       /\ address rec
          = normalize_address
              (Some (default "Weida Apartments, West Lafayette, IN"
                       (address_text it))).
Proof.
  split; [apply omap_first_price, weida_item_price |].
  intros it rec Hrec.
  pose proof (weida_item_price u it) as Hp. unfold weida_item in Hrec, Hp.
  destruct (first_price it) as [p|]; [| done].
  destruct Hp as (rec' & Hrec' & <-).
  assert (rec' = rec) as -> by congruence. clear Hrec'.
  apply mk_record_inv in Hrec as [v ->].
  cbn [url company title beds address price].
  repeat split.
  - by destruct (address_text it) as [[|c a]|].
  - unfold item_beds. destruct (beds_group it) as [g|] eqn:Hg.
    + destruct (beds_group_digits it g Hg) as [Hd Hne].
      destruct g as [|c g]; [done |]. by apply normalize_beds_digits.
    + by rewrite normalize_beds_int.
Qed.

(** X23. The first tier of [parse_bk] yields one record for each item with
    a plausible rent, priced at its first price.  When that tier yields a
    record the page text is not read; when it yields none, which happens
    exactly when no item has a plausible rent, the result has one record per
    price of the page text, with 0 beds and an empty address. *)
Theorem parse_bk_tiers (u : string) (items : list listing_item)
    (page_title text : string) :
  let structured := omap (bk_item float_str now u) items in
  price <$> structured = omap first_price items
  /\ (forall it rec, bk_item float_str now u it = Some rec ->
        company rec = "BK Management" /\ beds rec = Some (item_beds it))
  /\ (structured <> [] ->
      parse_bk float_str now u items page_title text = structured)
  /\ (structured = [] ->
      price <$> parse_bk float_str now u items page_title text
      = _prices_from_text (Some text)
      /\ forall rec,
           rec ∈ parse_bk float_str now u items page_title text ->
           company rec = "BK Management" /\ url rec = u
           /\ beds rec = Some 0 /\ address rec = "")
  /\ (structured = [] <-> forall it, it ∈ items -> first_price it = None).
Proof.
  intros structured.
  assert (price <$> structured = omap first_price items) as Hprices
    by apply omap_first_price, bk_item_price.
  split; [done |]. split; [| split; [| split]].
  - intros it rec Hrec. unfold bk_item in Hrec.
    destruct (first_price it) as [p|]; [| done].
    apply mk_record_inv in Hrec as [v ->]. cbn [company beds].
    split; [done |]. rewrite normalize_beds_int. f_equal.
    unfold item_beds. destruct (beds_group it) as [g|] eqn:Hg; [| done].
    destruct (beds_group_digits it g Hg) as [Hd _].
    apply digits_to_Z_nonneg in Hd. lia.
  - unfold parse_bk. fold structured. by destruct structured.
  - intros Hnil. unfold parse_bk. fold structured. rewrite Hnil. split.
    + apply omap_all_some. intros p Hp%prices_from_text_plausible.
      by apply mk_record_int.
    + intros rec (p & _ & Hrec)%list_elem_of_omap.
      apply mk_record_inv in Hrec as [v ->]. cbn [company url beds address].
      by rewrite normalize_beds_int.
  - split.
    + intros Hnil it Hit. rewrite Hnil in Hprices.
      destruct (first_price it) as [p|] eqn:Hp; [| done].
      assert (p ∈ omap first_price items) as Hin
        by (apply list_elem_of_omap; eauto).
      rewrite <- Hprices in Hin. by apply elem_of_nil in Hin.
    + intros Hnone. assert (omap first_price items = []) as Hnil.
      { clear Hprices. induction items as [|it items IH]; [done |].
        cbn [omap list_omap]. rewrite (Hnone it) by left.
        apply IH. intros it' Hit'. apply Hnone. by right. }
      rewrite Hnil in Hprices. by destruct structured.
Qed.

End AppFolioProps.

Example parse_weida_page :
  parse_weida short_decimal_str "11-03-2026"
    "https://weidaapartments.com/availability"
    [ListingItem (Some "RENT $1,095") (Some "320 Brown St, West Lafayette")
       (Some "Bed 2") (Some "Bath 1.5");
     ListingItem (Some "Call") (Some "101 State St") None None;
     ListingItem None None None None]
  = [Listing "https://weidaapartments.com/availability" "Weida Apartments"
       "320 Brown St, West Lafayette" 1095 (Some 2) (Some (15 # 10)%Q)
       "320 Brown St, West Lafayette" "11-03-2026"].
Proof. by vm_compute. Qed.

Example parse_bk_falls_back :
  parse_bk short_decimal_str "11-03-2026" "https://bk-management.com/vacancies"
    [ListingItem (Some "Call") (Some "101 State St") None None]
    "Vacancies" "Studios from $750"
  = [Listing "https://bk-management.com/vacancies" "BK Management"
       "Vacancies" 750 (Some 0) (Some (0 # 10)%Q) "" "11-03-2026"].
Proof. by vm_compute. Qed.

(** ** safe_sleep *)

Lemma sleep_chunks_quiet (interrupted : nat -> bool) (k chunks : nat) :
  (forall i, interrupted i = false) ->
  sleep_chunks interrupted k chunks = (replicate chunks (1 # 2)%Q, false).
Proof.
  intros Hq. revert k. induction chunks as [|n IH]; intros k; [done |].
  simpl. by rewrite Hq, IH.
Qed.

Lemma qsum_app (a b : list Q) : (qsum (a ++ b) == qsum a + qsum b)%Q.
Proof.
  induction a as [|x a IH]; simpl; [ring |]. rewrite IH. ring.
Qed.

Lemma qsum_replicate (n : nat) (q : Q) :
  (qsum (replicate n q) == inject_Z (Z.of_nat n) * q)%Q.
Proof.
  induction n as [|n IH]; [simpl; ring |].
  cbn [replicate qsum foldr]. fold (qsum (replicate n q)). rewrite IH.
  rewrite Nat2Z.inj_succ. unfold Z.succ. rewrite inject_Z_plus. ring.
Qed.

Lemma sleep_chunks_sum (interrupted : nat -> bool) (k chunks : nat) :
  (qsum (sleep_chunks interrupted k chunks).1
   <= inject_Z (Z.of_nat chunks) * (1 # 2))%Q
  /\ Forall (fun d => d = (1 # 2)%Q) (sleep_chunks interrupted k chunks).1.
Proof.
  revert k. induction chunks as [|n IH]; intros k.
  - split; [by vm_compute | constructor].
  - cbn [sleep_chunks]. rewrite Nat2Z.inj_succ. unfold Z.succ.
    rewrite inject_Z_plus. change (inject_Z 1) with 1%Q.
    destruct (interrupted k).
    + split; [| by repeat constructor]. cbn [fst qsum foldr].
      assert (0 <= inject_Z (Z.of_nat n))%Q
        by (unfold Qle, inject_Z; simpl; lia).
      lra.
    + destruct (IH (S k)) as [Hs Hf].
      destruct (sleep_chunks interrupted (S k) n) as [calls ret].
      cbn [fst] in *. split; [| by constructor].
      cbn [qsum foldr]. fold (qsum calls). lra.
Qed.

Lemma int_of_float_nonneg (x : Q) :
  (0 <= x)%Q -> int_of_float x = Qfloor x /\ 0 <= Qfloor x.
Proof.
  intros Hx. unfold int_of_float.
  rewrite (proj2 (Qle_bool_iff 0 x) Hx). split; [done |].
  change 0 with (Qfloor 0). by apply Qfloor_resp_le.
Qed.

Lemma float_mod_half (x : Q) :
  (0 <= float_mod x (1 # 2) < 1 # 2)%Q.
Proof.
  unfold float_mod.
  pose proof (Qfloor_le (x / (1 # 2))) as H1.
  pose proof (Qlt_floor (x / (1 # 2))) as H2.
  rewrite inject_Z_plus in H2. change (inject_Z 1) with 1%Q in H2.
  assert (x / (1 # 2) == x * 2)%Q as E by field.
  set (t := (x / (1 # 2))%Q) in *. split; lra.
Qed.

(** X24. For a non-negative duration (up to 2^53 seconds, far below the
    overflow of the division), [safe_sleep] sleeps in pieces of at most half
    a second; the pieces add up to the duration when no call is interrupted,
    and to no more than it in any case. *)
Theorem safe_sleep_total (seconds : Q) (interrupted : nat -> bool) :
  (0 <= seconds <= inject_Z (2 ^ 53))%Q ->
  let calls := safe_sleep seconds interrupted in
  Forall (fun d => (0 < d <= 1 # 2)%Q) calls
  /\ (qsum calls <= seconds)%Q
  /\ ((forall k, interrupted k = false) -> (qsum calls == seconds)%Q).
Proof.
  intros [Hs _] calls. unfold calls, safe_sleep. clear calls.
  assert (seconds / (1 # 2) == seconds * 2)%Q as E by field.
  destruct (int_of_float_nonneg (seconds / (1 # 2))) as [-> Hfl];
    [set (t := (seconds / (1 # 2))%Q) in *; lra |].
  set (n := Z.to_nat (Qfloor (seconds / (1 # 2)))).
  assert (inject_Z (Z.of_nat n) = inject_Z (Qfloor (seconds / (1 # 2))))
    as Hn by (unfold n; by rewrite Z2Nat.id).
  pose proof (float_mod_half seconds) as [Hr0 Hr1].
  assert (seconds == inject_Z (Z.of_nat n) * (1 # 2)
                     + float_mod seconds (1 # 2))%Q as Hsplit.
  { rewrite Hn. unfold float_mod. ring. }
  destruct (sleep_chunks_sum interrupted O n) as [Hsum Hall].
  split; [| split].
  - destruct (sleep_chunks interrupted 0 n) as [cs ret]. cbn [fst] in *.
    assert (Forall (fun d => (0 < d <= 1 # 2)%Q) cs) as Hcs.
    { eapply Forall_impl; [exact Hall |]. intros d ->. split; lra. }
    destruct ret; [done |].
    destruct (Qle_bool (float_mod seconds (1 # 2)) 0) eqn:Hle; [done |].
    apply Forall_app. split; [done |]. constructor; [| constructor].
    split; [| lra]. apply Qnot_le_lt. intros Hc.
    apply Qle_bool_iff in Hc. congruence.
  - destruct (sleep_chunks interrupted 0 n) as [cs ret]. cbn [fst] in *.
    destruct ret; [lra |].
    destruct (Qle_bool (float_mod seconds (1 # 2)) 0) eqn:Hle; [lra |].
    rewrite qsum_app. simpl. lra.
  - intros Hq. rewrite sleep_chunks_quiet by done.
    pose proof (qsum_replicate n (1 # 2)) as Hrep.
    destruct (Qle_bool (float_mod seconds (1 # 2)) 0) eqn:Hle.
    + apply Qle_bool_iff in Hle. lra.
    + rewrite qsum_app. simpl. lra.
Qed.

Lemma safe_sleep_total_witness :
  (qsum (safe_sleep (3 # 2) (fun _ => false)) == 3 # 2)%Q.
Proof.
  destruct (safe_sleep_total (3 # 2) (fun _ => false)) as (_ & _ & H).
  - split; unfold Qle; simpl; lia.
  - by apply H.
Defined.

Example safe_sleep_calls :
  safe_sleep (3 # 2) (fun _ => false) = [1 # 2; 1 # 2; 1 # 2]%Q
  /\ safe_sleep 8 (fun k => (k =? 3)%nat) = [1 # 2; 1 # 2; 1 # 2; 1 # 2]%Q.
Proof. by vm_compute. Qed.

(** ** The floor-plan strategy *)

Lemma bed_count_at_digits (s d : string) :
  bed_count_at s = Some d -> sforall is_digit d = true.
Proof.
  unfold bed_count_at. pose proof (span_while_spec is_digit s) as (H1 & _).
  destruct (span_while is_digit s) as [d' r]. simpl in H1.
  destruct (is_empty d'); [done |].
  destruct (_ || _); [| done]. by intros [= <-].
Qed.

Lemma alight_beds_nonneg (plan : floorplan) : 0 <= alight_beds plan.
Proof.
  unfold alight_beds. destruct (is_studio_plan plan); [done |].
  destruct (search bed_count_at _) as [d|] eqn:Hd; [| done].
  apply search_some in Hd as [s' Hs'].
  by apply digits_to_Z_nonneg, (bed_count_at_digits s').
Qed.

Lemma fmap_flat_map {A B C} (f : B -> C) (g : A -> list B) (l : list A) :
  f <$> flat_map g l = flat_map (fun a => f <$> g a) l.
Proof.
  induction l as [|a l IH]; [done |]. simpl. by rewrite fmap_app, IH.
Qed.

Section AlightProps.

Variable float_str : Q -> string.
Variable now : string.

Lemma alight_plan_prices (u a : string) (plan : floorplan) :
  price <$> alight_plan float_str now u a plan
  = _prices_from_text (Some (plan_text plan)).
Proof.
  unfold alight_plan. apply omap_all_some.
  intros p Hp%prices_from_text_plausible. by apply mk_record_int.
Qed.

(** X25. The floor-plan tier of [parse_alight] yields one record per price
    of each plan's text.  The records of a plan share its bed count, which
    is 0 for a studio whatever number stands in front of "Bed"; a studio
    for which no bath count is found gets one bath.  The page text is read
    only when the plans yield no record. *)
Theorem parse_alight_plans (u a : string) (plans : list floorplan)
    (page_title text : string) :
  let structured := flat_map (alight_plan float_str now u a) plans in
  price <$> structured
  = flat_map (fun plan => _prices_from_text (Some (plan_text plan))) plans
  /\ (forall plan rec, rec ∈ alight_plan float_str now u a plan ->
        company rec = "Alight West Lafayette" /\ url rec = u
        /\ beds rec = Some (alight_beds plan)
        /\ (is_studio_plan plan = true -> beds rec = Some 0)
        /\ (float_str 1 = "1.0" -> is_studio_plan plan = true ->
            (_parse_baths (plan_text plan) == 0)%Q ->
            exists q, baths rec = Some q /\ (q == 1)%Q))
  /\ (structured <> [] ->
      parse_alight float_str now u a plans page_title text = structured)
  /\ (structured = [] ->
      price <$> parse_alight float_str now u a plans page_title text
      = _prices_from_text (Some text)).
Proof.
  intros structured. split; [| split; [| split]].
  - unfold structured. rewrite fmap_flat_map.
    induction plans as [|plan plans IH]; [done |].
    simpl. by rewrite alight_plan_prices, IH.
  - intros plan rec (p & _ & Hrec)%list_elem_of_omap.
    apply mk_record_inv in Hrec as [v ->]. cbn [company url beds baths].
    split; [done |]. split; [done |].
    assert (normalize_beds float_str (Some (PInt (alight_beds plan)))
            = Some (alight_beds plan)) as Hbeds.
    { rewrite normalize_beds_int. f_equal.
      pose proof (alight_beds_nonneg plan). lia. }
    split; [done |]. split.
    + intros Hs. rewrite Hbeds. unfold alight_beds. by rewrite Hs.
    + intros Hfs Hs Hb. unfold alight_baths. rewrite Hs.
      apply Qeq_bool_iff in Hb. rewrite Hb.
      unfold normalize_baths, py_str. rewrite Hfs.
      eexists. split; [by vm_compute | by vm_compute].
  - unfold parse_alight. fold structured. by destruct structured.
  - intros Hnil. unfold parse_alight. fold structured. rewrite Hnil.
    apply omap_all_some. intros p Hp%prices_from_text_plausible.
    by apply mk_record_int.
Qed.

End AlightProps.

Example parse_alight_studio :
  parse_alight short_decimal_str "11-03-2026"
    "https://alight-westlafayette.com/rates-floorplans" "West Lafayette, IN"
    [Floorplan "S1 Studio 417 Sq. Ft. Starting at $1,199" (Some "S1");
     Floorplan "B2 2 Bed 2 Bath Starting at $899" (Some "B2");
     Floorplan "Call for pricing" None]
    "Floor Plans" ""
  = [Listing "https://alight-westlafayette.com/rates-floorplans"
       "Alight West Lafayette" "S1" 1199 (Some 0) (Some (10 # 10)%Q)
       "West Lafayette, IN" "11-03-2026";
     Listing "https://alight-westlafayette.com/rates-floorplans"
       "Alight West Lafayette" "B2" 899 (Some 2) (Some (20 # 10)%Q)
       "West Lafayette, IN" "11-03-2026"].
Proof. by vm_compute. Qed.

(** ** The four AppFolio strategies *)

Section AppFolioAgree.

Variable float_str : Q -> string.
Variable now : string.

(** The record of an item whose bed count is passed on as the matched
    text, and of one whose bed count is passed on as an [int]. *)
Lemma appfolio_record_str (u c t : string) (p : Z) (it : listing_item)
    (ba : option pyarg) (a : option string) :
  300 <= p <= 6000 ->
  exists rec,
    _mk_record float_str now u c t (Some (PInt p))
      (Some (match beds_group it with Some g => PStr g | None => PInt 0 end))
      ba a = Some rec
    /\ price rec = p /\ beds rec = Some (item_beds it) /\ company rec = c.
Proof.
  intros Hp.
  destruct (mk_record_int float_str now u c t p
              (Some (match beds_group it with
                     | Some g => PStr g
                     | None => PInt 0
                     end)) ba a Hp) as (rec & Hrec & Hprice).
  exists rec. split; [done |]. split; [done |].
  apply mk_record_inv in Hrec as [v ->]. cbn [beds company].
  split; [| done]. unfold item_beds.
  destruct (beds_group it) as [g|] eqn:Hg.
  - destruct (beds_group_digits it g Hg) as [Hd Hne].
    destruct g as [|ch g]; [done |]. by apply normalize_beds_digits.
  - by rewrite normalize_beds_int.
Qed.

Lemma appfolio_record_int (u c t : string) (p : Z) (it : listing_item)
    (ba : option pyarg) (a : option string) :
  300 <= p <= 6000 ->
  exists rec,
    _mk_record float_str now u c t (Some (PInt p))
      (Some (PInt (item_beds it))) ba a = Some rec
    /\ price rec = p /\ beds rec = Some (item_beds it) /\ company rec = c.
Proof.
  intros Hp.
  destruct (mk_record_int float_str now u c t p
              (Some (PInt (item_beds it))) ba a Hp) as (rec & Hrec & Hprice).
  exists rec. split; [done |]. split; [done |].
  apply mk_record_inv in Hrec as [v ->]. cbn [beds company].
  split; [| done]. rewrite normalize_beds_int. f_equal.
  unfold item_beds. destruct (beds_group it) as [g|] eqn:Hg; [| done].
  destruct (beds_group_digits it g Hg) as [Hd _].
  apply digits_to_Z_nonneg in Hd. lia.
Qed.

(** X26. The four AppFolio strategies agree on every item: all of them skip
    an item without a plausible rent, and for any other item each yields a
    record with the item's first price, the bed count read from its beds
    element, and its own company name. *)
Theorem appfolio_strategies_agree (u : string) (it : listing_item) :
  match first_price it with
  | None =>
      weida_item float_str now u it = None
      /\ muinzer_item float_str now u it = None
      /\ bk_item float_str now u it = None
      /\ fairway_item float_str now u it = None
  | Some p =>
      exists r1 r2 r3 r4,
        weida_item float_str now u it = Some r1
        /\ muinzer_item float_str now u it = Some r2
        /\ bk_item float_str now u it = Some r3
        /\ fairway_item float_str now u it = Some r4
        /\ Forall (fun r => price r = p /\ beds r = Some (item_beds it))
             [r1; r2; r3; r4]
        /\ company <$> [r1; r2; r3; r4]
           = ["Weida Apartments"; "Muinzer"; "BK Management";
              "Fairway Apartments"]
  end.
Proof.
  unfold weida_item, muinzer_item, bk_item, fairway_item.
  destruct (first_price it) as [p|] eqn:Hp; [| done].
  apply first_price_plausible in Hp. cbv zeta. fold (item_beds it).
  edestruct (appfolio_record_str u "Weida Apartments") as (r1 & -> & H1);
    [exact Hp |].
  edestruct (appfolio_record_int u "Muinzer") as (r2 & -> & H2); [exact Hp |].
  edestruct (appfolio_record_int u "BK Management") as (r3 & -> & H3);
    [exact Hp |].
  edestruct (appfolio_record_str u "Fairway Apartments") as (r4 & -> & H4);
    [exact Hp |].
  exists r1, r2, r3, r4.
  destruct H1 as (? & ? & ?), H2 as (? & ? & ?), H3 as (? & ? & ?),
    H4 as (? & ? & ?).
  repeat split; try done.
  - repeat constructor; done.
  - cbn. by repeat f_equal.
Qed.

Lemma muinzer_item_price (u : string) (it : listing_item) :
  match first_price it with
  | None => muinzer_item float_str now u it = None
  | Some p =>
      exists rec, muinzer_item float_str now u it = Some rec /\ price rec = p
  end.
Proof.
  unfold muinzer_item. destruct (first_price it) as [p|] eqn:Hp; [| done].
  by apply mk_record_int, first_price_plausible with it.
Qed.

Lemma fairway_item_price (u : string) (it : listing_item) :
  match first_price it with
  | None => fairway_item float_str now u it = None
  | Some p =>
      exists rec, fairway_item float_str now u it = Some rec /\ price rec = p
  end.
Proof.
  unfold fairway_item. destruct (first_price it) as [p|] eqn:Hp; [| done].
  by apply mk_record_int, first_price_plausible with it.
Qed.

(** X27. [parse_muinzer] and [parse_fairway] return the records of their
    first tier, one per item with a plausible rent, whenever there is one.
    When no item has a plausible rent, [parse_muinzer] returns one record
    per price of the embedded JSON text, and nothing when the page embeds
    none; [parse_fairway] returns one record per price of the page text. *)
Theorem parse_muinzer_fairway_tiers (u : string) (items : list listing_item)
    (json_text : option string) (address page_title text : string) :
  let m_tier := omap (muinzer_item float_str now u) items in
  let f_tier := omap (fairway_item float_str now u) items in
  price <$> m_tier = omap first_price items
  /\ price <$> f_tier = omap first_price items
  /\ (omap first_price items <> [] ->
      parse_muinzer float_str now u items json_text page_title = m_tier
      /\ parse_fairway float_str now u items address page_title text = f_tier)
  /\ (omap first_price items = [] ->
      price <$> parse_muinzer float_str now u items json_text page_title
      = match json_text with
        | Some t => _prices_from_text (Some t)
        | None => []
        end
      /\ price <$> parse_fairway float_str now u items address page_title text
         = _prices_from_text (Some text)).
Proof.
  intros m_tier f_tier.
  assert (price <$> m_tier = omap first_price items) as Hm
    by apply omap_first_price, muinzer_item_price.
  assert (price <$> f_tier = omap first_price items) as Hf
    by apply omap_first_price, fairway_item_price.
  split; [done |]. split; [done |]. split.
  - intros Hne. unfold parse_muinzer, parse_fairway. fold m_tier f_tier.
    split.
    + destruct m_tier; [by rewrite <- Hm in Hne | done].
    + destruct f_tier; [by rewrite <- Hf in Hne | done].
  - intros Hnil. rewrite Hnil in Hm, Hf.
    unfold parse_muinzer, parse_fairway. fold m_tier f_tier.
    destruct m_tier; [| done]. destruct f_tier; [| done]. split.
    + destruct json_text as [t|]; [| done].
      apply omap_all_some. intros p Hp%prices_from_text_plausible.
      by apply mk_record_int.
    + apply omap_all_some. intros p Hp%prices_from_text_plausible.
      by apply mk_record_int.
Qed.

End AppFolioAgree.

(** ** The strategy of RISE *)

Lemma beds_rx_digits (s d : string) :
  _BEDS_RX s = Some d -> sforall is_digit d = true /\ is_empty d = false.
Proof.
  unfold _BEDS_RX. pose proof (span_while_spec is_digit s) as (H1 & _).
  destruct (span_while is_digit s) as [d' r]. simpl in H1.
  destruct (is_empty d') eqn:He; [done |].
  destruct (_ || _); [| done]. by intros [= <-].
Qed.

Lemma beds_rx_bedroom (d rest : string) :
  sforall is_digit d = true -> is_empty d = false ->
  _BEDS_RX (d ++ " Bedroom" ++ rest) = None
  /\ bed_count_at (d ++ " Bedroom" ++ rest) = Some d.
Proof.
  intros Hd Hne. unfold _BEDS_RX, bed_count_at.
  rewrite span_while_app by done. by rewrite Hne.
Qed.

Section RiseProps.

Variable float_str : Q -> string.
Variable now : string.

Lemma rise_item_price (u : string) (it : rise_card) :
  match head (_prices_from_text (Some (card_text it))) with
  | None => rise_item float_str now u it = None
  | Some p =>
      exists rec, rise_item float_str now u it = Some rec /\ price rec = p
  end.
Proof.
  unfold rise_item.
  pose proof (head_plausible (Some (card_text it))) as Hp.
  destruct (_prices_from_text (Some (card_text it))) as [|p l]; [done |].
  by apply mk_record_int, Hp.
Qed.

Lemma omap_head_price (f : rise_card -> option listing)
    (items : list rise_card) :
  (forall it, match head (_prices_from_text (Some (card_text it))) with
              | None => f it = None
              | Some p => exists rec, f it = Some rec /\ price rec = p
              end) ->
  price <$> omap f items
  = omap (fun it => head (_prices_from_text (Some (card_text it)))) items.
Proof.
  intros Hf. induction items as [|it items IH]; [done |].
  cbn [omap list_omap]. specialize (Hf it).
  destruct (head _) as [p|].
  - destruct Hf as (rec & -> & <-). rewrite fmap_cons. by f_equal.
  - by rewrite Hf.
Qed.

(** X28. The first tier of [parse_rise] yields one record for each element
    whose text holds a plausible price, priced at the first one; the page
    text is read only when that tier yields nothing.  The bed count of a
    record is the number in front of "bed", "beds", "br" or "bd" as a whole
    word, and 0 when there is none: "2 Bedroom" is not read as a bed count
    here, while the floor-plan strategies read it as 2. *)
Theorem parse_rise_tiers (u : string) (items : list rise_card)
    (a page_title text : string) :
  let tier := omap (rise_item float_str now u) items in
  price <$> tier
  = omap (fun it => head (_prices_from_text (Some (card_text it)))) items
  /\ (forall it rec, rise_item float_str now u it = Some rec ->
        company rec = "RISE on Chauncey"
        /\ beds rec = Some (rise_beds (card_text it))
        /\ address rec = normalize_address (Some (card_address it)))
  /\ (tier <> [] ->
      parse_rise float_str now u items a page_title text = tier)
  /\ (tier = [] ->
      price <$> parse_rise float_str now u items a page_title text
      = _prices_from_text (Some text))
  /\ (forall d rest,
        sforall is_digit d = true -> is_empty d = false ->
        _BEDS_RX (d ++ " Bedroom" ++ rest) = None
        /\ bed_count_at (d ++ " Bedroom" ++ rest) = Some d).
Proof.
  intros tier. split; [apply omap_head_price, rise_item_price |].
  split; [| split; [| split]].
  - intros it rec Hrec. unfold rise_item in Hrec.
    destruct (_prices_from_text (Some (card_text it))) as [|p l]; [done |].
    apply mk_record_inv in Hrec as [v ->]. cbn [company beds address].
    split; [done |]. split; [| done]. unfold rise_beds.
    destruct (search _BEDS_RX (card_text it)) as [g|] eqn:Hg.
    + apply search_some in Hg as [s' [Hd Hne]%beds_rx_digits].
      destruct g as [|ch g]; [done |]. by apply normalize_beds_digits.
    + by rewrite normalize_beds_int.
  - unfold parse_rise. fold tier. by destruct tier.
  - intros Hnil. unfold parse_rise. fold tier. rewrite Hnil.
    apply omap_all_some. intros p Hp%prices_from_text_plausible.
    by apply mk_record_int.
  - apply beds_rx_bedroom.
Qed.

End RiseProps.

Example parse_rise_bedroom :
  parse_rise short_decimal_str "11-03-2026"
    "https://riseonchauncey.com/availability"
    [RiseCard "A2 2 Bedroom 2 Bathroom $1,200" (Some "A2") "West Lafayette, IN";
     RiseCard "B1 1 Bed 1 Bath $950" (Some "B1") "West Lafayette, IN"]
    "West Lafayette, IN" "RISE Listing" ""
  = [Listing "https://riseonchauncey.com/availability" "RISE on Chauncey"
       "A2" 1200 (Some 0) (Some (0 # 1)%Q) "West Lafayette, IN" "11-03-2026";
     Listing "https://riseonchauncey.com/availability" "RISE on Chauncey"
       "B1" 950 (Some 1) (Some (1 # 1)%Q) "West Lafayette, IN" "11-03-2026"].
Proof. by vm_compute. Qed.
